(** * webmesh: replicated state machine, peer resolution, network ACLs,
      routes and bootstrap — a shallow embedding of the Go sources.

    - [Fsm]        : pkg/store/fsm.go (Apply, ApplyBatch, getDBTermAndIndex)
    - [Svcutil]    : pkg/services/svcutil/peers.go (WireGuardPeersFor,
                     recursePeers, recurseEdges, contains)
    - [Networking] : package networking (PutNetworkACL, DeleteNetworkACL,
                     GetRoute, PutRoute, AppendNodeToRoute)
    - [Storage]    : package storage (Bootstrap)                           *)

From stdpp Require Import gmap strings list pretty.
From Stdlib Require Import ZArith Lia Ascii.

Local Open Scope Z_scope.

(* ===================================================================== *)
(** ** The Raft finite state machine (pkg/store/fsm.go)                   *)
(* ===================================================================== *)
Module Fsm.

(** Go's integer conversions [uint64(x)] and [int64(x)] on two's-complement
    64-bit values, written out on [Z]. *)
Definition uint64 (z : Z) : Z := z mod 2 ^ 64.
Definition int64 (z : Z) : Z := (z + 2 ^ 63) mod 2 ^ 64 - 2 ^ 63.

(** [raft.LogType]. *)
Inductive LogType :=
| LogCommand | LogNoop | LogAddPeerDeprecated | LogRemovePeerDeprecated
| LogBarrier | LogConfiguration.

#[global] Instance LogType_eq_dec : EqDecision LogType.
Proof. solve_decision. Defined.

(** [raft.Log]: [Index] and [Term] are [uint64]. *)
Record Log := mkLog {
  Index : Z;
  Term : Z;
  Type_ : LogType;
  Data : list Byte.byte;
}.

Definition is_uint64 (z : Z) : Prop := 0 <= z < 2 ^ 64.
Definition wf_log (l : Log) : Prop := is_uint64 (Index l) /\ is_uint64 (Term l).

(** [v1.RaftApplyResponse]. *)
Record RaftApplyResponse := mkResp {
  Time : string;
  Error : string;
}.

(** The log encodings; [RaftLogFormat] is a string type in Go, so any other
    value can be configured and reaches the [default] branch. *)
Inductive RaftLogFormat :=
| RaftLogFormatJSON
| RaftLogFormatProtobuf
| RaftLogFormatProtobufSnappy
| RaftLogFormatUnknown (name : string).

(** The node-local database holding the single raft_index row
    (int64 columns [term] and [log_index]). A query can fail for reasons
    outside the program: [read_fault] and [write_fault] carry the error of
    the driver, if any. *)
Record RaftIndexRow := mkRow {
  RowTerm : Z;
  LogIndex : Z;
}.

Record LocalDB := mkLocalDB {
  raft_index : option RaftIndexRow;
  read_fault : option string;
  write_fault : option string;
}.

Inductive QueryError := ErrNoRows | ErrOther (msg : string).

Definition GetCurrentRaftIndex (db : LocalDB) : RaftIndexRow + QueryError :=
  match read_fault db with
  | Some e => inr (ErrOther e)
  | None =>
      match raft_index db with
      | Some r => inl r
      | None => inr ErrNoRows
      end
  end.

Definition SetCurrentRaftIndex (db : LocalDB) (logIndex term : Z)
  : LocalDB * option string :=
  match write_fault db with
  | Some e => (db, Some e)
  | None =>
      ({| raft_index := Some {| RowTerm := term; LogIndex := logIndex |};
          read_fault := read_fault db;
          write_fault := write_fault db |}, None)
  end.

Section WithCommands.

(** The sub-stores (nodes, edges, routes, ACLs, RBAC) behind [s.apply], the
    decoded [v1.RaftLogEntry], the decoders of the vendored libraries and the
    dispatcher [s.apply] are not part of fsm.go: they are parameters. *)
Variable SubStores : Type.
Variable RaftLogEntry : Type.
Variable protojson_Unmarshal : list Byte.byte -> RaftLogEntry + string.
Variable proto_Unmarshal : list Byte.byte -> RaftLogEntry + string.
Variable snappy_Decode : list Byte.byte -> list Byte.byte + string.
Variable apply : Log -> RaftLogEntry -> SubStores -> SubStores * RaftApplyResponse.
(** [time.Since(start).String()] *)
Variable elapsed : string.

Record store := mkStore {
  localDB : LocalDB;
  data : SubStores;
  raftIndex : Z;                  (* in-memory atomic, not persisted *)
  raftLogFormat : RaftLogFormat;
}.

Definition with_localDB (s : store) (db : LocalDB) : store :=
  {| localDB := db; data := data s; raftIndex := raftIndex s;
     raftLogFormat := raftLogFormat s |}.

Definition with_data (s : store) (d : SubStores) : store :=
  {| localDB := localDB s; data := d; raftIndex := raftIndex s;
     raftLogFormat := raftLogFormat s |}.

Definition with_raftIndex (s : store) (i : Z) : store :=
  {| localDB := localDB s; data := data s; raftIndex := i;
     raftLogFormat := raftLogFormat s |}.

Definition getDBTermAndIndex (s : store) : (Z * Z) + string :=
  match GetCurrentRaftIndex (localDB s) with
  | inr ErrNoRows => inl (0, 0)
  | inr (ErrOther e) => inr ("get raft state: " +:+ e)
  | inl raftState => inl (uint64 (RowTerm raftState), uint64 (LogIndex raftState))
  end.

(** The [switch s.raftLogFormat] of Apply. *)
Definition decode (f : RaftLogFormat) (d : list Byte.byte) : RaftLogEntry + string :=
  match f with
  | RaftLogFormatJSON => protojson_Unmarshal d
  | RaftLogFormatProtobuf => proto_Unmarshal d
  | RaftLogFormatProtobufSnappy =>
      match snappy_Decode d with
      | inl decoded => proto_Unmarshal decoded
      | inr e => inr e
      end
  | RaftLogFormatUnknown name => inr ("unknown raft log format: " +:+ name)
  end.

(** The deferred closure "save the new index to the db when we are done";
    an error of the write is logged and dropped. *)
Definition saveIndex (dbIndex : Z) (l : Log) (s : store) : store :=
  if bool_decide (dbIndex <> Index l) then
    with_localDB s (fst (SetCurrentRaftIndex (localDB s) (int64 (Index l)) (int64 (Term l))))
  else s.

(** [defer s.raftIndex.Store(l.Index)], registered first, run last. *)
Definition storeRaftIndex (l : Log) (s : store) : store :=
  with_raftIndex s (Index l).

Definition Apply (s : store) (l : Log) : store * RaftApplyResponse :=
  match getDBTermAndIndex s with
  | inr e =>
      (storeRaftIndex l s,
       {| Time := elapsed; Error := "check last applied index: " +:+ e |})
  | inl (dbTerm, dbIndex) =>
      if Term l <? dbTerm then
        (storeRaftIndex l s, {| Time := elapsed; Error := "" |})
      else if Index l <=? dbIndex then
        (storeRaftIndex l s, {| Time := elapsed; Error := "" |})
      else if bool_decide (Type_ l <> LogCommand) then
        (storeRaftIndex l (saveIndex dbIndex l s), {| Time := elapsed; Error := "" |})
      else
        match decode (raftLogFormat s) (Data l) with
        | inr e =>
            (storeRaftIndex l (saveIndex dbIndex l s),
             {| Time := elapsed; Error := "unmarshal raft log entry: " +:+ e |})
        | inl cmd =>
            let '(d, resp) := apply l cmd (data s) in
            (storeRaftIndex l (saveIndex dbIndex l (with_data s d)), resp)
        end
  end.

Fixpoint ApplyBatch (s : store) (logs : list Log) : store * list RaftApplyResponse :=
  match logs with
  | [] => (s, [])
  | l :: rest =>
      let '(s1, r) := Apply s l in
      let '(s2, rs) := ApplyBatch s1 rest in
      (s2, r :: rs)
  end.

(** The checkpoint as the row stores it, read the way [getDBTermAndIndex]
    reads it: [(0, 0)] when no row was written yet. *)
Definition persisted (s : store) : Z * Z :=
  match raft_index (localDB s) with
  | Some r => (uint64 (RowTerm r), uint64 (LogIndex r))
  | None => (0, 0)
  end.

(** The stale-replay guard of Apply. *)
Definition stale (ckpt : Z * Z) (l : Log) : Prop :=
  Term l < fst ckpt \/ Index l <= snd ckpt.

(** Component-wise order on checkpoints; it implies the lexicographic one. *)
Definition ckpt_le (a b : Z * Z) : Prop := fst a <= fst b /\ snd a <= snd b.


(** An entry is applied at [s] when the checkpoint can be read and written
    and the stale-replay guard lets the entry through. *)
Definition applied (s : store) (l : Log) : Prop :=
  read_fault (localDB s) = None /\ write_fault (localDB s) = None
  /\ ~ stale (persisted s) l.

End WithCommands.

Arguments localDB {SubStores} _.
Arguments data {SubStores} _.
Arguments raftIndex {SubStores} _.
Arguments raftLogFormat {SubStores} _.
Arguments persisted {SubStores} _.
Arguments getDBTermAndIndex {SubStores} _.
Arguments applied {SubStores} _ _.

End Fsm.

(* ===================================================================== *)
(** ** Peer resolution (pkg/services/svcutil/peers.go)                    *)
(* ===================================================================== *)
Module Svcutil.

(** The outcome of a fallible Go call: the value, or the [error]. *)
Inductive Result (A : Type) :=
| ROk (a : A)
| RErr (msg : string).
Arguments ROk {A} _.
Arguments RErr {A} _.

(** Outcomes of the functions of this file: a value, the [error], or — the
    traversal of the adjacency map being defined by fuel — [OutOfFuel], an
    outcome of the model only, shown unreachable in [recurseEdges_fuel]. *)
Inductive Res (A : Type) :=
| Ok (a : A)
| Err (msg : string)
| OutOfFuel.
Arguments Ok {A} _.
Arguments Err {A} _.
Arguments OutOfFuel {A}.

#[global] Instance Res_ret : MRet Res := fun _ a => Ok a.
#[global] Instance Res_bind : MBind Res := fun _ _ f r =>
  match r with
  | Ok a => f a
  | Err e => Err e
  | OutOfFuel => OutOfFuel
  end.

(** [v, err := call(); if err != nil { return fmt.Errorf(ctx + ": %w", err) }] *)
Definition try {A} (ctx : string) (r : Result A) : Res A :=
  match r with
  | ROk a => Ok a
  | RErr e => Err (ctx +:+ ": " +:+ e)
  end.

(** The same for a call of a function of this file. *)
Definition wrap {A} (ctx : string) (r : Res A) : Res A :=
  match r with
  | Err e => Err (ctx +:+ ": " +:+ e)
  | _ => r
  end.

(** The verb [%q] of [fmt], for a text that needs no escapes. *)
Definition quote (s : string) : string :=
  String (ascii_of_nat 34) (s +:+ String (ascii_of_nat 34) EmptyString).

(** [netip.Prefix]: a comparable value (address family, address bits,
    prefix length); the zero value is not valid. *)
Inductive Family := FamZero | Fam4 | Fam6.

Record Prefix := mkPrefix {
  family : Family;
  addr : Z;
  bits : Z;
}.

#[global] Instance Family_eq_dec : EqDecision Family.
Proof. solve_decision. Defined.
#[global] Instance Prefix_eq_dec : EqDecision Prefix.
Proof. solve_decision. Defined.

Definition BitLen (f : Family) : Z :=
  match f with FamZero => 0 | Fam4 => 32 | Fam6 => 128 end.

Definition IsValid (p : Prefix) : bool :=
  bool_decide (family p <> FamZero) && (0 <=? bits p) && (bits p <=? BitLen (family p)).

(** [peers.Node], the fields peer resolution reads. *)
Record Node := mkNode {
  ID : string;
  PublicKey : string;
  PrimaryEndpoint : string;
  WireGuardEndpoints : list string;
  ZoneAwarenessID : string;
  PrivateIPv4 : Prefix;
  NetworkIPv6 : Prefix;
}.

(** [v1.Route], the fields peer resolution reads. *)
Record Route := mkRoute {
  RouteName : string;
  DestinationCidrs : list string;
}.

(** [v1.WireGuardPeer]. *)
Record WireGuardPeer := mkPeer {
  Id : string;
  PeerPublicKey : string;
  ZoneAwarenessId : string;
  PeerPrimaryEndpoint : string;
  WireguardEndpoints : list string;
  AddressIpv4 : string;
  AddressIpv6 : string;
  AllowedIps : list string;
  AllowedRoutes : list string;
}.

(** [peers.Graph]: vertices are hashed by their ID, so [Vertex] returns the
    node stored under the hash it is asked for. The edges are kept as the
    pairs [(source, target)] they were put with. *)
Record Graph := mkGraph {
  vertices : list Node;
  edges : list (string * string);
}.

Definition Vertex (g : Graph) (hash : string) : Result Node :=
  match find (fun n => bool_decide (ID n = hash)) (vertices g) with
  | Some n => ROk n
  | None => RErr "vertex not found"
  end.

(** [networking.AdjacencyMap] is [map[string]map[string]graph.Edge]. Only
    the keys of the inner maps are read; an inner map is kept as the list of
    its keys in the order [range] yields them, so that every iteration order
    is a value of the model. A missing key reads as the nil map. *)
Abbreviation AdjacencyMap := (gmap string (list string)).

Definition adjacents (m : AdjacencyMap) (k : string) : list string :=
  default [] (m !! k).

(** The [networking.Networking] interface, the two methods peer resolution
    calls. Their implementations are behind the interface. *)
Record Networking := mkNetworking {
  FilterGraph : Graph -> string -> Result AdjacencyMap;
  GetRoutesByNode : string -> Result (list Route);
}.

Fixpoint contains (ss : list Prefix) (s : Prefix) : bool :=
  match ss with
  | [] => false
  | v :: rest => if bool_decide (v = s) then true else contains rest s
  end.

(** [if !contains(l, p) { l = append(l, p) }] *)
Definition appendMissing (l : list Prefix) (p : Prefix) : list Prefix :=
  if contains l p then l else l ++ [p].

(** [for _, p := range ps { if !contains(l, p) { l = append(l, p) } }] *)
Definition mergeMissing (l ps : list Prefix) : list Prefix :=
  foldl appendMissing l ps.

(** [if n.PrivateIPv4.IsValid() {append}; if n.NetworkIPv6.IsValid() {append}] *)
Definition appendAddresses (l : list Prefix) (n : Node) : list Prefix :=
  let l := if IsValid (PrivateIPv4 n) then l ++ [PrivateIPv4 n] else l in
  if IsValid (NetworkIPv6 n) then l ++ [NetworkIPv6 n] else l.

Section WithPrefixText.

(** [netip.ParsePrefix] and [netip.Prefix.String] of the Go library. *)
Variable ParsePrefix : string -> Result Prefix.
Variable PrefixString : Prefix -> string.

(** The inner loop over [route.GetDestinationCidrs()] of the route step:
    a parsed prefix is appended unless [allowedIPs] or [thisRoutes] has it. *)
Fixpoint addCidrs (thisRoutes : list Prefix) (cidrs : list string)
    (allowedIPs : list Prefix) : Res (list Prefix) :=
  match cidrs with
  | [] => Ok allowedIPs
  | cidr :: rest =>
      prefix ← try "parse prefix" (ParsePrefix cidr);
      addCidrs thisRoutes rest
        (if negb (contains allowedIPs prefix) && negb (contains thisRoutes prefix)
         then allowedIPs ++ [prefix] else allowedIPs)
  end.

Fixpoint addRoutes (thisRoutes : list Prefix) (routes : list Route)
    (allowedIPs : list Prefix) : Res (list Prefix) :=
  match routes with
  | [] => Ok allowedIPs
  | route :: rest =>
      allowedIPs ← addCidrs thisRoutes (DestinationCidrs route) allowedIPs;
      addRoutes thisRoutes rest allowedIPs
  end.

(** "Does this peer expose routes?": the step both [recursePeers] and
    [recurseEdges] take after the addresses of a node were appended. *)
Definition routeStep (nw : Networking) (thisRoutes : list Prefix) (id : string)
    (allowedIPs allowedRoutes : list Prefix) : Res (list Prefix * list Prefix) :=
  routes ← try "get routes by node" (GetRoutesByNode nw id);
  if bool_decide (0 < length routes)%nat then
    allowedIPs ← addRoutes thisRoutes routes allowedIPs;
    Ok (allowedIPs, allowedRoutes)
  else if bool_decide (0 < length thisRoutes)%nat then
    Ok (allowedIPs, mergeMissing allowedRoutes thisRoutes)
  else Ok (allowedIPs, allowedRoutes).

(** The [for target := range targets] loop of [recurseEdges]; [recurse] is
    the recursive call. The [visited] map is shared by all the calls of one
    traversal (Go maps are references): it is threaded through the loop and
    the calls, and returned. *)
Fixpoint eachTarget
    (recurse : Node -> gset string -> Res (gset string * list Prefix * list Prefix))
    (nw : Networking) (graph : Graph) (thisPeer : string) (thisRoutes : list Prefix)
    (directAdjacents : list string)
    (targets : list string) (visited : gset string)
    (allowedIPs allowedRoutes : list Prefix)
  : Res (gset string * list Prefix * list Prefix) :=
  match targets with
  | [] => Ok (visited, allowedIPs, allowedRoutes)
  | target :: rest =>
      if bool_decide (target = thisPeer) then
        eachTarget recurse nw graph thisPeer thisRoutes directAdjacents
          rest visited allowedIPs allowedRoutes
      else if bool_decide (target ∈ directAdjacents) then
        eachTarget recurse nw graph thisPeer thisRoutes directAdjacents
          rest visited allowedIPs allowedRoutes
      else if bool_decide (target ∈ visited) then
        eachTarget recurse nw graph thisPeer thisRoutes directAdjacents
          rest visited allowedIPs allowedRoutes
      else
        targetNode ← try "get vertex" (Vertex graph target);
        let allowedIPs := appendAddresses allowedIPs targetNode in
        '(allowedIPs, allowedRoutes) ←
          routeStep nw thisRoutes (ID targetNode) allowedIPs allowedRoutes;
        let visited := {[target]} ∪ visited in
        '(visited, ips, ipRoutes) ←
          wrap "recurse allowed IPs" (recurse targetNode visited);
        eachTarget recurse nw graph thisPeer thisRoutes directAdjacents
          rest visited
          (mergeMissing allowedIPs ips) (mergeMissing allowedRoutes ipRoutes)
  end.

Fixpoint recurseEdges (fuel : nat) (nw : Networking) (graph : Graph)
    (adjacencyMap : AdjacencyMap) (thisPeer : string) (thisRoutes : list Prefix)
    (node : Node) (visited : gset string)
  : Res (gset string * list Prefix * list Prefix) :=
  match fuel with
  | O => OutOfFuel
  | S fuel =>
      let directAdjacents := adjacents adjacencyMap thisPeer in
      let visited := {[ID node]} ∪ visited in
      let targets := adjacents adjacencyMap (ID node) in
      eachTarget (recurseEdges fuel nw graph adjacencyMap thisPeer thisRoutes)
        nw graph thisPeer thisRoutes directAdjacents targets visited [] []
  end.

(** Every identifier that occurs as a target in the adjacency map; one more
    than their number bounds the depth of the traversal. *)
Definition allTargets (m : AdjacencyMap) : gset string :=
  list_to_set (concat (snd <$> map_to_list m)).

Definition traversalFuel (m : AdjacencyMap) : nat := S (size (allTargets m)).

Definition recursePeers (nw : Networking) (graph : Graph)
    (adjacencyMap : AdjacencyMap) (thisPeer : string) (thisRoutes : list Prefix)
    (node : Node) : Res (list Prefix * list Prefix) :=
  let allowedIPs := appendAddresses [] node in
  '(allowedIPs, allowedRoutes) ← routeStep nw thisRoutes (ID node) allowedIPs [];
  '(_, edgeIPs, edgeRoutes) ←
    wrap "recurse edge allowed IPs"
      (recurseEdges (traversalFuel adjacencyMap) nw graph adjacencyMap thisPeer
         thisRoutes node ∅);
  Ok (mergeMissing allowedIPs edgeIPs, mergeMissing allowedRoutes edgeRoutes).

(** "Determine the preferred wireguard endpoint". *)
Definition preferredEndpoint (node : Node) : string :=
  let primaryEndpoint :=
    if bool_decide (PrimaryEndpoint node <> "") then
      default "" (find (String.prefix (PrimaryEndpoint node)) (WireGuardEndpoints node))
    else "" in
  if bool_decide (primaryEndpoint = "") then
    match WireGuardEndpoints node with
    | first :: _ => first
    | [] => primaryEndpoint
    end
  else primaryEndpoint.

Definition addressString (p : Prefix) : string :=
  if IsValid p then PrefixString p else "".

(** The loops of [WireGuardPeersFor] that parse the routes of the
    requesting node into [ourRoutes]. *)
Fixpoint parseCidrs (cidrs : list string) (ourRoutes : list Prefix) : Res (list Prefix) :=
  match cidrs with
  | [] => Ok ourRoutes
  | cidr :: rest =>
      prefix ← try ("parse prefix " +:+ quote cidr) (ParsePrefix cidr);
      parseCidrs rest (ourRoutes ++ [prefix])
  end.

Fixpoint parseRoutes (routes : list Route) (ourRoutes : list Prefix) : Res (list Prefix) :=
  match routes with
  | [] => Ok ourRoutes
  | route :: rest =>
      ourRoutes ← parseCidrs (DestinationCidrs route) ourRoutes;
      parseRoutes rest ourRoutes
  end.

(** The [for adjacent := range directAdjacents] loop of [WireGuardPeersFor]. *)
Fixpoint eachAdjacent (nw : Networking) (graph : Graph) (adjacencyMap : AdjacencyMap)
    (peerID : string) (ourRoutes : list Prefix) (directAdjacents : list string)
    (out : list WireGuardPeer) : Res (list WireGuardPeer) :=
  match directAdjacents with
  | [] => Ok out
  | adjacent :: rest =>
      node ← try "get vertex" (Vertex graph adjacent);
      '(allowedIPs, allowedRoutes) ←
        wrap "recurse allowed IPs"
          (recursePeers nw graph adjacencyMap peerID ourRoutes node);
      let peer :=
        {| Id := ID node;
           PeerPublicKey := PublicKey node;
           ZoneAwarenessId := ZoneAwarenessID node;
           PeerPrimaryEndpoint := preferredEndpoint node;
           WireguardEndpoints := WireGuardEndpoints node;
           AddressIpv4 := addressString (PrivateIPv4 node);
           AddressIpv6 := addressString (NetworkIPv6 node);
           AllowedIps := PrefixString <$> allowedIPs;
           AllowedRoutes := PrefixString <$> allowedRoutes |} in
      eachAdjacent nw graph adjacencyMap peerID ourRoutes rest (out ++ [peer])
  end.

Definition WireGuardPeersFor (nw : Networking) (graph : Graph) (peerID : string)
  : Res (list WireGuardPeer) :=
  adjacencyMap ← try "filter adjacency map" (FilterGraph nw graph peerID);
  routes ← try "get routes by node" (GetRoutesByNode nw peerID);
  ourRoutes ← parseRoutes routes [];
  let directAdjacents := adjacents adjacencyMap peerID in
  eachAdjacent nw graph adjacencyMap peerID ourRoutes directAdjacents [].

(** A destination prefix some route of the list advertises. *)
Definition advertised (routes : list Route) (p : Prefix) : Prop :=
  exists route cidr, route ∈ routes /\ cidr ∈ DestinationCidrs route
                     /\ ParsePrefix cidr = ROk p.

End WithPrefixText.

(** A valid private address of a node. *)
Definition addressOf (n : Node) (p : Prefix) : Prop :=
  (p = PrivateIPv4 n /\ IsValid (PrivateIPv4 n) = true)
  \/ (p = NetworkIPv6 n /\ IsValid (NetworkIPv6 n) = true).

(** A valid private address of some vertex of the graph. *)
Definition vertexAddress (g : Graph) (p : Prefix) : Prop :=
  exists n, n ∈ vertices g /\ addressOf n p.

(** What a call of the traversal owes its caller: it does not run out of
    fuel, and it only adds to the visited set. *)
Definition returnsGrowing (visited : gset string)
    (r : Res (gset string * list Prefix * list Prefix)) : Prop :=
  match r with
  | Ok (visited', _, _) => visited ⊆ visited'
  | Err _ => True
  | OutOfFuel => False
  end.

(** The lists a traversal hands back: an address list holds addresses of
    vertices and prefixes the requesting node does not advertise; a route
    list holds prefixes of the requesting node only. *)
Definition soundLists (graph : Graph) (thisRoutes ips rts : list Prefix) : Prop :=
  (forall q, q ∈ ips -> vertexAddress graph q \/ q ∉ thisRoutes)
  /\ (forall q, q ∈ rts -> q ∈ thisRoutes).



(** A step of the traversal made on behalf of [thisPeer]: from a node to one
    of its adjacents that is neither [thisPeer] nor a direct adjacent of
    [thisPeer] (the first two [continue]s of [recurseEdges]). *)
Definition relayStep (adjacencyMap : AdjacencyMap) (thisPeer : string)
    (source target : string) : Prop :=
  target ∈ adjacents adjacencyMap source /\ target <> thisPeer
  /\ target ∉ adjacents adjacencyMap thisPeer.

(** What a node adds to the allowed addresses: its valid private addresses,
    and the prefixes its routes advertise, those of [thisRoutes] apart. *)
Definition contributes (ParsePrefix : string -> Result Prefix) (nw : Networking)
    (thisRoutes : list Prefix) (n : Node) (q : Prefix) : Prop :=
  addressOf n q
  \/ ((q ∉ thisRoutes)
      /\ exists routes, GetRoutesByNode nw (ID n) = ROk routes
                        /\ advertised ParsePrefix routes q).

(** A node that exposes no route: [len(routes) == 0]. *)
Definition lacksRoutes (nw : Networking) (n : Node) : Prop :=
  GetRoutesByNode nw (ID n) = ROk [].

(** The lists [ips] and [rts] account for the nodes [new], over the lists
    [ips0] and [rts0] they started from: every such node is a vertex whose
    contribution is in [ips], with [thisRoutes] in [rts] if it exposes no
    route; and nothing else was added. *)
Definition accounted (ParsePrefix : string -> Result Prefix) (nw : Networking)
    (graph : Graph) (thisRoutes : list Prefix) (new : string -> Prop)
    (ips0 rts0 ips rts : list Prefix) : Prop :=
  (forall t, new t ->
     exists tn, Vertex graph t = ROk tn
       /\ (forall q, contributes ParsePrefix nw thisRoutes tn q -> q ∈ ips)
       /\ (lacksRoutes nw tn -> forall q, q ∈ thisRoutes -> q ∈ rts))
  /\ (forall q, q ∈ ips ->
        q ∈ ips0
        \/ exists t tn, new t /\ Vertex graph t = ROk tn
                        /\ contributes ParsePrefix nw thisRoutes tn q)
  /\ (forall q, q ∈ rts ->
        q ∈ rts0
        \/ (q ∈ thisRoutes
            /\ exists t tn, new t /\ Vertex graph t = ROk tn /\ lacksRoutes nw tn)).

(** What a successful call of the traversal at [node] has done to the
    shared [visited] map and what it returns: the nodes it added are
    reached from [node] by relay steps, every relay step from [node] or
    from an added node ends in the map, and the lists account for the
    added nodes. *)
Definition explored (ParsePrefix : string -> Result Prefix) (nw : Networking)
    (graph : Graph) (adjacencyMap : AdjacencyMap) (thisPeer : string)
    (thisRoutes : list Prefix) (node : Node) (visited : gset string)
    (r : Res (gset string * list Prefix * list Prefix)) : Prop :=
  match r with
  | Ok (visited', ips, rts) =>
      {[ID node]} ∪ visited ⊆ visited'
      /\ (forall t, t ∈ visited' -> t ∉ {[ID node]} ∪ visited ->
            rtc (relayStep adjacencyMap thisPeer) (ID node) t)
      /\ (forall t u, t = ID node \/ (t ∈ visited' /\ t ∉ visited) ->
            relayStep adjacencyMap thisPeer t u -> u ∈ visited')
      /\ accounted ParsePrefix nw graph thisRoutes
           (fun t => t ∈ visited' /\ t ∉ {[ID node]} ∪ visited) [] [] ips rts
  | _ => True
  end.

(** The same for the loop over the targets of a node. *)
Definition loopExplored (ParsePrefix : string -> Result Prefix) (nw : Networking)
    (graph : Graph) (adjacencyMap : AdjacencyMap) (thisPeer : string)
    (thisRoutes : list Prefix) (targets : list string) (visited : gset string)
    (ips0 rts0 : list Prefix)
    (r : gset string * list Prefix * list Prefix) : Prop :=
  let '(visited', ips, rts) := r in
  visited ⊆ visited'
  /\ (forall t, t ∈ targets -> t <> thisPeer -> t ∉ adjacents adjacencyMap thisPeer ->
        t ∈ visited')
  /\ (forall t, t ∈ visited' -> t ∉ visited ->
        exists t0, t0 ∈ targets /\ t0 <> thisPeer
                   /\ (t0 ∉ adjacents adjacencyMap thisPeer)
                   /\ rtc (relayStep adjacencyMap thisPeer) t0 t)
  /\ (forall t u, t ∈ visited' -> t ∉ visited ->
        relayStep adjacencyMap thisPeer t u -> u ∈ visited')
  /\ (forall q, q ∈ ips0 -> q ∈ ips)
  /\ (forall q, q ∈ rts0 -> q ∈ rts)
  /\ accounted ParsePrefix nw graph thisRoutes
       (fun t => t ∈ visited' /\ t ∉ visited) ips0 rts0 ips rts.

(** Modelled from the spec: building the adjacency map of the graph and
    [FilterGraph] are not under src/. Following section 4.2, under an
    allow-all ACL every pair joined by an edge is permitted, so the filtered
    map is the adjacency map of the graph. An edge makes its two ends
    adjacent to each other, whichever way it was put: TestWireGuardPeers
    expects site1-follower, which is the source of no edge, to have
    site1-router as its peer. *)
Definition addAdjacent (m : AdjacencyMap) (source target : string) : AdjacencyMap :=
  if bool_decide (target ∈ adjacents m source) then m
  else <[source := adjacents m source ++ [target]]> m.

Definition adjacencyOf (g : Graph) : AdjacencyMap :=
  foldl (fun m '(source, target) =>
           addAdjacent (addAdjacent m source target) target source)
        (list_to_map ((fun n => (ID n, [])) <$> vertices g))
        (edges g).

Definition allowAllFilterGraph (g : Graph) (forNode : string) : Result AdjacencyMap :=
  ROk (adjacencyOf g).

End Svcutil.

(* ===================================================================== *)
(** ** Network ACLs and routes (package networking)                       *)
(* ===================================================================== *)
Module Networking.

(** [strings.Split(s, sep)] and [strings.Join(elems, sep)] for a separator
    of one character, which is how every call site uses them ([","]). *)
Fixpoint Split (s : string) (sep : ascii) : list string :=
  match s with
  | EmptyString => [EmptyString]
  | String c rest =>
      if bool_decide (c = sep) then EmptyString :: Split rest sep
      else
        match Split rest sep with
        | first :: others => String c first :: others
        | [] => [String c EmptyString]
        end
  end.

Fixpoint Join (elems : list string) (sep : ascii) : string :=
  match elems with
  | [] => EmptyString
  | [e] => e
  | e :: rest => e +:+ String sep (Join rest sep)
  end.

Definition comma : ascii := ","%char.

(** [strings.ContainsRune(s, c)] for a one-byte rune. *)
Fixpoint ContainsRune (s : string) (c : ascii) : bool :=
  match s with
  | EmptyString => false
  | String x rest => if bool_decide (x = c) then true else ContainsRune rest c
  end.

(** Go's [error]: the two sentinels of the package, or a formatted one. *)
Inductive error :=
| ErrACLNotFound
| ErrRouteNotFound
| Errorf (msg : string).

Definition Error_ (e : error) : string :=
  match e with
  | ErrACLNotFound => "network acl not found"
  | ErrRouteNotFound => "route not found"
  | Errorf msg => msg
  end.

Definition BootstrapNodesNetworkACLName : string := "bootstrap-nodes".

Definition IsSystemNetworkACL (name : string) : bool :=
  bool_decide (name = BootstrapNodesNetworkACLName).

(** [v1.NetworkACL] and [v1.Route]. *)
Record NetworkACL := mkNetworkACL {
  Name : string;
  Priority : Z;
  Action : Z;
  SourceNodes : list string;
  DestinationNodes : list string;
  SourceCidrs : list string;
  DestinationCidrs : list string;
  Protocols : list string;
  Ports : list Z;
}.

Record Route := mkRoute {
  RouteName : string;
  Nodes : list string;
  RouteDestinationCidrs : list string;
  NextHopNodes : list string;
}.

(** The rows of the raftdb tables; a [sql.NullString] is an [option]. *)
Record NetworkAclRow := mkAclRow {
  AclName : string;
  AclPriority : Z;
  AclAction : Z;
  SrcNodeIds : option string;
  DstNodeIds : option string;
  SrcCidrs : option string;
  DstCidrs : option string;
  AclProtocols : option string;
  AclPorts : option string;
  AclCreatedAt : Z;
  AclUpdatedAt : Z;
}.

Record NetworkRouteRow := mkRouteRow {
  RowName : string;
  RowNodes : string;
  RowDstCidrs : string;
  NextHops : option string;
  RouteCreatedAt : Z;
  RouteUpdatedAt : Z;
}.

(** The raft database behind [store.DB()] and [store.ReadDB()]: the two
    tables keyed by name. The generated queries of package raftdb are
    modelled as keyed writes, reads and deletes; [read_fault] and
    [write_fault] carry the error of the driver, if any. *)
Record DB := mkDB {
  network_acls : gmap string NetworkAclRow;
  network_routes : gmap string NetworkRouteRow;
  read_fault : option string;
  write_fault : option string;
}.

Definition raftdb_PutNetworkACL (db : DB) (row : NetworkAclRow) : DB * option string :=
  match write_fault db with
  | Some e => (db, Some e)
  | None =>
      ({| network_acls := <[AclName row := row]> (network_acls db);
          network_routes := network_routes db;
          read_fault := read_fault db; write_fault := write_fault db |}, None)
  end.

Definition raftdb_DeleteNetworkACL (db : DB) (name : string) : DB * option string :=
  match write_fault db with
  | Some e => (db, Some e)
  | None =>
      ({| network_acls := delete name (network_acls db);
          network_routes := network_routes db;
          read_fault := read_fault db; write_fault := write_fault db |}, None)
  end.

Definition raftdb_PutNetworkRoute (db : DB) (row : NetworkRouteRow) : DB * option string :=
  match write_fault db with
  | Some e => (db, Some e)
  | None =>
      ({| network_acls := network_acls db;
          network_routes := <[RowName row := row]> (network_routes db);
          read_fault := read_fault db; write_fault := write_fault db |}, None)
  end.

Inductive QueryError := ErrNoRows | ErrOther (msg : string).

Definition raftdb_GetNetworkRoute (db : DB) (name : string) : NetworkRouteRow + QueryError :=
  match read_fault db with
  | Some e => inr (ErrOther e)
  | None =>
      match network_routes db !! name with
      | Some row =>
          (* the row selected by its name carries that name *)
          inl {| RowName := name; RowNodes := RowNodes row;
                 RowDstCidrs := RowDstCidrs row; NextHops := NextHops row;
                 RouteCreatedAt := RouteCreatedAt row;
                 RouteUpdatedAt := RouteUpdatedAt row |}
      | None => inr ErrNoRows
      end
  end.

Definition nullJoin (elems : list string) : option string :=
  if bool_decide (0 < length elems)%nat then Some (Join elems comma) else None.

(** [PutNetworkACL]; [now] is [time.Now().UTC()]. *)
Definition PutNetworkACL (now : Z) (db : DB) (acl : NetworkACL) : DB * option error :=
  if IsSystemNetworkACL (Name acl) then
    (db, Some (Errorf ("cannot update system network acl " +:+ Name acl)))
  else
    let params :=
      {| AclName := Name acl;
         AclPriority := Priority acl;
         AclAction := Action acl;
         SrcNodeIds := nullJoin (SourceNodes acl);
         DstNodeIds := nullJoin (DestinationNodes acl);
         SrcCidrs := nullJoin (SourceCidrs acl);
         DstCidrs := nullJoin (DestinationCidrs acl);
         AclProtocols := nullJoin (Protocols acl);
         AclPorts := nullJoin (pretty <$> Ports acl);
         AclCreatedAt := now;
         AclUpdatedAt := now |} in
    match raftdb_PutNetworkACL db params with
    | (db', Some e) => (db', Some (Errorf ("put network acl: " +:+ e)))
    | (db', None) => (db', None)
    end.

Definition DeleteNetworkACL (db : DB) (name : string) : DB * option error :=
  if IsSystemNetworkACL name then
    (db, Some (Errorf ("cannot delete system network acl " +:+ name)))
  else
    match raftdb_DeleteNetworkACL db name with
    | (db', Some e) => (db', Some (Errorf ("delete network acl: " +:+ e)))
    | (db', None) => (db', None)
    end.

Definition dbRouteToAPIRoute (dbRoute : NetworkRouteRow) : Route :=
  {| RouteName := RowName dbRoute;
     Nodes := Split (RowNodes dbRoute) comma;
     RouteDestinationCidrs := Split (RowDstCidrs dbRoute) comma;
     NextHopNodes :=
       match NextHops dbRoute with
       | Some s => Split s comma
       | None => []
       end |}.

Definition GetRoute (db : DB) (name : string) : Route + error :=
  match raftdb_GetNetworkRoute db name with
  | inr ErrNoRows => inr ErrRouteNotFound
  | inr (ErrOther e) => inr (Errorf ("get network route: " +:+ e))
  | inl route => inl (dbRouteToAPIRoute route)
  end.

Definition PutRoute (now : Z) (db : DB) (route : Route) : DB * option error :=
  let params :=
    {| RowName := RouteName route;
       RowNodes := Join (Nodes route) comma;
       RowDstCidrs := Join (RouteDestinationCidrs route) comma;
       NextHops := nullJoin (NextHopNodes route);
       RouteCreatedAt := now;
       RouteUpdatedAt := now |} in
  match raftdb_PutNetworkRoute db params with
  | (db', Some e) => (db', Some (Errorf ("put network route: " +:+ e)))
  | (db', None) => (db', None)
  end.

(** [for _, node := range route.Nodes { if node == nodeName {...} }] *)
Definition hasNode (nodes : list string) (nodeName : string) : bool :=
  existsb (fun node => bool_decide (node = nodeName)) nodes.

Definition AppendNodeToRoute (now : Z) (db : DB) (routeName nodeName : string)
  : DB * option error :=
  match GetRoute db routeName with
  | inr err => (db, Some (Errorf ("get route: " +:+ Error_ err)))
  | inl route =>
      if hasNode (Nodes route) nodeName then
        (* Node already exists in route. Nothing to do. *)
        (db, None)
      else
        PutRoute now db
          {| RouteName := RouteName route;
             Nodes := Nodes route ++ [nodeName];
             RouteDestinationCidrs := RouteDestinationCidrs route;
             NextHopNodes := NextHopNodes route |}
  end.

(** Go's conversion [int32(x)] of a 64-bit value. *)
Definition int32 (z : Z) : Z := (z + 2 ^ 31) mod 2 ^ 32 - 2 ^ 31.

(** [strconv.ParseUint(s, 10, bitSize)]: a non-empty run of decimal digits
    whose value fits [bitSize] bits; anything else is an error. *)
Definition digitValue (c : ascii) : option N :=
  let n := N_of_ascii c in
  if (48 <=? n)%N && (n <=? 57)%N then Some (n - 48)%N else None.

Fixpoint parseDigits (s : string) (acc : N) : option N :=
  match s with
  | EmptyString => Some acc
  | String c rest =>
      match digitValue c with
      | Some d => parseDigits rest (10 * acc + d)%N
      | None => None
      end
  end.

Definition ParseUint (s : string) (bitSize : Z) : option Z :=
  match s with
  | EmptyString => None
  | _ =>
      match parseDigits s 0 with
      | Some n => if Z.of_N n <? 2 ^ bitSize then Some (Z.of_N n) else None
      | None => None
      end
  end.

(** [if col.Valid { return strings.Split(col.String, ",") }; return nil] *)
Definition splitNull (col : option string) : list string :=
  match col with
  | Some s => Split s comma
  | None => []
  end.

Definition dbACLToAPIACL (dbACL : NetworkAclRow) : NetworkACL :=
  {| Name := AclName dbACL;
     Priority := int32 (AclPriority dbACL);
     Action := int32 (AclAction dbACL);
     SourceNodes := splitNull (SrcNodeIds dbACL);
     DestinationNodes := splitNull (DstNodeIds dbACL);
     SourceCidrs := splitNull (SrcCidrs dbACL);
     DestinationCidrs := splitNull (DstCidrs dbACL);
     Protocols := splitNull (AclProtocols dbACL);
     Ports :=
       match AclPorts dbACL with
       | Some s =>
           (* a bad port got into the database somehow, just skip it *)
           omap (fun port => ParseUint port 32) (Split s comma)
       | None => []
       end |}.

Definition raftdb_GetNetworkACL (db : DB) (name : string) : NetworkAclRow + QueryError :=
  match read_fault db with
  | Some e => inr (ErrOther e)
  | None =>
      match network_acls db !! name with
      | Some row =>
          (* the row selected by its name carries that name *)
          inl {| AclName := name; AclPriority := AclPriority row;
                 AclAction := AclAction row; SrcNodeIds := SrcNodeIds row;
                 DstNodeIds := DstNodeIds row; SrcCidrs := SrcCidrs row;
                 DstCidrs := DstCidrs row; AclProtocols := AclProtocols row;
                 AclPorts := AclPorts row; AclCreatedAt := AclCreatedAt row;
                 AclUpdatedAt := AclUpdatedAt row |}
      | None => inr ErrNoRows
      end
  end.

Definition GetNetworkACL (db : DB) (name : string) : NetworkACL + error :=
  match raftdb_GetNetworkACL db name with
  | inr ErrNoRows => inr ErrACLNotFound
  | inr (ErrOther e) => inr (Errorf ("get network acl: " +:+ e))
  | inl acl => inl (dbACLToAPIACL acl)
  end.

Definition raftdb_DeleteNetworkRoute (db : DB) (name : string) : DB * option string :=
  match write_fault db with
  | Some e => (db, Some e)
  | None =>
      ({| network_acls := network_acls db;
          network_routes := delete name (network_routes db);
          read_fault := read_fault db; write_fault := write_fault db |}, None)
  end.

Definition DeleteRoute (db : DB) (name : string) : DB * option error :=
  match raftdb_DeleteNetworkRoute db name with
  | (db', Some e) => (db', Some (Errorf ("delete network route: " +:+ e)))
  | (db', None) => (db', None)
  end.

(** A text without the separator of the stored lists. *)
Definition commaFree (s : string) : Prop := ContainsRune s comma = false.

(** The ranges of the Go types of the fields of an ACL. *)
Definition is_int32 (z : Z) : Prop := - 2 ^ 31 <= z < 2 ^ 31.
Definition is_uint32 (z : Z) : Prop := 0 <= z < 2 ^ 32.

(** The selectors of an ACL that PutNetworkACL can store without loss. *)
Definition storable (acl : NetworkACL) : Prop :=
  is_int32 (Priority acl) /\ is_int32 (Action acl)
  /\ Forall commaFree (SourceNodes acl) /\ Forall commaFree (DestinationNodes acl)
  /\ Forall commaFree (SourceCidrs acl) /\ Forall commaFree (DestinationCidrs acl)
  /\ Forall commaFree (Protocols acl) /\ Forall is_uint32 (Ports acl).

(** A list column that is always written (never NULL): the empty list comes
    back as the list of one empty text. *)
Definition readBack (l : list string) : list string :=
  match l with
  | [] => [EmptyString]
  | _ => l
  end.

End Networking.

(* ===================================================================== *)
(** ** Bootstrapping the mesh database (package storage)                  *)
(* ===================================================================== *)
Module Storage.

Import Svcutil (Prefix).

Definition DefaultMeshDomain : string := "webmesh.internal".
Definition DefaultIPv4Network : string := "172.16.0.0/12".
Definition DefaultNetworkPolicy : string := "accept".
Definition DefaultMeshAdmin : string := "admin".

(** [math.MaxInt32] and [math.MinInt32]. *)
Definition MaxInt32 : Z := 2 ^ 31 - 1.
Definition MinInt32 : Z := - 2 ^ 31.

Record BootstrapOptions := mkOptions {
  MeshDomain : string;
  IPv4Network : string;
  Admin : string;
  OptDefaultNetworkPolicy : string;
  BootstrapNodes : list string;
  Voters : list string;
  DisableRBAC : bool;
}.

Record BootstrapResults := mkResults {
  NetworkV4 : Prefix;
  NetworkV6 : Prefix;
  ResMeshDomain : string;
}.

(** The zero value of [netip.Prefix], which a fresh [BootstrapResults] holds. *)
Definition zeroPrefix : Prefix := Svcutil.mkPrefix Svcutil.FamZero 0 0.

(** Go's [error], as far as Bootstrap tells errors apart. *)
Inductive error :=
| ErrKeyNotFound
| ErrAlreadyBootstrapped
| Errorf (msg : string).

Definition Error_ (e : error) : string :=
  match e with
  | ErrKeyNotFound => "key not found"
  | ErrAlreadyBootstrapped => "already bootstrapped"
  | Errorf msg => msg
  end.

Definition IsKeyNotFound (e : error) : bool :=
  match e with ErrKeyNotFound => true | _ => false end.

(** [fmt.Errorf(ctx + ": %w", err)] *)
Definition wrap (ctx : string) (e : error) : error :=
  Errorf (ctx +:+ ": " +:+ Error_ e).

(** The API objects Bootstrap writes. *)
Inductive RuleResource := RESOURCE_ALL | RESOURCE_VOTES.
Inductive RuleVerb := VERB_ALL | VERB_PUT.
Inductive SubjectType := SUBJECT_NODE | SUBJECT_USER | SUBJECT_GROUP | SUBJECT_ALL.
Inductive ACLAction := ACTION_UNKNOWN | ACTION_ACCEPT | ACTION_DENY.

Record Rule := mkRule { Resources : list RuleResource; Verbs : list RuleVerb }.
Record Role := mkRole { RoleName : string; Rules : list Rule }.
Record Subject := mkSubject { SubjectName : string; Type_ : SubjectType }.
Record RoleBinding := mkRoleBinding {
  BindingName : string; RoleRef : string; Subjects : list Subject }.
Record Group := mkGroup { GroupName : string; GroupSubjects : list Subject }.
Record NetworkACL := mkNetworkACL {
  Name : string;
  Priority : Z;
  SourceNodes : list string;
  DestinationNodes : list string;
  SourceCIDRs : list string;
  DestinationCIDRs : list string;
  Action : ACLAction;
}.

(** The storage operations Bootstrap performs; each may fail in the
    storage layer. *)
Inductive Op :=
| OpGetMeshDomain | OpGetIPv4Prefix | OpGetIPv6Prefix
| OpSetMeshDomain | OpSetIPv4Prefix | OpSetIPv6Prefix
| OpPutRole | OpPutRoleBinding | OpPutGroup | OpSetEnabled
| OpPutNetworkACL.

(** Modelled from the spec: the implementations behind the [MeshDB]
    interface ([MeshState()], [RBAC()], [Networking()]) are not under src/.
    Following sections 2 and 6 of the spec, they are typed repositories in
    disjoint namespaces over one backing store, each entry addressable by its
    name, with put semantics; a read of an absent key reports key-not-found.
    [fault] gives the storage error of an operation, if it has one; a failed
    write changes nothing. *)
Record MeshDB := mkMeshDB {
  meshDomain : option string;
  ipv4Prefix : option Prefix;
  ipv6Prefix : option Prefix;
  roles : gmap string Role;
  rolebindings : gmap string RoleBinding;
  groups : gmap string Group;
  rbacDisabled : bool;
  networkACLs : gmap string NetworkACL;
  fault : Op -> option string;
}.

Definition readKey {A} (db : MeshDB) (op : Op) (v : option A) : A + error :=
  match fault db op with
  | Some e => inr (Errorf e)
  | None =>
      match v with
      | Some a => inl a
      | None => inr ErrKeyNotFound
      end
  end.

Definition GetMeshDomain (db : MeshDB) : string + error :=
  readKey db OpGetMeshDomain (meshDomain db).
Definition GetIPv4Prefix (db : MeshDB) : Prefix + error :=
  readKey db OpGetIPv4Prefix (ipv4Prefix db).
Definition GetIPv6Prefix (db : MeshDB) : Prefix + error :=
  readKey db OpGetIPv6Prefix (ipv6Prefix db).

Definition write (db : MeshDB) (op : Op) (db' : MeshDB) : MeshDB * option error :=
  match fault db op with
  | Some e => (db, Some (Errorf e))
  | None => (db', None)
  end.

Definition SetMeshDomain (db : MeshDB) (d : string) :=
  write db OpSetMeshDomain
    (mkMeshDB (Some d) (ipv4Prefix db) (ipv6Prefix db) (roles db) (rolebindings db)
       (groups db) (rbacDisabled db) (networkACLs db) (fault db)).
Definition SetIPv4Prefix (db : MeshDB) (p : Prefix) :=
  write db OpSetIPv4Prefix
    (mkMeshDB (meshDomain db) (Some p) (ipv6Prefix db) (roles db) (rolebindings db)
       (groups db) (rbacDisabled db) (networkACLs db) (fault db)).
Definition SetIPv6Prefix (db : MeshDB) (p : Prefix) :=
  write db OpSetIPv6Prefix
    (mkMeshDB (meshDomain db) (ipv4Prefix db) (Some p) (roles db) (rolebindings db)
       (groups db) (rbacDisabled db) (networkACLs db) (fault db)).
Definition PutRole (db : MeshDB) (r : Role) :=
  write db OpPutRole
    (mkMeshDB (meshDomain db) (ipv4Prefix db) (ipv6Prefix db)
       (<[RoleName r := r]> (roles db)) (rolebindings db)
       (groups db) (rbacDisabled db) (networkACLs db) (fault db)).
Definition PutRoleBinding (db : MeshDB) (rb : RoleBinding) :=
  write db OpPutRoleBinding
    (mkMeshDB (meshDomain db) (ipv4Prefix db) (ipv6Prefix db) (roles db)
       (<[BindingName rb := rb]> (rolebindings db))
       (groups db) (rbacDisabled db) (networkACLs db) (fault db)).
Definition PutGroup (db : MeshDB) (g : Group) :=
  write db OpPutGroup
    (mkMeshDB (meshDomain db) (ipv4Prefix db) (ipv6Prefix db) (roles db)
       (rolebindings db) (<[GroupName g := g]> (groups db))
       (rbacDisabled db) (networkACLs db) (fault db)).
Definition SetEnabled (db : MeshDB) (enabled : bool) :=
  write db OpSetEnabled
    (mkMeshDB (meshDomain db) (ipv4Prefix db) (ipv6Prefix db) (roles db)
       (rolebindings db) (groups db) (negb enabled) (networkACLs db) (fault db)).
Definition PutNetworkACL (db : MeshDB) (acl : NetworkACL) :=
  write db OpPutNetworkACL
    (mkMeshDB (meshDomain db) (ipv4Prefix db) (ipv6Prefix db) (roles db)
       (rolebindings db) (groups db) (rbacDisabled db)
       (<[Name acl := acl]> (networkACLs db)) (fault db)).

(** What the existence check and the early return of Bootstrap read. *)
Definition meshStateOf (db : MeshDB)
  : option string * option Prefix * option Prefix * (Op -> option string) :=
  (meshDomain db, ipv4Prefix db, ipv6Prefix db, fault db).

(** The names of the system roles, groups and ACL: constants of the package
    declared outside src/. *)
Record SystemNames := mkNames {
  MeshAdminRole : string;
  MeshAdminRoleBinding : string;
  VotersRole : string;
  VotersGroup : string;
  BootstrapVotersRoleBinding : string;
  BootstrapNodesNetworkACLName : string;
}.

(** A write followed by the rest of the function: [err = op(...);
    if err != nil { err = fmt.Errorf(ctx, err); return }]. *)
Definition andThen (step : MeshDB * option error) (ctx : string)
    (k : MeshDB -> MeshDB * option error) : MeshDB * option error :=
  match step with
  | (db, Some e) => (db, Some (wrap ctx e))
  | (db, None) => k db
  end.

Section WithEnvironment.

Variable names : SystemNames.
(** [netip.ParsePrefix] and this call's outcome of [netutil.GenerateULA]. *)
Variable ParsePrefix : string -> Prefix + string.
Variable GenerateULA : Prefix + string.

Definition nodeSubject (id : string) : Subject :=
  {| SubjectName := id; Type_ := SUBJECT_NODE |}.

(** The subjects of the voters group: the admin, the bootstrap nodes and
    the additional voters. *)
Definition votersSubjects (opts : BootstrapOptions) : list Subject :=
  [nodeSubject (Admin opts)] ++ (nodeSubject <$> BootstrapNodes opts)
    ++ (nodeSubject <$> Voters opts).

(** Bootstrap after the existence check: "Initialize the network state",
    "Initialize the RBAC system" and "Initialize the Networking system". *)
Definition seed (db : MeshDB) (opts : BootstrapOptions) (results : BootstrapResults)
  : MeshDB * option error :=
  andThen (SetIPv6Prefix db (NetworkV6 results)) "set IPv6 prefix to db" (fun db =>
  andThen (SetIPv4Prefix db (NetworkV4 results)) "set IPv4 prefix to db" (fun db =>
  andThen (SetMeshDomain db (MeshDomain opts)) "set mesh domain to db" (fun db =>
  andThen (PutRole db
             {| RoleName := MeshAdminRole names;
                Rules := [ {| Resources := [RESOURCE_ALL]; Verbs := [VERB_ALL] |} ] |})
          "create admin role" (fun db =>
  andThen (PutRoleBinding db
             {| BindingName := MeshAdminRole names;
                RoleRef := MeshAdminRoleBinding names;
                Subjects := [ {| SubjectName := Admin opts; Type_ := SUBJECT_NODE |};
                              {| SubjectName := Admin opts; Type_ := SUBJECT_USER |} ] |})
          "create admin role binding" (fun db =>
  andThen (PutRole db
             {| RoleName := VotersRole names;
                Rules := [ {| Resources := [RESOURCE_VOTES]; Verbs := [VERB_PUT] |} ] |})
          "create voters role" (fun db =>
  andThen (PutGroup db
             {| GroupName := VotersGroup names;
                GroupSubjects := votersSubjects opts |})
          "create voters group" (fun db =>
  andThen (PutRoleBinding db
             {| BindingName := BootstrapVotersRoleBinding names;
                RoleRef := VotersRole names;
                Subjects := [ {| SubjectName := VotersGroup names;
                                 Type_ := SUBJECT_GROUP |} ] |})
          "create voters role binding" (fun db =>
  andThen (if DisableRBAC opts then SetEnabled db false else (db, None))
          "disable rbac" (fun db =>
  andThen (PutNetworkACL db
             {| Name := BootstrapNodesNetworkACLName names;
                Priority := MaxInt32;
                SourceNodes := ["group:" +:+ VotersGroup names];
                DestinationNodes := ["group:" +:+ VotersGroup names];
                SourceCIDRs := [];
                DestinationCIDRs := [];
                Action := ACTION_ACCEPT |})
          "create bootstrap nodes network acl" (fun db =>
  andThen (if bool_decide (OptDefaultNetworkPolicy opts = "accept") then
             PutNetworkACL db
               {| Name := "default-accept";
                  Priority := MinInt32;
                  SourceNodes := ["*"];
                  DestinationNodes := ["*"];
                  SourceCIDRs := ["*"];
                  DestinationCIDRs := ["*"];
                  Action := ACTION_ACCEPT |}
           else (db, None))
          "create default accept network ACL" (fun db =>
  (db, None)))))))))))).

(** The defaults Bootstrap fills into its options. *)
Definition withDefaults (opts : BootstrapOptions) : BootstrapOptions :=
  {| MeshDomain := if bool_decide (MeshDomain opts = "") then DefaultMeshDomain
                   else MeshDomain opts;
     IPv4Network := if bool_decide (IPv4Network opts = "") then DefaultIPv4Network
                    else IPv4Network opts;
     Admin := if bool_decide (Admin opts = "") then DefaultMeshAdmin else Admin opts;
     OptDefaultNetworkPolicy :=
       if bool_decide (OptDefaultNetworkPolicy opts = "") then DefaultNetworkPolicy
       else OptDefaultNetworkPolicy opts;
     BootstrapNodes := BootstrapNodes opts;
     Voters := Voters opts;
     DisableRBAC := DisableRBAC opts |}.

(** [Bootstrap]: the database after the call, the named results as they
    stand at the return, and the error. *)
Definition Bootstrap (db : MeshDB) (opts : BootstrapOptions)
  : MeshDB * BootstrapResults * option error :=
  let opts := withDefaults opts in
  let results := {| NetworkV4 := zeroPrefix; NetworkV6 := zeroPrefix;
                    ResMeshDomain := MeshDomain opts |} in
  (* Check if there is data already before we start. *)
  match GetMeshDomain db with
  | inr err =>
      if negb (IsKeyNotFound err) then
        (db, results, Some (wrap "get mesh domain" err))
      else
        match ParsePrefix (IPv4Network opts) with
        | inr e => (db, results, Some (Errorf ("parse IPv4 network: " +:+ e)))
        | inl v4 =>
            let results := {| NetworkV4 := v4; NetworkV6 := NetworkV6 results;
                              ResMeshDomain := ResMeshDomain results |} in
            match GenerateULA with
            | inr e => (db, results, Some (Errorf ("generate ULA: " +:+ e)))
            | inl v6 =>
                let results := {| NetworkV4 := NetworkV4 results; NetworkV6 := v6;
                                  ResMeshDomain := ResMeshDomain results |} in
                let '(db, err) := seed db opts results in
                (db, results, err)
            end
        end
  | inl _ =>
      (* Try to fetch the current prefixes and mesh domain *)
      match GetIPv4Prefix db with
      | inr err => (db, results, Some (wrap "get IPv4 prefix" err))
      | inl v4 =>
          let results := {| NetworkV4 := v4; NetworkV6 := NetworkV6 results;
                            ResMeshDomain := ResMeshDomain results |} in
          match GetIPv6Prefix db with
          | inr err => (db, results, Some (wrap "get IPv6 prefix" err))
          | inl v6 =>
              let results := {| NetworkV4 := NetworkV4 results; NetworkV6 := v6;
                                ResMeshDomain := ResMeshDomain results |} in
              match GetMeshDomain db with
              | inr err => (db, results, Some (wrap "get mesh domain" err))
              | inl domain =>
                  (db,
                   {| NetworkV4 := NetworkV4 results; NetworkV6 := NetworkV6 results;
                      ResMeshDomain := domain |},
                   Some ErrAlreadyBootstrapped)
              end
          end
      end
  end.

End WithEnvironment.

End Storage.

(* ===================================================================== *)
(** ** Role bindings (package rbac)                                       *)
(* ===================================================================== *)
Module Rbac.

Import Networking (Split, Join, comma, nullJoin, splitNull, QueryError, ErrNoRows, ErrOther).

(** [v1.SubjectType]; a protobuf enum is open, any other number can be
    received and falls through the [switch]. *)
Inductive SubjectType :=
| SUBJECT_NODE | SUBJECT_USER | SUBJECT_GROUP | SUBJECT_ALL
| SUBJECT_OTHER (number : Z).

#[global] Instance SubjectType_eq_dec : EqDecision SubjectType.
Proof. solve_decision. Defined.

Record Subject := mkSubject {
  SubjectName : string;
  Type_ : SubjectType;
}.

Record RoleBinding := mkRoleBinding {
  Name : string;
  Role : string;
  Subjects : list Subject;
}.

(** The row of the raftdb table role_bindings. *)
Record RoleBindingRow := mkRow {
  RowName : string;
  RoleName : string;
  NodeIds : option string;
  UserNames : option string;
  GroupNames : option string;
  CreatedAt : Z;
  UpdatedAt : Z;
}.

Record DB := mkDB {
  role_bindings : gmap string RoleBindingRow;
  read_fault : option string;
  write_fault : option string;
}.

Inductive error :=
| ErrRoleNotFound
| ErrRoleBindingNotFound
| Errorf (msg : string).

Definition Error_ (e : error) : string :=
  match e with
  | ErrRoleNotFound => "role not found"
  | ErrRoleBindingNotFound => "rolebinding not found"
  | Errorf msg => msg
  end.

Definition raftdb_PutRoleBinding (db : DB) (row : RoleBindingRow) : DB * option string :=
  match write_fault db with
  | Some e => (db, Some e)
  | None =>
      ({| role_bindings := <[RowName row := row]> (role_bindings db);
          read_fault := read_fault db; write_fault := write_fault db |}, None)
  end.

Definition raftdb_GetRoleBinding (db : DB) (name : string) : RoleBindingRow + QueryError :=
  match read_fault db with
  | Some e => inr (ErrOther e)
  | None =>
      match role_bindings db !! name with
      | Some row =>
          (* the row selected by its name carries that name *)
          inl {| RowName := name; RoleName := RoleName row; NodeIds := NodeIds row;
                 UserNames := UserNames row; GroupNames := GroupNames row;
                 CreatedAt := CreatedAt row; UpdatedAt := UpdatedAt row |}
      | None => inr ErrNoRows
      end
  end.

Definition raftdb_DeleteRoleBinding (db : DB) (name : string) : DB * option string :=
  match write_fault db with
  | Some e => (db, Some e)
  | None =>
      ({| role_bindings := delete name (role_bindings db);
          read_fault := read_fault db; write_fault := write_fault db |}, None)
  end.

(** One turn of the loop over the subjects of PutRoleBinding: the three
    lists [users], [groups], [nodes]. *)
Definition addSubject (acc : list string * list string * list string) (subject : Subject)
  : list string * list string * list string :=
  let '(users, groups, nodes) := acc in
  match Type_ subject with
  | SUBJECT_NODE => (users, groups, nodes ++ [SubjectName subject])
  | SUBJECT_USER => (users ++ [SubjectName subject], groups, nodes)
  | SUBJECT_GROUP => (users, groups ++ [SubjectName subject], nodes)
  | SUBJECT_ALL =>
      (users ++ [SubjectName subject], groups ++ [SubjectName subject],
       nodes ++ [SubjectName subject])
  | SUBJECT_OTHER _ => (users, groups, nodes)
  end.

(** [PutRoleBinding]; [now] is [time.Now().UTC()]. *)
Definition PutRoleBinding (now : Z) (db : DB) (rolebinding : RoleBinding)
  : DB * option error :=
  let '(users, groups, nodes) := foldl addSubject ([], [], []) (Subjects rolebinding) in
  let params :=
    {| RowName := Name rolebinding;
       RoleName := Role rolebinding;
       NodeIds := nullJoin nodes;
       UserNames := nullJoin users;
       GroupNames := nullJoin groups;
       CreatedAt := now;
       UpdatedAt := now |} in
  match raftdb_PutRoleBinding db params with
  | (db', Some e) => (db', Some (Errorf ("put db rolebinding: " +:+ e)))
  | (db', None) => (db', None)
  end.

Definition subjectsOf (ty : SubjectType) (col : option string) : list Subject :=
  (fun name => {| SubjectName := name; Type_ := ty |}) <$> splitNull col.

Definition dbRoleBindingToAPIRoleBinding (dbRoleBinding : RoleBindingRow) : RoleBinding :=
  {| Name := RowName dbRoleBinding;
     Role := RoleName dbRoleBinding;
     Subjects := subjectsOf SUBJECT_USER (UserNames dbRoleBinding)
                 ++ subjectsOf SUBJECT_GROUP (GroupNames dbRoleBinding)
                 ++ subjectsOf SUBJECT_NODE (NodeIds dbRoleBinding) |}.

Definition GetRoleBinding (db : DB) (name : string) : RoleBinding + error :=
  match raftdb_GetRoleBinding db name with
  | inr ErrNoRows => inr ErrRoleBindingNotFound
  | inr (ErrOther e) => inr (Errorf ("get db rolebinding: " +:+ e))
  | inl rb => inl (dbRoleBindingToAPIRoleBinding rb)
  end.

Definition DeleteRoleBinding (db : DB) (name : string) : DB * option error :=
  match raftdb_DeleteRoleBinding db name with
  | (db', Some e) => (db', Some (Errorf ("delete db rolebinding: " +:+ e)))
  | (db', None) => (db', None)
  end.

(** The names a binding gives to one kind of subject: those of the subjects
    of that kind and of the subjects for all kinds, in their order. *)
Definition namesFor (ty : SubjectType) (subjects : list Subject) : list string :=
  SubjectName <$>
    filter (fun subject => Type_ subject = ty \/ Type_ subject = SUBJECT_ALL) subjects.

(** The subjects of a binding as a reader of the database sees them. *)
Definition flattened (subjects : list Subject) : list Subject :=
  ((fun name => {| SubjectName := name; Type_ := SUBJECT_USER |})
     <$> namesFor SUBJECT_USER subjects)
  ++ ((fun name => {| SubjectName := name; Type_ := SUBJECT_GROUP |})
        <$> namesFor SUBJECT_GROUP subjects)
  ++ ((fun name => {| SubjectName := name; Type_ := SUBJECT_NODE |})
        <$> namesFor SUBJECT_NODE subjects).

End Rbac.

(* ===================================================================== *)
(** ** Connection profiles (package daemoncmd)                            *)
(* ===================================================================== *)
Module Daemoncmd.

Definition profilesPrefix : string := "profiles".

(** [bytes.Join(s, sep)]. *)
Fixpoint bytesJoin (s : list string) (sep : string) : string :=
  match s with
  | [] => EmptyString
  | [e] => e
  | e :: rest => e +:+ sep +:+ bytesJoin rest sep
  end.

(** [s[n:]] for [n <= len(s)]. *)
Fixpoint dropBytes (n : nat) (s : string) : string :=
  match n, s with
  | O, _ => s
  | S n, String _ rest => dropBytes n rest
  | S _, EmptyString => EmptyString
  end.

(** [bytes.TrimPrefix(s, prefix)]. *)
Definition TrimPrefix (s prefix : string) : string :=
  if String.prefix prefix s then dropBytes (String.length prefix) s else s.

(** [ProfileID.StorageKey] and [ProfileIDFromKey]; a [ProfileID] is its text. *)
Definition StorageKey (id : string) : string := bytesJoin [profilesPrefix; id] "/".

Definition ProfileIDFromKey (key : string) : string :=
  TrimPrefix key (profilesPrefix +:+ "/").

End Daemoncmd.

(* ===================================================================== *)
(** ** Storage keys of the peer store (pkg/embed/peerstore/prefixes.go)   *)
(* ===================================================================== *)
Module Peerstore.

Import Daemoncmd (dropBytes).

Definition PrivateKeys : string := "/private-key".
Definition PublicKeys : string := "/public-key".
Definition Multiaddrs : string := "/multiaddrs".
Definition Protocols : string := "/protocols".
Definition Observations : string := "/observations".

(** [strings.Contains(s, substr)]. *)
Fixpoint Contains (s substr : string) : bool :=
  if String.prefix substr s then true
  else
    match s with
    | EmptyString => false
    | String _ rest => Contains rest substr
    end.

(** [StorageKey.PathFor]; [peer] is the text [peer.String()] of the ID. *)
Definition PathFor (p : string) (peer : string) : string := "/" +:+ peer +:+ p.

Definition KeyFor (p : string) (value : string) : string := p +:+ "/" +:+ value.

(** The offset at which [Trim] cuts. *)
Definition cut (p : string) : nat :=
  if Contains p Multiaddrs || Contains p Protocols
  then S (String.length p)   (* we need to trim the leading slash *)
  else String.length p.

(** [StorageKey.Trim]: [key[len:]]; [None] is the run-time panic of a slice
    bound out of range. *)
Definition Trim (p : string) (key : string) : option string :=
  if (cut p <=? String.length key)%nat then Some (dropBytes (cut p) key) else None.

End Peerstore.

(* ===================================================================== *)
(** ** Identifiers (package types)                                        *)
(* ===================================================================== *)
Module Types.

Import Networking (ContainsRune).

(** The characters that are not allowed in node IDs. *)
Definition InvalidIDChars : list ascii :=
  [ "/"%char; "\"%char; ":"%char; "*"%char; "?"%char; ascii_of_nat 34; "'"%char;
    "<"%char; ">"%char; "|"%char; ","%char ].

Definition ReservedNodeIDs : list string :=
  ["self"; "local"; "localhost"; "leader"; "voters"; "observers"].

Section WithUTF8.

(** [strings.ToValidUTF8] of the Go library. *)
Variable ToValidUTF8 : string -> string -> string.

Definition IsValidID (id : string) : bool :=
  if bool_decide (String.length id = 0%nat) then false
  else if negb (bool_decide (ToValidUTF8 id "/" = id)) then false
  else forallb (fun c => negb (ContainsRune id c)) InvalidIDChars.

Definition IsValidNodeID (id : string) : bool :=
  if negb (IsValidID id) then false
  else negb (bool_decide (id ∈ ReservedNodeIDs)).

(** [NodeID.IsValid] *)
Definition IsValid (id : string) : bool :=
  negb (bool_decide (id = "")) && IsValidNodeID id.

End WithUTF8.

End Types.

(* ===================================================================== *)
(** ** The admin service (package admin)                                  *)
(* ===================================================================== *)
Module Admin.

(** [codes.Code], the codes the handler returns. *)
Inductive Code := Unavailable | InvalidArgument | PermissionDenied | Internal.

(** [status.Error(code, msg)] *)
Record Status := mkStatus {
  StatusCode : Code;
  Message : string;
}.

Section WithServer.

(** [s.store.IsLeader()], and [s.rbacEval.Evaluate(ctx, action)] for the
    caller of the context and the action of deleting the role binding of
    the given name: the verdict and the error. *)
Variable IsLeader : bool.
Variable Evaluate : string -> bool * option string.

Definition DeleteRoleBinding (db : Rbac.DB) (rbName : string)
  : Rbac.DB * option Status :=
  if negb IsLeader then
    (db, Some (mkStatus Unavailable "not the leader"))
  else if bool_decide (rbName = "") then
    (db, Some (mkStatus InvalidArgument "name is required"))
  else
    match Evaluate rbName with
    | (false, _) =>
        (db, Some (mkStatus PermissionDenied
                     "caller does not have permission to delete rolebinding"))
    | (true, Some err) => (db, Some (mkStatus Internal err))
    | (true, None) =>
        match Rbac.DeleteRoleBinding db rbName with
        | (db', Some err) => (db', Some (mkStatus Internal (Rbac.Error_ err)))
        | (db', None) => (db', None)
        end
    end.

End WithServer.

End Admin.

(* ===================================================================== *)
(** ** Concrete instances used to run the definitions                     *)
(* ===================================================================== *)
(* ===================================================================== *)
(** ** The first edges of the mesh (package meshnode)                     *)
(* ===================================================================== *)
Module Meshnode.

(** Modelled from the spec: the Nodes and Edges sub-stores behind [p.Put]
    and [p.PutEdge] are not under src/. Following section 2 of the spec a
    node is kept by its ID and an edge by its (Source, Target) pair, in the
    order they were put; a put can fail in the storage layer, and
    [node_fault] and [edge_fault] carry the error, if any. *)
Record Peers := mkPeers {
  nodes : list string;
  edges : list (string * string);
  node_fault : string -> option string;
  edge_fault : string * string -> option string;
}.

Definition Put (p : Peers) (id : string) : Peers * option string :=
  match node_fault p id with
  | Some e => (p, Some e)
  | None =>
      ({| nodes := nodes p ++ [id]; edges := edges p;
          node_fault := node_fault p; edge_fault := edge_fault p |}, None)
  end.

Definition PutEdge (p : Peers) (source target : string) : Peers * option string :=
  match edge_fault p (source, target) with
  | Some e => (p, Some e)
  | None =>
      ({| nodes := nodes p; edges := edges p ++ [(source, target)];
          node_fault := node_fault p; edge_fault := edge_fault p |}, None)
  end.

(** [err = call; if err != nil { return fmt.Errorf(ctx + ": %w", err) }] *)
Definition andThen (step : Peers * option string) (ctx : string)
    (k : Peers -> Peers * option string) : Peers * option string :=
  match step with
  | (p, Some e) => (p, Some (ctx +:+ ": " +:+ e))
  | (p, None) => k p
  end.

(** "Pre-create slots and edges for the other bootstrap servers." *)
Fixpoint createNodes (nodeID : string) (servers : list string) (p : Peers)
  : Peers * option string :=
  match servers with
  | [] => (p, None)
  | id :: rest =>
      if bool_decide (id = nodeID) then createNodes nodeID rest p
      else andThen (Put p id) "create node" (createNodes nodeID rest)
  end.

(** The inner loop of "Do the loop again for edges": the edge to each
    other server is put twice. *)
Fixpoint createEdgesFor (id : string) (servers : list string) (p : Peers)
  : Peers * option string :=
  match servers with
  | [] => (p, None)
  | peer :: rest =>
      if bool_decide (id = peer) then createEdgesFor id rest p
      else
        andThen (PutEdge p id peer) "create edge" (fun p =>
        andThen (PutEdge p id peer) "create edge" (createEdgesFor id rest))
  end.

Fixpoint createEdges (ids servers : list string) (p : Peers) : Peers * option string :=
  match ids with
  | [] => (p, None)
  | id :: rest =>
      match createEdgesFor id servers p with
      | (p, Some e) => (p, Some e)
      | (p, None) => createEdges rest servers p
      end
  end.

(** "If we have direct-peerings, add them to the db"; [directPeers] are the
    keys of the map in the order [range] yields them. *)
Fixpoint createDirectPeers (nodeID : string) (directPeers : list string) (p : Peers)
  : Peers * option string :=
  match directPeers with
  | [] => (p, None)
  | peer :: rest =>
      if bool_decide (peer = nodeID) then createDirectPeers nodeID rest p
      else
        andThen (Put p peer) "create direct peerings" (fun p =>
        andThen (PutEdge p nodeID peer) "create direct peerings"
          (createDirectPeers nodeID rest))
  end.

(** What a run of the loops has written to the Edges sub-store: edges were
    only added, each from one of [sources] to one of [targets], and none
    from a node to itself. *)
Definition writes (sources targets : list string) (p : Peers)
    (r : Peers * option string) : Prop :=
  exists new,
    edges (fst r) = edges p ++ new
    /\ forall source target, (source, target) ∈ new ->
         source <> target /\ source ∈ sources /\ target ∈ targets.

(** The three loops of [initialBootstrapLeader], one after the other. *)
Definition createTopology (nodeID : string) (servers directPeers : list string)
    (p : Peers) : Peers * option string :=
  match createNodes nodeID servers p with
  | (p, Some e) => (p, Some e)
  | (p, None) =>
      match createEdges (servers ++ [nodeID]) servers p with
      | (p, Some e) => (p, Some e)
      | (p, None) => createDirectPeers nodeID directPeers p
      end
  end.

End Meshnode.

Module SvcutilExample.
Import Svcutil.

Definition p4 (last : Z) : Prefix := mkPrefix Fam4 (2886729728 + last) 32.
Definition p6 (last : Z) : Prefix := mkPrefix Fam6 (0x20010db8 * 2 ^ 96 + last) 128.
Definition lan (third : Z) : Prefix := mkPrefix Fam4 (167772160 + third * 256) 24.

(** A parser and a printer for the handful of prefixes of the examples. *)
Definition ParsePrefix (s : string) : Result Prefix :=
  if bool_decide (s = "10.0.0.0/24") then ROk (lan 0)
  else if bool_decide (s = "10.0.1.0/24") then ROk (lan 1)
  else RErr "netip.ParsePrefix: no '/'".

Definition PrefixString (p : Prefix) : string :=
  match family p with
  | FamZero => "invalid Prefix"
  | Fam4 => "v4:" +:+ pretty (addr p) +:+ "/" +:+ pretty (bits p)
  | Fam6 => "v6:" +:+ pretty (addr p) +:+ "/" +:+ pretty (bits p)
  end.

Definition node (id : string) (last : Z) : Node :=
  {| ID := id; PublicKey := "key-" +:+ id; PrimaryEndpoint := "";
     WireGuardEndpoints := []; ZoneAwarenessID := "";
     PrivateIPv4 := p4 last; NetworkIPv6 := p6 last |}.

(** No routes anywhere, every edge permitted. *)
Definition allowAll : Networking :=
  {| FilterGraph := allowAllFilterGraph; GetRoutesByNode := fun _ => ROk [] |}.

(** A node whose lease holds the same prefix in both address fields. *)
Definition twin : Node :=
  {| ID := "twin"; PublicKey := "key"; PrimaryEndpoint := "";
     WireGuardEndpoints := []; ZoneAwarenessID := "";
     PrivateIPv4 := p4 9; NetworkIPv6 := p4 9 |}.

(** X advertises 10.0.0.0/24, its peer Y advertises nothing. *)
Definition siteRoutes : Networking :=
  {| FilterGraph := allowAllFilterGraph;
     GetRoutesByNode := fun id =>
       if bool_decide (id = "X") then
         ROk [ {| RouteName := "x-lan"; DestinationCidrs := ["10.0.0.0/24"] |} ]
       else ROk [] |}.

Definition siteGraph : Graph :=
  {| vertices := [node "X" 1; node "Y" 2]; edges := [("X", "Y")] |}.

(** The case "simple site-to-site" of TestWireGuardPeers. *)
Definition siteToSite : Graph :=
  {| vertices := [node "site1-router" 1; node "site2-router" 2;
                  node "site1-follower" 3; node "site2-follower" 4];
     edges := [("site1-router", "site2-router"); ("site1-router", "site1-follower");
               ("site2-router", "site1-router"); ("site2-router", "site2-follower")] |}.

(** The [got] map of the test: peer ID to allowed IPs. *)
Definition allowedIpsById (r : Res (list WireGuardPeer)) : list (string * list string) :=
  match r with
  | Ok peers => (fun p => (Id p, AllowedIps p)) <$> peers
  | _ => []
  end.

Definition texts (ps : list Prefix) : list string := PrefixString <$> ps.

(** The chain A — B — C of the relay scenario. *)
Definition chainGraph : Graph :=
  {| vertices := [node "A" 1; node "B" 2; node "C" 3];
     edges := [("A", "B"); ("B", "C")] |}.


(** The peers of a successful call. *)
Definition peersOf (r : Res (list WireGuardPeer)) : list WireGuardPeer :=
  match r with
  | Ok peers => peers
  | _ => []
  end.

(** A node behind NAT that names its public address as primary endpoint. *)
Definition gateway : Node :=
  {| ID := "gw"; PublicKey := "key-gw"; PrimaryEndpoint := "203.0.113.7";
     WireGuardEndpoints := ["10.0.0.5:51820"; "203.0.113.7:51820"];
     ZoneAwarenessID := ""; PrivateIPv4 := p4 7; NetworkIPv6 := p6 7 |}.

Definition gatewayGraph : Graph :=
  {| vertices := [node "n1" 1; gateway]; edges := [("n1", "gw")] |}.

(** An edge to a node that has left the graph. *)
Definition danglingGraph : Graph :=
  {| vertices := [node "A" 1; node "B" 2]; edges := [("A", "B"); ("B", "ghost")] |}.

End SvcutilExample.

Module FsmExample.
Import Fsm.

(** A toy command language: a command is the list of keys it puts; the
    payload is decodable when it is not empty. *)
Definition SubStores := list Byte.byte.
Definition RaftLogEntry := list Byte.byte.

Definition unmarshal (d : list Byte.byte) : RaftLogEntry + string :=
  match d with
  | [] => inr "unexpected end of input"
  | _ => inl d
  end.

Definition snappy (d : list Byte.byte) : list Byte.byte + string :=
  match d with
  | [] => inr "snappy: corrupt input"
  | _ :: rest => inl rest
  end.

Definition dispatch (l : Log) (cmd : RaftLogEntry) (d : SubStores)
  : SubStores * RaftApplyResponse :=
  (d ++ cmd, {| Time := "1ms"; Error := "" |}).

Definition Apply := Fsm.Apply SubStores RaftLogEntry unmarshal unmarshal snappy dispatch "1ms".
Definition ApplyBatch :=
  Fsm.ApplyBatch SubStores RaftLogEntry unmarshal unmarshal snappy dispatch "1ms".
Definition decode := Fsm.decode RaftLogEntry unmarshal unmarshal snappy.

(** A store whose checkpoint is (term 5, index 10). *)
Definition store0 : store SubStores :=
  {| localDB := {| raft_index := Some {| RowTerm := 5; LogIndex := 10 |};
                   read_fault := None; write_fault := None |};
     data := [];
     raftIndex := 10;
     raftLogFormat := RaftLogFormatProtobuf |}.

(** A replayed command of term 3 with an empty, undecodable payload. *)
Definition staleLog : Log :=
  {| Index := 4; Term := 3; Type_ := LogCommand; Data := [] |}.

(** Fresh commands: one decodable, one not. *)
Definition goodLog : Log :=
  {| Index := 11; Term := 5; Type_ := LogCommand; Data := [Byte.x78] |}.
Definition badLog : Log :=
  {| Index := 12; Term := 6; Type_ := LogCommand; Data := [] |}.

(** A store whose local database cannot be read. *)
Definition brokenStore : store SubStores :=
  {| localDB := {| raft_index := Some {| RowTerm := 5; LogIndex := 10 |};
                   read_fault := Some "disk I/O error"; write_fault := None |};
     data := [];
     raftIndex := 10;
     raftLogFormat := RaftLogFormatJSON |}.

(** A store with checkpoint (5, 10) whose local database takes no write. *)
Definition fullDiskStore : store SubStores :=
  {| localDB := {| raft_index := Some {| RowTerm := 5; LogIndex := 10 |};
                   read_fault := None; write_fault := Some "disk full" |};
     data := [];
     raftIndex := 10;
     raftLogFormat := RaftLogFormatProtobuf |}.

(** A store that has not applied anything yet. *)
Definition freshStore : store SubStores :=
  {| localDB := {| raft_index := None; read_fault := None; write_fault := None |};
     data := [];
     raftIndex := 0;
     raftLogFormat := RaftLogFormatProtobufSnappy |}.

(** A heartbeat, and an entry of a newer term at an index already passed. *)
Definition heartbeat : Log :=
  {| Index := 11; Term := 5; Type_ := LogNoop; Data := [] |}.
Definition newTermOldIndex : Log :=
  {| Index := 9; Term := 7; Type_ := LogCommand; Data := [Byte.x78] |}.

End FsmExample.

Module NetworkingExample.
Import Networking.

(** A database with one user ACL and the route [site-a] through node [a]. *)
Definition db0 : DB :=
  {| network_acls :=
       {[ "allow-all" :=
            {| AclName := "allow-all"; AclPriority := 0; AclAction := 1;
               SrcNodeIds := Some "*"; DstNodeIds := Some "*";
               SrcCidrs := Some "*"; DstCidrs := Some "*";
               AclProtocols := None; AclPorts := None;
               AclCreatedAt := 100; AclUpdatedAt := 100 |} ]};
     network_routes :=
       {[ "site-a" :=
            {| RowName := "site-a"; RowNodes := "a"; RowDstCidrs := "10.0.0.0/24";
               NextHops := None; RouteCreatedAt := 100; RouteUpdatedAt := 100 |} ]};
     read_fault := None;
     write_fault := None |}.

Definition systemACL : NetworkACL :=
  {| Name := "bootstrap-nodes"; Priority := 0; Action := 2;
     SourceNodes := ["*"]; DestinationNodes := ["*"];
     SourceCidrs := []; DestinationCidrs := []; Protocols := []; Ports := [] |}.

Definition userACL : NetworkACL :=
  {| Name := "deny-all"; Priority := 5; Action := 2;
     SourceNodes := ["*"]; DestinationNodes := ["*"];
     SourceCidrs := []; DestinationCidrs := []; Protocols := ["tcp"]; Ports := [80; 443] |}.

(** A route put without any node yet. *)
Definition emptyRoute : Route :=
  {| RouteName := "site-b"; Nodes := []; RouteDestinationCidrs := ["10.0.1.0/24"];
     NextHopNodes := [] |}.

End NetworkingExample.

Module StorageExample.
Import Storage.

Definition names : SystemNames :=
  {| MeshAdminRole := "mesh-admin";
     MeshAdminRoleBinding := "mesh-admin";
     VotersRole := "voters";
     VotersGroup := "voters";
     BootstrapVotersRoleBinding := "bootstrap-voters";
     BootstrapNodesNetworkACLName := "bootstrap-nodes" |}.

(** 172.16.0.0/12 and a unique-local IPv6 /48. *)
Definition net4 : Svcutil.Prefix := Svcutil.mkPrefix Svcutil.Fam4 2886729728 12.
Definition ula6 : Svcutil.Prefix :=
  Svcutil.mkPrefix Svcutil.Fam6 (0xfd00 * 2 ^ 112 + 0x1234 * 2 ^ 96) 48.
Definition otherUla6 : Svcutil.Prefix :=
  Svcutil.mkPrefix Svcutil.Fam6 (0xfd00 * 2 ^ 112 + 0x5678 * 2 ^ 96) 48.

(** A parser that knows the default network only. *)
Definition ParsePrefix (s : string) : Svcutil.Prefix + string :=
  if bool_decide (s = "172.16.0.0/12") then inl net4
  else inr "netip.ParsePrefix: no '/'".

(** The empty database of a fresh cluster, without storage faults. *)
Definition emptyDB : MeshDB :=
  {| meshDomain := None; ipv4Prefix := None; ipv6Prefix := None;
     roles := ∅; rolebindings := ∅; groups := ∅; rbacDisabled := false;
     networkACLs := ∅; fault := fun _ => None |}.

Definition opts0 : BootstrapOptions :=
  {| MeshDomain := ""; IPv4Network := ""; Admin := ""; OptDefaultNetworkPolicy := "";
     BootstrapNodes := ["node-1"; "node-2"]; Voters := []; DisableRBAC := false |}.

(** Options of a second caller, asking for something else. *)
Definition opts1 : BootstrapOptions :=
  {| MeshDomain := "other.internal"; IPv4Network := "10.0.0.0/8"; Admin := "root";
     OptDefaultNetworkPolicy := "deny";
     BootstrapNodes := []; Voters := ["node-3"]; DisableRBAC := true |}.

(** A database on which creating a network ACL fails. *)
Definition aclFaultDB : MeshDB :=
  {| meshDomain := None; ipv4Prefix := None; ipv6Prefix := None;
     roles := ∅; rolebindings := ∅; groups := ∅; rbacDisabled := false;
     networkACLs := ∅;
     fault := fun op => match op with
                        | OpPutNetworkACL => Some "disk full"
                        | _ => None
                        end |}.

End StorageExample.

Module RbacExample.
Import Rbac.

Definition db0 : DB :=
  {| role_bindings := ∅; read_fault := None; write_fault := None |}.

(** A binding to a node, to everyone, to a user and to a subject of a kind
    this version does not know. *)
Definition binding : RoleBinding :=
  {| Name := "viewers"; Role := "viewer";
     Subjects := [ {| SubjectName := "n1"; Type_ := SUBJECT_NODE |};
                   {| SubjectName := "*"; Type_ := SUBJECT_ALL |};
                   {| SubjectName := "alice"; Type_ := SUBJECT_USER |};
                   {| SubjectName := "x"; Type_ := SUBJECT_OTHER 9 |} ] |}.

End RbacExample.

Module AdminExample.

(** The evaluator of a caller who may delete every role binding but the
    one called [locked]. *)
Definition Evaluate (name : string) : bool * option string :=
  (negb (bool_decide (name = "locked")), None).

(** A database with the role bindings [viewers] and [locked]. *)
Definition row (name : string) : Rbac.RoleBindingRow :=
  {| Rbac.RowName := name; Rbac.RoleName := "viewer"; Rbac.NodeIds := Some "n1";
     Rbac.UserNames := None; Rbac.GroupNames := None;
     Rbac.CreatedAt := 0; Rbac.UpdatedAt := 0 |}.

Definition db0 : Rbac.DB :=
  {| Rbac.role_bindings := {[ "viewers" := row "viewers"; "locked" := row "locked" ]};
     Rbac.read_fault := None; Rbac.write_fault := None |}.

End AdminExample.

Module TypesExample.

(** [strings.ToValidUTF8] on texts of ASCII, which are valid. *)
Definition ToValidUTF8 (s replacement : string) : string := s.

End TypesExample.

(* ===================================================================== *)
(** * Properties                                                          *)
(* ===================================================================== *)

(** ** The state machine *)
Module FsmProofs.
Import Fsm.

Lemma uint64_int64 (z : Z) : is_uint64 z -> uint64 (int64 z) = z.
Proof.
  unfold is_uint64, uint64, int64. intros Hz.
  rewrite Zminus_mod_idemp_l.
  replace (z + 2 ^ 63 - 2 ^ 63) with z by lia.
  apply Z.mod_small. lia.
Qed.

Lemma uint64_range (z : Z) : is_uint64 (uint64 z).
Proof. unfold is_uint64, uint64. apply Z.mod_pos_bound. lia. Qed.

Lemma append_nonempty (a b : string) : a <> "" -> a +:+ b <> "".
Proof. destruct a; [congruence | discriminate]. Qed.

Section Proofs.

Context {SubStores RaftLogEntry : Type}.
Context (protojson_Unmarshal proto_Unmarshal : list Byte.byte -> RaftLogEntry + string).
Context (snappy_Decode : list Byte.byte -> list Byte.byte + string).
Context (apply : Log -> RaftLogEntry -> SubStores -> SubStores * RaftApplyResponse).
Context (elapsed : string).

Abbreviation Apply :=
  (Fsm.Apply SubStores RaftLogEntry protojson_Unmarshal proto_Unmarshal
     snappy_Decode apply elapsed).
Abbreviation ApplyBatch :=
  (Fsm.ApplyBatch SubStores RaftLogEntry protojson_Unmarshal proto_Unmarshal
     snappy_Decode apply elapsed).
Abbreviation decode :=
  (Fsm.decode RaftLogEntry protojson_Unmarshal proto_Unmarshal snappy_Decode).
Abbreviation store := (Fsm.store SubStores).

(** What a successful read of the checkpoint says about the row. *)
Lemma getDBTermAndIndex_persisted (s : store) (ct ci : Z) :
  getDBTermAndIndex s = inl (ct, ci) -> persisted s = (ct, ci).
Proof.
  unfold getDBTermAndIndex, GetCurrentRaftIndex, persisted.
  destruct (read_fault (localDB s)); [discriminate |].
  destruct (raft_index (localDB s)); congruence.
Qed.

(** C1. Stale-replay guard: on a store whose persisted checkpoint reads as
    [(ct, ci)], an entry with [term < ct], or with [term = ct] and
    [index <= ci], gets a success response (empty error detail); the
    sub-stores and the local database, hence the persisted checkpoint, are
    left as they were. *)
Theorem Apply_stale_entry_is_noop (s : store) (l : Log) (ct ci : Z) :
  getDBTermAndIndex s = inl (ct, ci) ->
  Term l < ct \/ (Term l = ct /\ Index l <= ci) ->
  Error (snd (Apply s l)) = ""
  /\ data (fst (Apply s l)) = data s
  /\ localDB (fst (Apply s l)) = localDB s
  /\ persisted (fst (Apply s l)) = (ct, ci).
Proof.
  intros Hread Hstale.
  pose proof (getDBTermAndIndex_persisted s ct ci Hread) as Hp.
  unfold Fsm.Apply. rewrite Hread.
  destruct (Z.ltb_spec (Term l) ct) as [Hlt | Hge]; [by simpl |].
  destruct (Z.leb_spec (Index l) ci) as [Hle | Hgt]; [by simpl |].
  lia.
Qed.

(** The checkpoint after the deferred save, for any state [s'] that shares
    the local database of [s]. *)
Lemma persisted_after_save (s' : store) (l : Log) (ci : Z) :
  wf_log l -> ci < Index l ->
  persisted (storeRaftIndex SubStores l (saveIndex SubStores ci l s'))
  = match write_fault (localDB s') with
    | Some _ => persisted s'
    | None => (Term l, Index l)
    end.
Proof.
  intros [Hi Ht] Hlt. unfold saveIndex, storeRaftIndex, SetCurrentRaftIndex, persisted.
  rewrite bool_decide_true by lia.
  destruct (write_fault (localDB s')); simpl; [done |].
  by rewrite !uint64_int64.
Qed.

(** One Apply either leaves the persisted checkpoint alone or moves it to
    the position of the entry, which is then strictly ahead in index and not
    behind in term. *)
Lemma Apply_checkpoint_step (s : store) (l : Log) :
  wf_log l ->
  persisted (fst (Apply s l)) = persisted s
  \/ (persisted (fst (Apply s l)) = (Term l, Index l)
      /\ fst (persisted s) <= Term l /\ snd (persisted s) < Index l).
Proof.
  intros Hwf. unfold Fsm.Apply.
  destruct (getDBTermAndIndex s) as [[ct ci] | e] eqn:Hread; [| by left].
  pose proof (getDBTermAndIndex_persisted s ct ci Hread) as Hp.
  destruct (Z.ltb_spec (Term l) ct) as [Hlt | Hge]; [by left |].
  destruct (Z.leb_spec (Index l) ci) as [Hle | Hgt]; [by left |].
  assert (Hcase : forall s', localDB s' = localDB s ->
            persisted (storeRaftIndex SubStores l (saveIndex SubStores ci l s'))
            = persisted s
            \/ (persisted (storeRaftIndex SubStores l (saveIndex SubStores ci l s'))
                = (Term l, Index l)
                /\ fst (persisted s) <= Term l /\ snd (persisted s) < Index l)).
  { intros s' Hdb. rewrite persisted_after_save by done.
    destruct (write_fault (localDB s')).
    - left. unfold persisted. by rewrite Hdb.
    - right. rewrite Hp. simpl. auto. }
  destruct (bool_decide (Type_ l <> LogCommand)); [by apply Hcase |].
  destruct (decode _ _) as [cmd | e]; [| by apply Hcase].
  destruct (apply l cmd (data s)) as [d resp]. by apply Hcase.
Qed.

Lemma ckpt_le_refl (a : Z * Z) : ckpt_le a a.
Proof. unfold ckpt_le. lia. Qed.

Lemma ckpt_le_trans (a b c : Z * Z) : ckpt_le a b -> ckpt_le b c -> ckpt_le a c.
Proof. unfold ckpt_le. lia. Qed.


Lemma Apply_checkpoint_le (s : store) (l : Log) :
  wf_log l -> ckpt_le (persisted s) (persisted (fst (Apply s l))).
Proof.
  intros Hwf. destruct (Apply_checkpoint_step s l Hwf) as [-> | (-> & ? & ?)].
  - apply ckpt_le_refl.
  - unfold ckpt_le. simpl. lia.
Qed.

Lemma ApplyBatch_cons (s : store) (l : Log) (rest : list Log) :
  fst (ApplyBatch s (l :: rest)) = fst (ApplyBatch (fst (Apply s l)) rest).
Proof.
  simpl. destruct (Fsm.Apply _ _ _ _ _ _ _ s l) as [s1 r]. simpl.
  by destruct (Fsm.ApplyBatch _ _ _ _ _ _ _ s1 rest).
Qed.


Lemma ApplyBatch_checkpoint_le (s : store) (logs : list Log) :
  Forall wf_log logs -> ckpt_le (persisted s) (persisted (fst (ApplyBatch s logs))).
Proof.
  intros Hwf. revert s. induction Hwf as [| l rest Hl _ IH]; intros s.
  - apply ckpt_le_refl.
  - rewrite ApplyBatch_cons.
    eapply ckpt_le_trans; [by apply Apply_checkpoint_le | apply IH].
Qed.

(** The local database and the log format after the deferred save, for any
    state [s'] on the way. *)
Lemma save_localDB (s' : store) (l : Log) (ci : Z) :
  ci < Index l ->
  localDB (storeRaftIndex SubStores l (saveIndex SubStores ci l s'))
  = match write_fault (localDB s') with
    | Some _ => localDB s'
    | None =>
        {| raft_index := Some {| RowTerm := int64 (Term l); LogIndex := int64 (Index l) |};
           read_fault := read_fault (localDB s');
           write_fault := None |}
    end
  /\ data (storeRaftIndex SubStores l (saveIndex SubStores ci l s')) = data s'
  /\ raftLogFormat (storeRaftIndex SubStores l (saveIndex SubStores ci l s'))
     = raftLogFormat s'.
Proof.
  intros Hlt. unfold saveIndex, storeRaftIndex, SetCurrentRaftIndex.
  rewrite bool_decide_true by lia.
  by destruct (write_fault (localDB s')) eqn:Hw.
Qed.

Lemma getDBTermAndIndex_localDB (s s' : store) :
  localDB s' = localDB s -> getDBTermAndIndex s' = getDBTermAndIndex s.
Proof. unfold getDBTermAndIndex. by intros ->. Qed.

(** An entry that the guard lets through on a checkpoint that reads as
    [(ct, ci)]: what Apply leaves and what it answers. The write of the
    checkpoint can fail; the failure is logged and dropped. *)
Lemma Apply_past_guard (s : store) (l : Log) (ct ci : Z) :
  wf_log l -> getDBTermAndIndex s = inl (ct, ci) -> ct <= Term l -> ci < Index l ->
  raftLogFormat (fst (Apply s l)) = raftLogFormat s
  /\ (write_fault (localDB s) = None ->
      persisted (fst (Apply s l)) = (Term l, Index l)
      /\ getDBTermAndIndex (fst (Apply s l)) = inl (Term l, Index l))
  /\ (write_fault (localDB s) <> None -> localDB (fst (Apply s l)) = localDB s)
  /\ (Type_ l <> LogCommand ->
      Error (snd (Apply s l)) = "" /\ data (fst (Apply s l)) = data s)
  /\ (forall e, Type_ l = LogCommand -> decode (raftLogFormat s) (Data l) = inr e ->
      Error (snd (Apply s l)) = "unmarshal raft log entry: " +:+ e
      /\ data (fst (Apply s l)) = data s).
Proof.
  intros [Hi Ht] Hread Hterm Hindex.
  assert (Hr : read_fault (localDB s) = None).
  { unfold getDBTermAndIndex, GetCurrentRaftIndex in Hread.
    by destruct (read_fault (localDB s)). }
  assert (Hsave : forall s', localDB s' = localDB s -> raftLogFormat s' = raftLogFormat s ->
            let s1 := storeRaftIndex SubStores l (saveIndex SubStores ci l s') in
            raftLogFormat s1 = raftLogFormat s
            /\ (write_fault (localDB s) = None ->
                persisted s1 = (Term l, Index l)
                /\ getDBTermAndIndex s1 = inl (Term l, Index l))
            /\ (write_fault (localDB s) <> None -> localDB s1 = localDB s)
            /\ data s1 = data s').
  { intros s' Hdb Hfmt s1.
    destruct (save_localDB s' l ci Hindex) as (Hl & Hd & Hf). fold s1 in Hl, Hd, Hf.
    rewrite Hdb in Hl. split; [congruence |]. split; [| split; [| done]].
    - intros Hw. rewrite Hw in Hl.
      unfold persisted, getDBTermAndIndex, GetCurrentRaftIndex. rewrite Hl. simpl.
      rewrite Hr. simpl. by rewrite !uint64_int64.
    - intros Hw. by destruct (write_fault (localDB s)). }
  unfold Fsm.Apply. rewrite Hread.
  destruct (Z.ltb_spec (Term l) ct) as [? | _]; [lia |].
  destruct (Z.leb_spec (Index l) ci) as [? | _]; [lia |].
  case_bool_decide as Hty.
  - destruct (Hsave s eq_refl eq_refl) as (Hf & Hok & Hfail & Hd). cbn [fst snd].
    split; [done |]. split; [done |]. split; [done |]. split; [done |].
    intros e Hcmd. done.
  - destruct (decode _ _) as [cmd | e'] eqn:Hdec.
    + destruct (apply l cmd (data s)) as [d resp].
      destruct (Hsave (with_data SubStores s d) eq_refl eq_refl) as (Hf & Hok & Hfail & Hd).
      cbn [fst snd]. split; [done |]. split; [done |]. split; [done |].
      split; [intros Hnc; by destruct Hty |]. intros e _ [=].
    + destruct (Hsave s eq_refl eq_refl) as (Hf & Hok & Hfail & Hd). cbn [fst snd].
      split; [done |]. split; [done |]. split; [done |].
      split; [intros Hnc; by destruct Hty |]. by intros e _ [= ->].
Qed.

Lemma read_persisted (s : store) :
  read_fault (localDB s) = None -> getDBTermAndIndex s = inl (persisted s).
Proof.
  intros Hr. unfold getDBTermAndIndex, GetCurrentRaftIndex, persisted. rewrite Hr.
  by destruct (raft_index (localDB s)).
Qed.


(** C3 (amended). A command entry that the stale-replay guard lets through
    (whenever the checkpoint reads as [(ct, ci)], [ct <= term] and
    [ci < index]) and whose payload does not decode under the configured
    format gets a response with a non-empty error detail, and the sub-stores
    are left as they were. *)
Theorem undecodable_command_is_surfaced (s : store) (l : Log) (e : string) :
  Type_ l = LogCommand ->
  decode (raftLogFormat s) (Data l) = inr e ->
  (forall ct ci, getDBTermAndIndex s = inl (ct, ci) -> ct <= Term l /\ ci < Index l) ->
  Error (snd (Apply s l)) <> "" /\ data (fst (Apply s l)) = data s.
Proof.
  intros Hty Hdec Hfresh. unfold Fsm.Apply.
  destruct (getDBTermAndIndex s) as [[ct ci] | err] eqn:Hread.
  - destruct (Hfresh ct ci eq_refl) as [Ht Hi].
    destruct (Z.ltb_spec (Term l) ct) as [Hlt | Hge]; [lia |].
    destruct (Z.leb_spec (Index l) ci) as [Hle | Hgt]; [lia |].
    rewrite bool_decide_false by (intros H; by apply H).
    rewrite Hdec. simpl. split; [by apply append_nonempty |].
    unfold saveIndex. by destruct (bool_decide _).
  - simpl. split; [by apply append_nonempty | done].
Qed.

End Proofs.

(** C1, at the store with checkpoint (5, 10) and the entry (term 3, index 4). *)
Lemma Apply_stale_entry_is_noop_witness :
  getDBTermAndIndex FsmExample.store0 = inl (5, 10)
  /\ (Term FsmExample.staleLog < 5
      \/ (Term FsmExample.staleLog = 5 /\ Index FsmExample.staleLog <= 10))
  /\ Error (snd (FsmExample.Apply FsmExample.store0 FsmExample.staleLog)) = ""
  /\ data (fst (FsmExample.Apply FsmExample.store0 FsmExample.staleLog))
     = data FsmExample.store0
  /\ localDB (fst (FsmExample.Apply FsmExample.store0 FsmExample.staleLog))
     = localDB FsmExample.store0
  /\ persisted (fst (FsmExample.Apply FsmExample.store0 FsmExample.staleLog)) = (5, 10).
Proof.
  split; [reflexivity |]. split; [left; reflexivity |].
  apply (Apply_stale_entry_is_noop FsmExample.unmarshal FsmExample.unmarshal
           FsmExample.snappy FsmExample.dispatch "1ms"
           FsmExample.store0 FsmExample.staleLog 5 10).
  - reflexivity.
  - left. reflexivity.
Defined.



(** C3 as stated fails: the replayed command of term 3 has a payload that
    does not decode, and Apply answers it with an empty error detail. *)
Lemma undecodable_stale_command_reports_success :
  ~ (forall (s : store FsmExample.SubStores) (l : Log),
       Type_ l = LogCommand ->
       (exists e, FsmExample.decode (raftLogFormat s) (Data l) = inr e) ->
       Error (snd (FsmExample.Apply s l)) <> ""
       /\ data (fst (FsmExample.Apply s l)) = data s).
Proof.
  intros H.
  destruct (H FsmExample.store0 FsmExample.staleLog) as [Herr _].
  - reflexivity.
  - eexists. reflexivity.
  - apply Herr. reflexivity.
Qed.

(** C3 (amended), at the fresh command (term 6, index 12) with an empty
    payload. *)
Lemma undecodable_command_is_surfaced_witness :
  Type_ FsmExample.badLog = LogCommand
  /\ FsmExample.decode (raftLogFormat FsmExample.store0) (Data FsmExample.badLog)
     = inr "unexpected end of input"
  /\ (forall ct ci, getDBTermAndIndex FsmExample.store0 = inl (ct, ci) ->
       ct <= Term FsmExample.badLog /\ ci < Index FsmExample.badLog)
  /\ Error (snd (FsmExample.Apply FsmExample.store0 FsmExample.badLog)) <> ""
  /\ data (fst (FsmExample.Apply FsmExample.store0 FsmExample.badLog))
     = data FsmExample.store0.
Proof.
  assert (Hfresh : forall ct ci, getDBTermAndIndex FsmExample.store0 = inl (ct, ci) ->
            ct <= Term FsmExample.badLog /\ ci < Index FsmExample.badLog).
  { intros ct ci H. vm_compute in H. inversion H; subst. simpl. lia. }
  split; [reflexivity |]. split; [reflexivity |]. split; [exact Hfresh |].
  exact (undecodable_command_is_surfaced FsmExample.unmarshal FsmExample.unmarshal
           FsmExample.snappy FsmExample.dispatch "1ms" FsmExample.store0
           FsmExample.badLog "unexpected end of input" eq_refl eq_refl Hfresh).
Defined.

End FsmProofs.

(** ** Network ACLs and routes *)
Module NetworkingProofs.
Import Networking.

Lemma append_cons (c : ascii) (a b : string) :
  String c a +:+ b = String c (a +:+ b).
Proof. reflexivity. Qed.

Lemma Split_nonempty (s : string) (sep : ascii) : Split s sep <> [].
Proof.
  destruct s as [| c rest]; simpl; [done |].
  destruct (bool_decide (c = sep)); [done |].
  by destruct (Split rest sep).
Qed.

(** Splitting a text that has a separator in the middle splits both sides. *)
Lemma Split_app (a b : string) (sep : ascii) :
  Split (a +:+ String sep b) sep = Split a sep ++ Split b sep.
Proof.
  induction a as [| c a IH]; simpl.
  - by rewrite bool_decide_true.
  - destruct (bool_decide (c = sep)).
    + by rewrite IH.
    + rewrite IH. pose proof (Split_nonempty a sep) as Hne.
      by destruct (Split a sep).
Qed.

Lemma Split_no_sep (s : string) (sep : ascii) :
  ContainsRune s sep = false -> Split s sep = [s].
Proof.
  induction s as [| c s IH]; simpl; [done |].
  destruct (bool_decide (c = sep)); [done |].
  intros H. by rewrite IH.
Qed.

Lemma Join_snoc (l : list string) (x : string) (sep : ascii) :
  l <> [] -> Join (l ++ [x]) sep = Join l sep +:+ String sep x.
Proof.
  induction l as [| e l IH]; [done |]. intros _.
  destruct l as [| e' l]; [done |].
  change (Join ((e :: e' :: l) ++ [x]) sep)
    with (e +:+ String sep (Join ((e' :: l) ++ [x]) sep)).
  rewrite IH by done.
  change (Join (e :: e' :: l) sep) with (e +:+ String sep (Join (e' :: l) sep)).
  generalize (Join (e' :: l) sep). intros j. clear IH.
  induction e as [| c e IHe]; [reflexivity |].
  rewrite !append_cons. f_equal. exact IHe.
Qed.

Lemma hasNode_In (nodes : list string) (n : string) :
  hasNode nodes n = true <-> In n nodes.
Proof.
  unfold hasNode. rewrite existsb_exists. split.
  - intros (x & Hx & Heq). apply bool_decide_eq_true in Heq. by subst.
  - intros Hin. exists n. split; [done |]. by apply bool_decide_eq_true.
Qed.

(** A node name without a comma is found again after it was appended,
    joined and split. *)
Lemma appended_node_is_read_back (old n : string) :
  ContainsRune n comma = false ->
  hasNode (Split (Join (Split old comma ++ [n]) comma) comma) n = true.
Proof.
  intros Hn. rewrite Join_snoc by apply Split_nonempty.
  rewrite Split_app, (Split_no_sep n) by done.
  apply hasNode_In, in_or_app. right. by left.
Qed.

(** C7. The system ACL [bootstrap-nodes] is immutable: PutNetworkACL and
    DeleteNetworkACL with that name return an error and leave the database
    as it was. With any other name the guard does not fire: the operation
    fails only when the database write fails (with that error, wrapped), and
    otherwise it returns nil and the row is written, respectively deleted. *)
Theorem system_network_acl_is_protected (now : Z) (db : DB) (acl : NetworkACL)
    (name : string) :
  (Name acl = BootstrapNodesNetworkACLName ->
     PutNetworkACL now db acl
     = (db, Some (Errorf ("cannot update system network acl " +:+ Name acl))))
  /\ (name = BootstrapNodesNetworkACLName ->
       DeleteNetworkACL db name
       = (db, Some (Errorf ("cannot delete system network acl " +:+ name))))
  /\ (Name acl <> BootstrapNodesNetworkACLName ->
       match write_fault db with
       | Some e => PutNetworkACL now db acl = (db, Some (Errorf ("put network acl: " +:+ e)))
       | None =>
           snd (PutNetworkACL now db acl) = None
           /\ is_Some (network_acls (fst (PutNetworkACL now db acl)) !! Name acl)
       end)
  /\ (name <> BootstrapNodesNetworkACLName ->
       match write_fault db with
       | Some e => DeleteNetworkACL db name = (db, Some (Errorf ("delete network acl: " +:+ e)))
       | None =>
           snd (DeleteNetworkACL db name) = None
           /\ network_acls (fst (DeleteNetworkACL db name)) !! name = None
       end).
Proof.
  unfold PutNetworkACL, DeleteNetworkACL, IsSystemNetworkACL,
    raftdb_PutNetworkACL, raftdb_DeleteNetworkACL.
  repeat split.
  - intros H. by rewrite bool_decide_true.
  - intros H. by rewrite bool_decide_true.
  - intros H. rewrite bool_decide_false by done.
    destruct (write_fault db); simpl; [done |].
    split; [done |]. rewrite lookup_insert_eq. by eexists.
  - intros H. rewrite bool_decide_false by done.
    destruct (write_fault db); simpl; [done |].
    split; [done |]. by rewrite lookup_delete_eq.
Qed.

(** C7, on the example database: the system ACL is rejected, a user ACL
    goes through. *)
Lemma system_network_acl_is_protected_witness :
  PutNetworkACL 200 NetworkingExample.db0 NetworkingExample.systemACL
  = (NetworkingExample.db0,
     Some (Errorf "cannot update system network acl bootstrap-nodes"))
  /\ DeleteNetworkACL NetworkingExample.db0 "bootstrap-nodes"
     = (NetworkingExample.db0,
        Some (Errorf "cannot delete system network acl bootstrap-nodes"))
  /\ snd (PutNetworkACL 200 NetworkingExample.db0 NetworkingExample.userACL) = None
  /\ snd (DeleteNetworkACL NetworkingExample.db0 "allow-all") = None.
Proof.
  destruct (system_network_acl_is_protected 200 NetworkingExample.db0
              NetworkingExample.systemACL "bootstrap-nodes") as (Hput & Hdel & _ & _).
  destruct (system_network_acl_is_protected 200 NetworkingExample.db0
              NetworkingExample.userACL "allow-all") as (_ & _ & Hput' & Hdel').
  split; [exact (Hput eq_refl) |]. split; [exact (Hdel eq_refl) |].
  split.
  - exact (proj1 (Hput' ltac:(discriminate))).
  - exact (proj1 (Hdel' ltac:(discriminate))).
Defined.

(** What a successful [GetRoute] says about the database. *)
Lemma GetRoute_inl (db : DB) (name : string) (route : Route) :
  GetRoute db name = inl route ->
  read_fault db = None
  /\ exists row, network_routes db !! name = Some row
       /\ RouteName route = name
       /\ Nodes route = Split (RowNodes row) comma.
Proof.
  unfold GetRoute, raftdb_GetNetworkRoute.
  destruct (read_fault db); [discriminate |].
  destruct (network_routes db !! name) as [row |]; [| discriminate].
  intros [= <-]. split; [done |]. by exists row.
Qed.

(** C9 (amended). If the node list of the route already has the node name,
    AppendNodeToRoute returns nil and writes nothing. For a node name
    without a comma (the separator of the stored node list), a second call
    with the same arguments leaves the database of the first call as it is,
    and returns nil if the first did. *)
Theorem AppendNodeToRoute_idempotent (now now' : Z) (db : DB) (routeName nodeName : string) :
  (forall route, GetRoute db routeName = inl route -> In nodeName (Nodes route) ->
     AppendNodeToRoute now db routeName nodeName = (db, None))
  /\ (ContainsRune nodeName comma = false ->
       let db1 := fst (AppendNodeToRoute now db routeName nodeName) in
       fst (AppendNodeToRoute now' db1 routeName nodeName) = db1
       /\ (snd (AppendNodeToRoute now db routeName nodeName) = None ->
           AppendNodeToRoute now' db1 routeName nodeName = (db1, None))).
Proof.
  split.
  - intros route Hget Hin. unfold AppendNodeToRoute. rewrite Hget.
    by rewrite (proj2 (hasNode_In _ _) Hin).
  - intros Hn. unfold AppendNodeToRoute at 1 3.
    destruct (GetRoute db routeName) as [route | err] eqn:Hget.
    + destruct (hasNode (Nodes route) nodeName) eqn:Hhas.
      * simpl. unfold AppendNodeToRoute. by rewrite Hget, Hhas.
      * destruct (GetRoute_inl db routeName route Hget)
          as (Hrf & row & Hrow & Hname & Hnodes).
        unfold PutRoute, raftdb_PutNetworkRoute.
        destruct (write_fault db) as [e |] eqn:Hwf; simpl.
        { unfold AppendNodeToRoute. rewrite Hget, Hhas.
          unfold PutRoute, raftdb_PutNetworkRoute. rewrite Hwf. simpl.
          split; [done | discriminate]. }
        unfold AppendNodeToRoute, GetRoute, raftdb_GetNetworkRoute. simpl.
        rewrite Hrf, Hname, lookup_insert_eq. simpl.
        rewrite Hnodes, appended_node_is_read_back by done. done.
    + simpl. unfold AppendNodeToRoute. rewrite Hget. simpl.
      split; [done | discriminate].
Qed.

(** C9 as stated fails for a node name with a comma: appended to the route
    stored as [a], the name [b,c] is read back as the two nodes [b] and [c],
    so the second call does not find it and appends it again. *)
Lemma AppendNodeToRoute_twice_with_comma :
  ~ (forall (now : Z) (db : DB) (routeName nodeName : string),
       fst (AppendNodeToRoute now
              (fst (AppendNodeToRoute now db routeName nodeName)) routeName nodeName)
       = fst (AppendNodeToRoute now db routeName nodeName)).
Proof.
  intros H. specialize (H 200 NetworkingExample.db0 "site-a" "b,c").
  apply (f_equal (fun d => RowNodes <$> network_routes d !! "site-a")) in H.
  vm_compute in H. discriminate H.
Qed.

(** C9 (amended), appending node [b] to the route [site-a] twice. *)
Lemma AppendNodeToRoute_idempotent_witness :
  ContainsRune "b" comma = false
  /\ (let db1 := fst (AppendNodeToRoute 200 NetworkingExample.db0 "site-a" "b") in
      RowNodes <$> network_routes db1 !! "site-a" = Some "a,b"
      /\ fst (AppendNodeToRoute 300 db1 "site-a" "b") = db1).
Proof.
  split; [reflexivity |]. split; [vm_compute; reflexivity |].
  exact (proj1 (proj2 (AppendNodeToRoute_idempotent 200 300 NetworkingExample.db0
                         "site-a" "b") eq_refl)).
Defined.

End NetworkingProofs.

(** ** Bootstrap *)
Module StorageProofs.
Import Storage.

(** A write that succeeded had no fault; it keeps the fault table. *)
Lemma write_ok (db db' db1 : MeshDB) (op : Op) :
  write db op db' = (db1, None) -> fault db op = None /\ db1 = db'.
Proof. unfold write. destruct (fault db op); [discriminate |]. by intros [= <-]. Qed.

Lemma andThen_ok (step : MeshDB * option error) (ctx : string)
    (k : MeshDB -> MeshDB * option error) (db1 : MeshDB) :
  andThen step ctx k = (db1, None) ->
  exists db', step = (db', None) /\ k db' = (db1, None).
Proof.
  unfold andThen. destruct step as [db' [e |]]; [discriminate |].
  intros H. by exists db'.
Qed.

(** After a successful seeding the mesh state holds the prefixes of
    [results] and the mesh domain of the options. *)
Lemma seed_ok (names : SystemNames) (db db1 : MeshDB) (opts : BootstrapOptions)
    (results : BootstrapResults) :
  seed names db opts results = (db1, None) ->
  meshDomain db1 = Some (MeshDomain opts)
  /\ ipv4Prefix db1 = Some (NetworkV4 results)
  /\ ipv6Prefix db1 = Some (NetworkV6 results)
  /\ fault db1 = fault db.
Proof.
  unfold seed, SetIPv6Prefix, SetIPv4Prefix, SetMeshDomain, PutRole, PutRoleBinding,
    PutGroup, SetEnabled, PutNetworkACL.
  intros H.
  repeat (apply andThen_ok in H as (? & Hstep & H);
          lazymatch type of Hstep with
          | (if ?c then _ else _) = _ =>
              destruct c; [apply write_ok in Hstep as [_ ->] | injection Hstep as <-]
          | _ => apply write_ok in Hstep as [_ ->]
          end;
          cbn [meshDomain ipv4Prefix ipv6Prefix roles rolebindings groups
               rbacDisabled networkACLs fault] in H).
  all: by injection H as <-.
Qed.

(** C8. Bootstrap is idempotent. When the mesh domain is stored, Bootstrap
    changes nothing in the database (mesh state, RBAC, ACLs); when the two
    prefixes are stored as well it returns them and the stored domain
    together with ErrAlreadyBootstrapped. Hence after a Bootstrap that
    succeeded, a second call — whatever its options and generated ULA —
    returns the results of the first with ErrAlreadyBootstrapped and leaves
    the database of the first (the reads of the prefixes not failing). *)
Theorem Bootstrap_idempotent (names : SystemNames)
    (ParsePrefix ParsePrefix' : string -> Svcutil.Prefix + string)
    (GenerateULA GenerateULA' : Svcutil.Prefix + string)
    (db : MeshDB) (opts opts' : BootstrapOptions) :
  (forall d, GetMeshDomain db = inl d ->
     fst (fst (Bootstrap names ParsePrefix GenerateULA db opts)) = db)
  /\ (forall d v4 v6,
       GetMeshDomain db = inl d -> GetIPv4Prefix db = inl v4 -> GetIPv6Prefix db = inl v6 ->
       Bootstrap names ParsePrefix GenerateULA db opts
       = (db, {| NetworkV4 := v4; NetworkV6 := v6; ResMeshDomain := d |},
          Some ErrAlreadyBootstrapped))
  /\ (forall db1 results,
       Bootstrap names ParsePrefix GenerateULA db opts = (db1, results, None) ->
       fault db OpGetIPv4Prefix = None -> fault db OpGetIPv6Prefix = None ->
       Bootstrap names ParsePrefix' GenerateULA' db1 opts'
       = (db1, results, Some ErrAlreadyBootstrapped)).
Proof.
  split; [| split].
  - intros d Hd. unfold Bootstrap. rewrite Hd.
    destruct (GetIPv4Prefix db); [| done].
    destruct (GetIPv6Prefix db); done.
  - intros d v4 v6 Hd H4 H6. unfold Bootstrap. by rewrite Hd, H4, H6.
  - intros db1 results Hfirst Hf4 Hf6. unfold Bootstrap in Hfirst.
    destruct (GetMeshDomain db) as [d | err] eqn:Hd.
    { destruct (GetIPv4Prefix db); [| discriminate].
      destruct (GetIPv6Prefix db); discriminate. }
    destruct (IsKeyNotFound err) eqn:Hnf; [| discriminate]. simpl in Hfirst.
    destruct (ParsePrefix _) as [v4 | e]; [| discriminate].
    destruct GenerateULA as [v6 | e]; [| discriminate].
    destruct (seed _ _ _ _) as [db2 err2] eqn:Hseed.
    injection Hfirst as -> <- ->.
    apply seed_ok in Hseed as (Hdom & H4 & H6 & Hfault). simpl in H4, H6.
    assert (Hfd : fault db OpGetMeshDomain = None).
    { unfold GetMeshDomain, readKey in Hd.
      destruct (fault db OpGetMeshDomain); [| done].
      injection Hd as <-. discriminate. }
    unfold Bootstrap, GetMeshDomain, GetIPv4Prefix, GetIPv6Prefix, readKey.
    by rewrite Hfault, Hfd, Hf4, Hf6, Hdom, H4, H6.
Qed.

(** C8, on a fresh database: the first Bootstrap succeeds with the default
    network and domain; a second one with other options and another ULA
    returns the same results and leaves the database alone. *)
Lemma Bootstrap_idempotent_witness :
  let first := Bootstrap StorageExample.names StorageExample.ParsePrefix
                 (inl StorageExample.ula6) StorageExample.emptyDB StorageExample.opts0 in
  let results := {| NetworkV4 := StorageExample.net4; NetworkV6 := StorageExample.ula6;
                    ResMeshDomain := "webmesh.internal" |} in
  snd first = None
  /\ snd (fst first) = results
  /\ Bootstrap StorageExample.names StorageExample.ParsePrefix
       (inl StorageExample.otherUla6) (fst (fst first)) StorageExample.opts1
     = (fst (fst first), results, Some ErrAlreadyBootstrapped).
Proof.
  intros first results.
  assert (Hfirst : first = (fst (fst first), results, None))
    by (vm_compute; reflexivity).
  split; [vm_compute; reflexivity |]. split; [vm_compute; reflexivity |].
  exact (proj2 (proj2 (Bootstrap_idempotent StorageExample.names
                         StorageExample.ParsePrefix StorageExample.ParsePrefix
                         (inl StorageExample.ula6) (inl StorageExample.otherUla6)
                         StorageExample.emptyDB StorageExample.opts0 StorageExample.opts1))
           (fst (fst first)) results Hfirst eq_refl eq_refl).
Defined.

End StorageProofs.

(** ** Peer resolution *)
Module SvcutilProofs.
Import Svcutil.

(** *** The membership-checked appends *)

Lemma contains_elem_of (l : list Prefix) (p : Prefix) : contains l p = true <-> p ∈ l.
Proof.
  induction l as [| v l IH]; simpl.
  - split; [discriminate | by intros ?%elem_of_nil].
  - case_bool_decide as Hv.
    + subst. split; [intros _; by left | done].
    + rewrite IH, elem_of_cons. naive_solver.
Qed.

Lemma contains_not_elem_of (l : list Prefix) (p : Prefix) :
  contains l p = false <-> p ∉ l.
Proof. rewrite <- contains_elem_of. by destruct (contains l p). Qed.

Lemma appendMissing_elem_of (l : list Prefix) (p q : Prefix) :
  q ∈ appendMissing l p <-> q ∈ l \/ q = p.
Proof.
  unfold appendMissing. destruct (contains l p) eqn:Hc.
  - apply contains_elem_of in Hc. naive_solver.
  - rewrite elem_of_app, list_elem_of_singleton. done.
Qed.

Lemma appendMissing_NoDup (l : list Prefix) (p : Prefix) :
  NoDup l -> NoDup (appendMissing l p).
Proof.
  unfold appendMissing. destruct (contains l p) eqn:Hc; [done |].
  apply contains_not_elem_of in Hc. intros Hl.
  apply NoDup_app. split; [done |]. split.
  - intros x Hx ?%list_elem_of_singleton. by subst.
  - apply NoDup_singleton.
Qed.

Lemma appendMissing_extends (l : list Prefix) (p : Prefix) :
  exists ext, appendMissing l p = l ++ ext.
Proof.
  unfold appendMissing. destruct (contains l p).
  - exists []. by rewrite app_nil_r.
  - by exists [p].
Qed.

Lemma mergeMissing_elem_of (l ps : list Prefix) (q : Prefix) :
  q ∈ mergeMissing l ps <-> q ∈ l \/ q ∈ ps.
Proof.
  unfold mergeMissing. revert l. induction ps as [| p ps IH]; intros l; simpl.
  - rewrite elem_of_nil. naive_solver.
  - rewrite IH, appendMissing_elem_of, elem_of_cons. naive_solver.
Qed.

Lemma mergeMissing_NoDup (l ps : list Prefix) :
  NoDup l -> NoDup (mergeMissing l ps).
Proof.
  unfold mergeMissing. revert l. induction ps as [| p ps IH]; intros l Hl; simpl; [done |].
  by apply IH, appendMissing_NoDup.
Qed.

Lemma mergeMissing_extends (l ps : list Prefix) :
  exists ext, mergeMissing l ps = l ++ ext.
Proof.
  unfold mergeMissing. revert l. induction ps as [| p ps IH]; intros l; simpl.
  - exists []. by rewrite app_nil_r.
  - destruct (appendMissing_extends l p) as [e1 ->].
    destruct (IH (l ++ e1)) as [e2 ->]. exists (e1 ++ e2). by rewrite app_assoc.
Qed.

Lemma mergeMissing_nil_r (l : list Prefix) : mergeMissing l [] = l.
Proof. done. Qed.

(** The addresses a node contributes. *)
Lemma appendAddresses_elem_of (l : list Prefix) (n : Node) (q : Prefix) :
  q ∈ appendAddresses l n <-> q ∈ l \/ addressOf n q.
Proof.
  unfold appendAddresses, addressOf.
  destruct (IsValid (PrivateIPv4 n)), (IsValid (NetworkIPv6 n));
    rewrite ?elem_of_app, ?list_elem_of_singleton; naive_solver.
Qed.

Lemma appendAddresses_extends (l : list Prefix) (n : Node) :
  exists ext, appendAddresses l n = l ++ ext.
Proof.
  unfold appendAddresses.
  destruct (IsValid (PrivateIPv4 n)), (IsValid (NetworkIPv6 n)).
  - exists [PrivateIPv4 n; NetworkIPv6 n]. by rewrite <- app_assoc.
  - by exists [PrivateIPv4 n].
  - by exists [NetworkIPv6 n].
  - exists []. by rewrite app_nil_r.
Qed.

(** The own addresses of a node are free of duplicates exactly when its two
    address fields do not hold the same valid prefix. *)
Lemma appendAddresses_NoDup (n : Node) :
  NoDup (appendAddresses [] n)
  <-> (IsValid (PrivateIPv4 n) = true -> PrivateIPv4 n <> NetworkIPv6 n).
Proof.
  unfold appendAddresses.
  destruct (IsValid (PrivateIPv4 n)) eqn:H4, (IsValid (NetworkIPv6 n)) eqn:H6; simpl.
  - rewrite NoDup_cons, list_elem_of_singleton. split.
    + by intros [Hne _] _.
    + intros Hne. split; [by apply Hne | apply NoDup_singleton].
  - split; [| intros _; apply NoDup_singleton].
    intros _ _ Heq. rewrite Heq in H4. congruence.
  - split; [intros _ ? | intros _; apply NoDup_singleton]. done.
  - split; [intros _ ? | intros _; apply NoDup_nil_2]. done.
Qed.

Lemma Vertex_ID (g : Graph) (hash : string) (n : Node) :
  Vertex g hash = ROk n -> ID n = hash /\ n ∈ vertices g.
Proof.
  unfold Vertex. destruct (find _ _) as [m |] eqn:Hfind; [| discriminate].
  intros [= <-]. apply find_some in Hfind as [Hin Hid].
  apply bool_decide_eq_true in Hid. split; [done |]. by apply list_elem_of_In.
Qed.

Section WithPrefixText.

Context (ParsePrefix : string -> Result Prefix).

Abbreviation addCidrs := (Svcutil.addCidrs ParsePrefix).
Abbreviation addRoutes := (Svcutil.addRoutes ParsePrefix).
Abbreviation routeStep := (Svcutil.routeStep ParsePrefix).
Abbreviation eachTarget := (Svcutil.eachTarget ParsePrefix).
Abbreviation recurseEdges := (Svcutil.recurseEdges ParsePrefix).
Abbreviation recursePeers := (Svcutil.recursePeers ParsePrefix).
Abbreviation advertised := (Svcutil.advertised ParsePrefix).

(** *** The route step *)

Lemma addCidrs_spec (thisRoutes : list Prefix) (cidrs : list string)
    (ips out : list Prefix) :
  addCidrs thisRoutes cidrs ips = Ok out ->
  (forall q, q ∈ out <->
     q ∈ ips \/ ((q ∉ thisRoutes) /\ exists cidr, cidr ∈ cidrs /\ ParsePrefix cidr = ROk q))
  /\ (NoDup ips -> NoDup out)
  /\ exists ext, out = ips ++ ext.
Proof.
  revert ips. induction cidrs as [| cidr cidrs IH]; intros ips; simpl.
  - intros [= <-]. split; [| split; [done |]].
    + intros q. split; [by left |]. intros [? | (_ & ? & []%elem_of_nil & _)]. done.
    + exists []. by rewrite app_nil_r.
  - destruct (ParsePrefix cidr) as [prefix | e] eqn:Hparse; simpl; [| discriminate].
    intros Hrest. apply IH in Hrest as (Hmem & Hnd & ext & Hext).
    destruct (contains ips prefix) eqn:Hc1; simpl in *;
      [| destruct (contains thisRoutes prefix) eqn:Hc2; simpl in *].
    + apply contains_elem_of in Hc1. split; [| split; [done | by exists ext]].
      intros q. rewrite Hmem. split.
      * intros [? | (? & c' & ? & ?)]; [by left |]. right. split; [done |].
        exists c'. split; [by right | done].
      * intros [? | (Hq & c' & [-> | ?]%elem_of_cons & Hp)]; [by left | |].
        -- left. congruence.
        -- right. split; [done |]. by exists c'.
    + apply contains_elem_of in Hc2. split; [| split; [done | by exists ext]].
      intros q. rewrite Hmem. split.
      * intros [? | (? & c' & ? & ?)]; [by left |]. right. split; [done |].
        exists c'. split; [by right | done].
      * intros [? | (Hq & c' & [-> | ?]%elem_of_cons & Hp)]; [by left | |].
        -- exfalso. apply Hq. congruence.
        -- right. split; [done |]. by exists c'.
    + apply contains_not_elem_of in Hc1, Hc2. split; [| split].
      * intros q. rewrite Hmem, elem_of_app, list_elem_of_singleton. split.
        -- intros [[? | ->] | (? & c' & ? & ?)].
           ++ by left.
           ++ right. split; [done |]. exists cidr. split; [by left | done].
           ++ right. split; [done |]. exists c'. split; [by right | done].
        -- intros [? | (Hq & c' & [-> | ?]%elem_of_cons & Hp)].
           ++ left. by left.
           ++ left. right. congruence.
           ++ right. split; [done |]. by exists c'.
      * intros Hips. apply Hnd, NoDup_app. split; [done |]. split.
        -- intros x Hx ?%list_elem_of_singleton. by subst.
        -- apply NoDup_singleton.
      * exists ([prefix] ++ ext). by rewrite app_assoc.
Qed.

Lemma addRoutes_spec (thisRoutes : list Prefix) (routes : list Route)
    (ips out : list Prefix) :
  addRoutes thisRoutes routes ips = Ok out ->
  (forall q, q ∈ out <-> q ∈ ips \/ ((q ∉ thisRoutes) /\ advertised routes q))
  /\ (NoDup ips -> NoDup out)
  /\ exists ext, out = ips ++ ext.
Proof.
  revert ips. induction routes as [| route routes IH]; intros ips; simpl.
  - intros [= <-]. split; [| split; [done |]].
    + intros q. split; [by left |].
      intros [? | (_ & r & c & []%elem_of_nil & _)]. done.
    + exists []. by rewrite app_nil_r.
  - destruct (Svcutil.addCidrs _ _ _ _) as [mid | e |] eqn:Hcidrs; simpl; try discriminate.
    intros Hrest.
    apply addCidrs_spec in Hcidrs as (Hm1 & Hn1 & e1 & ->).
    apply IH in Hrest as (Hm2 & Hn2 & e2 & ->).
    split; [| split; [by auto | exists (e1 ++ e2); by rewrite app_assoc]].
    intros q. rewrite Hm2, Hm1. unfold Svcutil.advertised. split.
    + intros [[? | (Hq & c & Hc & Hp)] | (Hq & r & c & Hr & Hc & Hp)].
      * by left.
      * right. split; [done |]. exists route, c. split; [by left | done].
      * right. split; [done |]. exists r, c. split; [by right | done].
    + intros [? | (Hq & r & c & [-> | Hr]%elem_of_cons & Hc & Hp)].
      * left. by left.
      * left. right. split; [done |]. by exists c.
      * right. split; [done |]. by exists r, c.
Qed.

(** The route step of a node [id], seen from the requesting node that
    advertises [thisRoutes]: with routes of its own the node gets its
    advertised prefixes into [allowedIPs], except those [thisRoutes] has, and
    [allowedRoutes] stays; with none, [allowedIPs] stays and [thisRoutes] are
    merged into [allowedRoutes]. *)
Lemma routeStep_spec (nw : Networking) (thisRoutes : list Prefix) (id : string)
    (ips rts ips' rts' : list Prefix) :
  routeStep nw thisRoutes id ips rts = Ok (ips', rts') ->
  exists routes, GetRoutesByNode nw id = ROk routes
    /\ (routes <> [] ->
         rts' = rts
         /\ (forall q, q ∈ ips' <-> q ∈ ips \/ ((q ∉ thisRoutes) /\ advertised routes q)))
    /\ (routes = [] -> ips' = ips /\ rts' = mergeMissing rts thisRoutes)
    /\ (NoDup ips -> NoDup ips')
    /\ (exists ext, ips' = ips ++ ext)
    /\ (exists ext, rts' = rts ++ ext)
    /\ (forall q, q ∈ ips' -> q ∈ ips \/ q ∉ thisRoutes)
    /\ (forall q, q ∈ rts' -> q ∈ rts \/ q ∈ thisRoutes)
    /\ (NoDup rts -> NoDup rts').
Proof.
  unfold Svcutil.routeStep.
  destruct (GetRoutesByNode nw id) as [routes | e]; simpl; [| discriminate].
  intros H. exists routes. split; [done |].
  destruct routes as [| r routes].
  - rewrite bool_decide_false in H by (simpl; lia).
    assert (rts' = mergeMissing rts thisRoutes /\ ips' = ips) as [-> ->].
    { destruct thisRoutes; simpl in H; by injection H as <- <-. }
    split; [done |]. split; [done |]. split; [done |].
    split; [exists []; by rewrite app_nil_r |].
    split; [apply mergeMissing_extends |].
    split; [by left |].
    split; [intros q; by rewrite mergeMissing_elem_of | apply mergeMissing_NoDup].
  - rewrite bool_decide_true in H by (simpl; lia).
    destruct (Svcutil.addRoutes _ _ _ _) as [out | e |] eqn:Hadd; simpl in H;
      try discriminate.
    injection H as <- <-.
    apply addRoutes_spec in Hadd as (Hmem & Hnd & Hext).
    split; [done |]. split; [done |]. split; [done |]. split; [done |].
    split; [exists []; by rewrite app_nil_r |].
    split; [| split; [by left | done]].
    intros q Hq. apply Hmem in Hq. naive_solver.
Qed.

(** *** The traversal returns: fuel *)

Lemma addCidrs_not_OutOfFuel (thisRoutes : list Prefix) (cidrs : list string)
    (ips : list Prefix) :
  addCidrs thisRoutes cidrs ips <> OutOfFuel.
Proof.
  revert ips. induction cidrs as [| c cidrs IH]; intros ips; simpl; [done |].
  destruct (ParsePrefix c); simpl; [apply IH | done].
Qed.

Lemma addRoutes_not_OutOfFuel (thisRoutes : list Prefix) (routes : list Route)
    (ips : list Prefix) :
  addRoutes thisRoutes routes ips <> OutOfFuel.
Proof.
  revert ips. induction routes as [| r routes IH]; intros ips; simpl; [done |].
  destruct (Svcutil.addCidrs _ _ _ _) eqn:Hc; simpl; [apply IH | done |].
  by apply addCidrs_not_OutOfFuel in Hc.
Qed.

Lemma routeStep_not_OutOfFuel (nw : Networking) (thisRoutes : list Prefix)
    (id : string) (ips rts : list Prefix) :
  routeStep nw thisRoutes id ips rts <> OutOfFuel.
Proof.
  unfold Svcutil.routeStep. destruct (GetRoutesByNode nw id); simpl; [| done].
  repeat case_bool_decide; try done.
  destruct (Svcutil.addRoutes _ _ _ _) eqn:Ha; simpl; [done | done |].
  by apply addRoutes_not_OutOfFuel in Ha.
Qed.

Lemma elem_of_allTargets (adj : AdjacencyMap) (k t : string) :
  t ∈ adjacents adj k -> t ∈ allTargets adj.
Proof.
  unfold adjacents, allTargets. destruct (adj !! k) as [l |] eqn:Hk; simpl.
  - intros Ht. apply elem_of_list_to_set, list_elem_of_In, in_concat.
    exists l. split; [| by apply list_elem_of_In].
    apply list_elem_of_In, list_elem_of_fmap. exists (k, l). split; [done |].
    by apply elem_of_map_to_list.
  - by intros ?%elem_of_nil.
Qed.

Lemma eachTarget_fuel
    (recurse : Node -> gset string -> Res (gset string * list Prefix * list Prefix))
    (nw : Networking) (graph : Graph) (thisPeer : string) (thisRoutes : list Prefix)
    (directAdjacents : list string) (universe : gset string) (fuel : nat)
    (targets : list string) (visited : gset string) (ips rts : list Prefix) :
  (forall n v, size (universe ∖ ({[ID n]} ∪ v)) < fuel ->
               returnsGrowing ({[ID n]} ∪ v) (recurse n v))%nat ->
  (forall t, t ∈ targets -> t ∈ universe) ->
  (size (universe ∖ visited) <= fuel)%nat ->
  returnsGrowing visited
    (eachTarget recurse nw graph thisPeer thisRoutes directAdjacents
       targets visited ips rts).
Proof.
  intros Hrec. revert visited ips rts.
  induction targets as [| t targets IH]; intros visited ips rts Huni Hsize; simpl.
  - done.
  - assert (Hrest : forall t', t' ∈ targets -> t' ∈ universe)
      by (intros t' Ht'; apply Huni; by right).
    destruct (bool_decide (t = thisPeer)); [by apply IH |].
    destruct (bool_decide (t ∈ directAdjacents)); [by apply IH |].
    case_bool_decide as Hvis; [by apply IH |].
    destruct (Vertex graph t) as [n | e] eqn:Hv; simpl; [| done].
    apply Vertex_ID in Hv as [Hid _].
    destruct (Svcutil.routeStep _ _ _ _ _ _) as [[ips' rts'] | e |] eqn:Hstep; simpl;
      [| done |].
    2:{ by apply routeStep_not_OutOfFuel in Hstep. }
    assert (Hstrict : (size (universe ∖ ({[t]} ∪ visited)) < size (universe ∖ visited))%nat).
    { apply subset_size. assert (t ∈ universe) by (apply Huni; by left). set_solver. }
    specialize (Hrec n ({[t]} ∪ visited)). rewrite Hid in Hrec.
    assert (Hcall : returnsGrowing ({[t]} ∪ ({[t]} ∪ visited)) (recurse n ({[t]} ∪ visited))).
    { apply Hrec. replace ({[t]} ∪ ({[t]} ∪ visited)) with ({[t]} ∪ visited) by set_solver.
      lia. }
    destruct (recurse n ({[t]} ∪ visited)) as [[[v' eips] erts] | e |]; simpl in *;
      [| done | done].
    assert (Hsub : visited ⊆ v') by set_solver.
    specialize (IH v' (mergeMissing ips' eips) (mergeMissing rts' erts) Hrest).
    assert (Hle : (size (universe ∖ v') <= fuel)%nat).
    { etrans; [| exact Hsize]. apply subseteq_size. set_solver. }
    specialize (IH Hle).
    destruct (Svcutil.eachTarget _ _ _ _ _ _ _ _ _ _ _) as [[[v'' ?] ?] | ? |];
      simpl in *; [set_solver | done | done].
Qed.

Lemma recurseEdges_returns (nw : Networking) (graph : Graph) (adj : AdjacencyMap)
    (thisPeer : string) (thisRoutes : list Prefix) (fuel : nat)
    (node : Node) (visited : gset string) :
  (size (allTargets adj ∖ ({[ID node]} ∪ visited)) < fuel)%nat ->
  returnsGrowing ({[ID node]} ∪ visited)
    (recurseEdges fuel nw graph adj thisPeer thisRoutes node visited).
Proof.
  revert node visited. induction fuel as [| fuel IH]; intros node visited Hsize; [lia |].
  simpl. apply (eachTarget_fuel _ _ _ _ _ _ (allTargets adj) fuel).
  - exact IH.
  - intros t Ht. by apply elem_of_allTargets in Ht.
  - lia.
Qed.

(** With the fuel [recursePeers] gives it, the traversal never runs out. *)
Lemma recurseEdges_fuel (nw : Networking) (graph : Graph) (adj : AdjacencyMap)
    (thisPeer : string) (thisRoutes : list Prefix) (node : Node) :
  recurseEdges (traversalFuel adj) nw graph adj thisPeer thisRoutes node ∅ <> OutOfFuel.
Proof.
  pose proof (recurseEdges_returns nw graph adj thisPeer thisRoutes
                (traversalFuel adj) node ∅) as H.
  intros Heq. rewrite Heq in H. apply H. unfold traversalFuel.
  apply Nat.lt_succ_r, subseteq_size. set_solver.
Qed.

(** *** What the traversal collects *)

Lemma eachTarget_sound
    (recurse : Node -> gset string -> Res (gset string * list Prefix * list Prefix))
    (nw : Networking) (graph : Graph) (thisPeer : string) (thisRoutes : list Prefix)
    (directAdjacents : list string)
    (targets : list string) (visited visited' : gset string)
    (ips rts ips' rts' : list Prefix) :
  (forall n v v' eips erts, recurse n v = Ok (v', eips, erts) ->
     soundLists graph thisRoutes eips erts) ->
  soundLists graph thisRoutes ips rts ->
  eachTarget recurse nw graph thisPeer thisRoutes directAdjacents
    targets visited ips rts = Ok (visited', ips', rts') ->
  soundLists graph thisRoutes ips' rts'.
Proof.
  intros Hrec. revert visited ips rts.
  induction targets as [| t targets IH]; intros visited ips rts Hin; simpl.
  - by intros [= <- <- <-].
  - destruct (bool_decide (t = thisPeer)); [by apply IH |].
    destruct (bool_decide (t ∈ directAdjacents)); [by apply IH |].
    destruct (bool_decide (t ∈ visited)); [by apply IH |].
    destruct (Vertex graph t) as [n | e] eqn:Hv; simpl; [| done].
    apply Vertex_ID in Hv as [_ Hn].
    destruct (Svcutil.routeStep _ _ _ _ _ _) as [[ips1 rts1] | e |] eqn:Hstep; simpl;
      [| done | done].
    destruct (recurse n _) as [[[v1 eips] erts] | e |] eqn:Hcall; simpl; [| done | done].
    apply IH.
    apply routeStep_spec in Hstep as (_ & _ & _ & _ & _ & _ & _ & Hi & Hr & _).
    apply Hrec in Hcall as [Hei Her]. destruct Hin as [Hii Hir]. split.
    + intros q [Hq | Hq]%mergeMissing_elem_of; [| by apply Hei].
      apply Hi in Hq as [Hq | Hq]; [| by right].
      apply appendAddresses_elem_of in Hq as [Hq | Hq]; [by apply Hii |].
      left. by exists n.
    + intros q [Hq | Hq]%mergeMissing_elem_of; [| by apply Her].
      apply Hr in Hq as [Hq | Hq]; [by apply Hir | done].
Qed.

Lemma recurseEdges_sound (nw : Networking) (graph : Graph) (adj : AdjacencyMap)
    (thisPeer : string) (thisRoutes : list Prefix) (fuel : nat)
    (node : Node) (visited visited' : gset string) (ips rts : list Prefix) :
  recurseEdges fuel nw graph adj thisPeer thisRoutes node visited
  = Ok (visited', ips, rts) ->
  soundLists graph thisRoutes ips rts.
Proof.
  revert node visited visited' ips rts.
  induction fuel as [| fuel IH]; intros node visited visited' ips rts; [done |].
  simpl. apply eachTarget_sound.
  - intros n v v' eips erts. apply IH.
  - split; by intros q ?%elem_of_nil.
Qed.

Lemma recurseEdges_S (nw : Networking) (graph : Graph) (adj : AdjacencyMap)
    (thisPeer : string) (thisRoutes : list Prefix) (fuel : nat)
    (node : Node) (visited : gset string) :
  recurseEdges (S fuel) nw graph adj thisPeer thisRoutes node visited
  = eachTarget (recurseEdges fuel nw graph adj thisPeer thisRoutes)
      nw graph thisPeer thisRoutes (adjacents adj thisPeer)
      (adjacents adj (ID node)) ({[ID node]} ∪ visited) [] [].
Proof. reflexivity. Qed.

#[local] Arguments Svcutil.recurseEdges : simpl never.

(** The three steps of [recursePeers], read off a successful call. *)
Lemma recursePeers_inv (nw : Networking) (graph : Graph) (adj : AdjacencyMap)
    (thisPeer : string) (thisRoutes : list Prefix) (node : Node)
    (ips rts : list Prefix) :
  recursePeers nw graph adj thisPeer thisRoutes node = Ok (ips, rts) ->
  exists ips0 rts0 visited edgeIPs edgeRoutes,
    routeStep nw thisRoutes (ID node) (appendAddresses [] node) [] = Ok (ips0, rts0)
    /\ recurseEdges (traversalFuel adj) nw graph adj thisPeer thisRoutes node ∅
       = Ok (visited, edgeIPs, edgeRoutes)
    /\ ips = mergeMissing ips0 edgeIPs
    /\ rts = mergeMissing rts0 edgeRoutes.
Proof.
  unfold Svcutil.recursePeers.
  destruct (Svcutil.routeStep _ _ _ _ _ _) as [[ips0 rts0] | e |] eqn:Hstep; simpl;
    [| done | done].
  destruct (Svcutil.recurseEdges _ _ _ _ _ _ _ _ _) as [[[v eips] erts] | e |] eqn:Hrec;
    simpl; [| done | done].
  intros [= <- <-]. by exists ips0, rts0, v, eips, erts.
Qed.

Lemma recursePeers_not_OutOfFuel (nw : Networking) (graph : Graph) (adj : AdjacencyMap)
    (thisPeer : string) (thisRoutes : list Prefix) (node : Node) :
  recursePeers nw graph adj thisPeer thisRoutes node <> OutOfFuel.
Proof.
  unfold Svcutil.recursePeers.
  destruct (Svcutil.routeStep _ _ _ _ _ _) as [[ips0 rts0] | e |] eqn:Hstep; simpl;
    [| done | by apply routeStep_not_OutOfFuel in Hstep].
  destruct (Svcutil.recurseEdges _ _ _ _ _ _ _ _ _) as [[[v eips] erts] | e |] eqn:Hrec;
    simpl; [done | done |].
  by apply recurseEdges_fuel in Hrec.
Qed.

(** C10 (amended). In a peer entry produced by [recursePeers] the allowed
    routes never hold a prefix twice, and the allowed addresses hold no
    prefix twice exactly when the two address fields of the peer do not hold
    the same valid prefix (its own addresses are the only ones appended
    without a membership check). *)
Theorem recursePeers_no_duplicates (nw : Networking) (graph : Graph)
    (adj : AdjacencyMap) (thisPeer : string) (thisRoutes : list Prefix)
    (node : Node) (ips rts : list Prefix) :
  recursePeers nw graph adj thisPeer thisRoutes node = Ok (ips, rts) ->
  NoDup rts
  /\ (NoDup ips <->
      (IsValid (PrivateIPv4 node) = true -> PrivateIPv4 node <> NetworkIPv6 node)).
Proof.
  intros (ips0 & rts0 & v & eips & erts & Hstep & _ & -> & ->)%recursePeers_inv.
  apply routeStep_spec in Hstep
    as (routes & _ & _ & _ & Hnd & [e1 ->] & _ & _ & _ & Hndr).
  split.
  - apply mergeMissing_NoDup, Hndr, NoDup_nil_2.
  - rewrite <- appendAddresses_NoDup. split.
    + destruct (mergeMissing_extends (appendAddresses [] node ++ e1) eips) as [e2 ->].
      rewrite <- app_assoc. by intros [? _]%NoDup_app.
    + intros Hown. by apply mergeMissing_NoDup, Hnd.
Qed.

(** *** The peer list *)

Context (PrefixString : Prefix -> string).

Abbreviation eachAdjacent := (Svcutil.eachAdjacent ParsePrefix PrefixString).
Abbreviation WireGuardPeersFor := (Svcutil.WireGuardPeersFor ParsePrefix PrefixString).

Lemma parseCidrs_not_OutOfFuel (cidrs : list string) (acc : list Prefix) :
  Svcutil.parseCidrs ParsePrefix cidrs acc <> OutOfFuel.
Proof.
  revert acc. induction cidrs as [| c cidrs IH]; intros acc; simpl; [done |].
  destruct (ParsePrefix c); simpl; [apply IH | done].
Qed.

Lemma parseRoutes_not_OutOfFuel (routes : list Route) (acc : list Prefix) :
  Svcutil.parseRoutes ParsePrefix routes acc <> OutOfFuel.
Proof.
  revert acc. induction routes as [| r routes IH]; intros acc; simpl; [done |].
  destruct (Svcutil.parseCidrs _ _ _) eqn:Hc; simpl; [apply IH | done |].
  by apply parseCidrs_not_OutOfFuel in Hc.
Qed.

Lemma eachAdjacent_not_OutOfFuel (nw : Networking) (graph : Graph) (adj : AdjacencyMap)
    (peerID : string) (ourRoutes : list Prefix) (das : list string)
    (out : list WireGuardPeer) :
  eachAdjacent nw graph adj peerID ourRoutes das out <> OutOfFuel.
Proof.
  revert out. induction das as [| a das IH]; intros out; simpl; [done |].
  destruct (Vertex graph a); simpl; [| done].
  destruct (Svcutil.recursePeers _ _ _ _ _ _ _) as [[ips rts] | e |] eqn:Hp; simpl;
    [apply IH | done |].
  by apply recursePeers_not_OutOfFuel in Hp.
Qed.

(** The peers are the direct adjacents, one entry each, in iteration order. *)
Lemma eachAdjacent_ids (nw : Networking) (graph : Graph) (adj : AdjacencyMap)
    (peerID : string) (ourRoutes : list Prefix) (das : list string)
    (out0 out : list WireGuardPeer) :
  eachAdjacent nw graph adj peerID ourRoutes das out0 = Ok out ->
  Id <$> out = (Id <$> out0) ++ das.
Proof.
  revert out0. induction das as [| a das IH]; intros out0; simpl.
  - intros [= <-]. by rewrite app_nil_r.
  - destruct (Vertex graph a) as [n | e] eqn:Hv; simpl; [| done].
    apply Vertex_ID in Hv as [Hid _].
    destruct (Svcutil.recursePeers _ _ _ _ _ _ _) as [[ips rts] | e |]; simpl;
      [| done | done].
    intros Hrest. apply IH in Hrest. rewrite Hrest, fmap_app. simpl.
    by rewrite Hid, <- app_assoc.
Qed.

(** WireGuardPeersFor always returns: a list or an error. *)
Lemma WireGuardPeersFor_returns (nw : Networking) (graph : Graph) (peerID : string) :
  WireGuardPeersFor nw graph peerID <> OutOfFuel.
Proof.
  unfold Svcutil.WireGuardPeersFor.
  destruct (FilterGraph nw graph peerID); simpl; [| done].
  destruct (GetRoutesByNode nw peerID); simpl; [| done].
  destruct (Svcutil.parseRoutes _ _ _) eqn:Hparse; simpl;
    [apply eachAdjacent_not_OutOfFuel | done |].
  by apply parseRoutes_not_OutOfFuel in Hparse.
Qed.


(** *** The chain scenario *)

Lemma routeStep_no_routes (nw : Networking) (id : string) (ips rts : list Prefix) :
  GetRoutesByNode nw id = ROk [] -> routeStep nw [] id ips rts = Ok (ips, rts).
Proof. unfold Svcutil.routeStep. by intros ->. Qed.

Lemma allTargets_size_pos (adj : AdjacencyMap) (k t : string) :
  t ∈ adjacents adj k -> exists fuel, traversalFuel adj = S (S fuel).
Proof.
  intros Ht%elem_of_allTargets. unfold traversalFuel.
  destruct (size (allTargets adj)) as [| n] eqn:Hsize; [| by exists n].
  apply size_empty_iff in Hsize. set_solver.
Qed.

(** A node [me] whose only adjacent is [mid], with [far] on the other side
    of [mid] and no routes anywhere: the entry of [mid] holds the addresses
    of [mid] and then those of [far], whichever way the adjacents of [mid]
    are iterated. *)
Lemma relay_through_middle (nw : Networking) (graph : Graph) (adj : AdjacencyMap)
    (me : string) (midN farN : Node) :
  (forall id, GetRoutesByNode nw id = ROk []) ->
  adjacents adj me = [ID midN] ->
  (adjacents adj (ID midN) = [me; ID farN] \/ adjacents adj (ID midN) = [ID farN; me]) ->
  adjacents adj (ID farN) = [ID midN] ->
  me <> ID midN -> me <> ID farN -> ID midN <> ID farN ->
  Vertex graph (ID farN) = ROk farN ->
  recursePeers nw graph adj me [] midN
  = Ok (mergeMissing (appendAddresses [] midN) (appendAddresses [] farN), []).
Proof.
  intros Hroutes Hme Hmid Hfar Hne1 Hne2 Hne3 Hv.
  unfold Svcutil.recursePeers. rewrite routeStep_no_routes by done. simpl.
  destruct (allTargets_size_pos adj me (ID midN)) as [fuel ->];
    [rewrite Hme; by left |].
  assert (Hinner : forall visited,
            recurseEdges (S fuel) nw graph adj me [] farN visited
            = Ok ({[ID farN]} ∪ visited, [], [])).
  { intros visited. rewrite recurseEdges_S, Hme, Hfar. simpl.
    rewrite bool_decide_false by done.
    rewrite bool_decide_true by (by left). done. }
  assert (Hvisit : forall rest visited,
            ID farN ∉ visited ->
            eachTarget (recurseEdges (S fuel) nw graph adj me []) nw graph me []
              [ID midN] (ID farN :: rest) visited [] []
            = eachTarget (recurseEdges (S fuel) nw graph adj me []) nw graph me []
                [ID midN] rest ({[ID farN]} ∪ ({[ID farN]} ∪ visited))
                (appendAddresses [] farN) []).
  { intros rest visited Hnv. simpl.
    rewrite (bool_decide_false (ID farN = me)) by done.
    rewrite (bool_decide_false (ID farN ∈ [ID midN]))
      by (intros ?%list_elem_of_singleton; done).
    rewrite (bool_decide_false (ID farN ∈ visited)) by done.
    rewrite Hv. simpl. rewrite routeStep_no_routes by done. simpl.
    rewrite Hinner. done. }
  assert (Hskip : forall rest visited ips rts,
            eachTarget (recurseEdges (S fuel) nw graph adj me []) nw graph me []
              [ID midN] (me :: rest) visited ips rts
            = eachTarget (recurseEdges (S fuel) nw graph adj me []) nw graph me []
                [ID midN] rest visited ips rts).
  { intros rest visited ips rts. simpl. by rewrite bool_decide_true. }
  rewrite recurseEdges_S, Hme.
  destruct Hmid as [-> | ->].
  - rewrite Hskip, Hvisit by set_solver. done.
  - rewrite Hvisit, Hskip by set_solver. done.
Qed.

(** C5. The chain A — B — C (edges A→B and B→C, put in either order) under
    an allow-all ACL, no routes: the peers of A are the single entry B, whose
    allowed addresses hold the private addresses of B and of C; the peers of
    C are the single entry B, whose allowed addresses hold those of B and
    of A. *)
Theorem chain_relay_reachability (a b c : Node) (chainEdges : list (string * string)) :
  ID a = "A" -> ID b = "B" -> ID c = "C" ->
  chainEdges ≡ₚ [("A", "B"); ("B", "C")] ->
  let graph := {| vertices := [a; b; c]; edges := chainEdges |} in
  let nw := {| FilterGraph := allowAllFilterGraph;
               GetRoutesByNode := fun _ => ROk [] |} in
  (exists peerB,
      WireGuardPeersFor nw graph "A" = Ok [peerB]
      /\ Id peerB = "B"
      /\ forall q, addressOf b q \/ addressOf c q -> PrefixString q ∈ AllowedIps peerB)
  /\ (exists peerB,
        WireGuardPeersFor nw graph "C" = Ok [peerB]
        /\ Id peerB = "B"
        /\ forall q, addressOf b q \/ addressOf a q -> PrefixString q ∈ AllowedIps peerB).
Proof.
  intros Ha Hb Hc Hperm graph nw.
  destruct a as [ida ? ? ? ? a4 a6], b as [idb ? ? ? ? b4 b6], c as [idc ? ? ? ? c4 c6].
  simpl in Ha, Hb, Hc. subst ida idb idc.
  assert (HadjA : adjacents (adjacencyOf graph) "A" = ["B"]
                  /\ adjacents (adjacencyOf graph) "C" = ["B"]
                  /\ (adjacents (adjacencyOf graph) "B" = ["A"; "C"]
                      \/ adjacents (adjacencyOf graph) "B" = ["C"; "A"])).
  { apply Permutation_sym, Permutation_length_2_inv in Hperm as [-> | ->];
      (split; [vm_compute; reflexivity | split; [vm_compute; reflexivity |]]).
    - left. vm_compute. reflexivity.
    - right. vm_compute. reflexivity. }
  destruct HadjA as (HA & HC & HB).
  assert (Hroutes : forall id, GetRoutesByNode nw id = ROk []) by done.
  split.
  - eexists. unfold Svcutil.WireGuardPeersFor. simpl. rewrite HA. simpl.
    match goal with |- context [Svcutil.recursePeers ?pp ?n ?g ?m ?me ?tr ?nd] =>
      rewrite (relay_through_middle n g m me nd
                 (mkNode "C" PublicKey2 PrimaryEndpoint2 WireGuardEndpoints2
                    ZoneAwarenessID2 c4 c6))
    end; [| done | done | destruct HB as [HB | HB]; [left | right]; exact HB
          | done | done | done | done | done].
    simpl. split; [reflexivity |]. split; [reflexivity |].
    intros q Hq. simpl. apply list_elem_of_fmap. exists q. split; [done |].
    apply mergeMissing_elem_of.
    destruct Hq as [Hq | Hq]; [left | right]; apply appendAddresses_elem_of; by right.
  - eexists. unfold Svcutil.WireGuardPeersFor. simpl. rewrite HC. simpl.
    match goal with |- context [Svcutil.recursePeers ?pp ?n ?g ?m ?me ?tr ?nd] =>
      rewrite (relay_through_middle n g m me nd
                 (mkNode "A" PublicKey0 PrimaryEndpoint0 WireGuardEndpoints0
                    ZoneAwarenessID0 a4 a6))
    end; [| done | done | destruct HB as [HB | HB]; [right | left]; exact HB
          | done | done | done | done | done].
    simpl. split; [reflexivity |]. split; [reflexivity |].
    intros q Hq. simpl. apply list_elem_of_fmap. exists q. split; [done |].
    apply mergeMissing_elem_of.
    destruct Hq as [Hq | Hq]; [left | right]; apply appendAddresses_elem_of; by right.
Qed.

End WithPrefixText.

(** The model against the repository's own test: the four expectations of
    the case "simple site-to-site" of TestWireGuardPeers. *)
Example TestWireGuardPeers_site_to_site :
  let peersFor id :=
    SvcutilExample.allowedIpsById
      (Svcutil.WireGuardPeersFor SvcutilExample.ParsePrefix SvcutilExample.PrefixString
         SvcutilExample.allowAll SvcutilExample.siteToSite id) in
  let p4 := SvcutilExample.p4 in
  let p6 := SvcutilExample.p6 in
  peersFor "site1-router"
  = [("site2-router", SvcutilExample.texts [p4 2; p6 2; p4 4; p6 4]);
     ("site1-follower", SvcutilExample.texts [p4 3; p6 3])]
  /\ peersFor "site2-router"
     = [("site1-router", SvcutilExample.texts [p4 1; p6 1; p4 3; p6 3]);
        ("site2-follower", SvcutilExample.texts [p4 4; p6 4])]
  /\ peersFor "site1-follower"
     = [("site1-router", SvcutilExample.texts [p4 1; p6 1; p4 2; p6 2; p4 4; p6 4])]
  /\ peersFor "site2-follower"
     = [("site2-router", SvcutilExample.texts [p4 2; p6 2; p4 1; p6 1; p4 3; p6 3])].
Proof. vm_compute. repeat split. Qed.





(** C5, with the addresses 172.16.0.x/32 and 2001:db8::x/128. *)
Lemma chain_relay_reachability_witness :
  (exists peerB,
      Svcutil.WireGuardPeersFor SvcutilExample.ParsePrefix SvcutilExample.PrefixString
        SvcutilExample.allowAll SvcutilExample.chainGraph "A" = Ok [peerB]
      /\ Id peerB = "B"
      /\ forall q, addressOf (SvcutilExample.node "B" 2) q
                   \/ addressOf (SvcutilExample.node "C" 3) q ->
                   SvcutilExample.PrefixString q ∈ AllowedIps peerB)
  /\ (exists peerB,
        Svcutil.WireGuardPeersFor SvcutilExample.ParsePrefix SvcutilExample.PrefixString
          SvcutilExample.allowAll SvcutilExample.chainGraph "C" = Ok [peerB]
        /\ Id peerB = "B"
        /\ forall q, addressOf (SvcutilExample.node "B" 2) q
                     \/ addressOf (SvcutilExample.node "A" 1) q ->
                     SvcutilExample.PrefixString q ∈ AllowedIps peerB).
Proof.
  exact (chain_relay_reachability SvcutilExample.ParsePrefix SvcutilExample.PrefixString
           (SvcutilExample.node "A" 1) (SvcutilExample.node "B" 2)
           (SvcutilExample.node "C" 3) [("A", "B"); ("B", "C")]
           eq_refl eq_refl eq_refl (Permutation_refl _)).
Defined.

(** C10 as stated fails for a peer whose two address fields hold the same
    prefix: both are appended, without a membership check. *)
Lemma recursePeers_duplicate_address :
  ~ (forall (nw : Networking) (graph : Graph) (adj : AdjacencyMap) (thisPeer : string)
            (thisRoutes : list Prefix) (node : Node) (ips rts : list Prefix),
       Svcutil.recursePeers SvcutilExample.ParsePrefix nw graph adj thisPeer thisRoutes node
       = Ok (ips, rts) ->
       NoDup ips /\ NoDup rts).
Proof.
  intros H.
  destruct (H SvcutilExample.allowAll
              {| vertices := [SvcutilExample.twin]; edges := [] |} ∅ "me" []
              SvcutilExample.twin [SvcutilExample.p4 9; SvcutilExample.p4 9] [])
    as [Hdup _].
  - vm_compute. reflexivity.
  - apply NoDup_cons in Hdup as [Hnotin _]. apply Hnotin. by left.
Qed.

(** C10 (amended), for the entry of B in the peers of A on the chain. *)
Lemma recursePeers_no_duplicates_witness :
  let ips := [SvcutilExample.p4 2; SvcutilExample.p6 2;
              SvcutilExample.p4 3; SvcutilExample.p6 3] in
  Svcutil.recursePeers SvcutilExample.ParsePrefix SvcutilExample.allowAll
    SvcutilExample.chainGraph (adjacencyOf SvcutilExample.chainGraph) "A" []
    (SvcutilExample.node "B" 2) = Ok (ips, [])
  /\ NoDup (A := Prefix) []
  /\ (NoDup ips <->
      (IsValid (PrivateIPv4 (SvcutilExample.node "B" 2)) = true ->
       PrivateIPv4 (SvcutilExample.node "B" 2) <> NetworkIPv6 (SvcutilExample.node "B" 2))).
Proof.
  intros ips.
  assert (H : Svcutil.recursePeers SvcutilExample.ParsePrefix SvcutilExample.allowAll
                SvcutilExample.chainGraph (adjacencyOf SvcutilExample.chainGraph) "A" []
                (SvcutilExample.node "B" 2) = Ok (ips, []))
    by (vm_compute; reflexivity).
  split; [exact H |].
  exact (recursePeers_no_duplicates SvcutilExample.ParsePrefix SvcutilExample.allowAll
           SvcutilExample.chainGraph (adjacencyOf SvcutilExample.chainGraph) "A" []
           (SvcutilExample.node "B" 2) ips [] H).
Defined.

End SvcutilProofs.

(** ** More on the state machine: errors, replay, batches *)
Module FsmMore.
Import Fsm.

Section Proofs.

Context {SubStores RaftLogEntry : Type}.
Context (protojson_Unmarshal proto_Unmarshal : list Byte.byte -> RaftLogEntry + string).
Context (snappy_Decode : list Byte.byte -> list Byte.byte + string).
Context (apply : Log -> RaftLogEntry -> SubStores -> SubStores * RaftApplyResponse).
Context (elapsed : string).

Abbreviation Apply :=
  (Fsm.Apply SubStores RaftLogEntry protojson_Unmarshal proto_Unmarshal
     snappy_Decode apply elapsed).
Abbreviation ApplyBatch :=
  (Fsm.ApplyBatch SubStores RaftLogEntry protojson_Unmarshal proto_Unmarshal
     snappy_Decode apply elapsed).
Abbreviation decode :=
  (Fsm.decode RaftLogEntry protojson_Unmarshal proto_Unmarshal snappy_Decode).
Abbreviation store := (Fsm.store SubStores).

(** The local database after an entry went through the guard: the row of
    the entry, when the write succeeds. *)
Lemma localDB_after_save (s' : store) (l : Log) (ci : Z) :
  ci < Index l -> write_fault (localDB s') = None ->
  localDB (storeRaftIndex SubStores l (saveIndex SubStores ci l s'))
  = {| raft_index := Some {| RowTerm := int64 (Term l); LogIndex := int64 (Index l) |};
       read_fault := read_fault (localDB s');
       write_fault := None |}.
Proof.
  intros Hlt Hw. unfold saveIndex, storeRaftIndex, SetCurrentRaftIndex.
  rewrite bool_decide_true by lia. by rewrite Hw.
Qed.

Lemma applied_read (s : store) (l : Log) :
  applied s l ->
  exists ct ci, getDBTermAndIndex s = inl (ct, ci) /\ ct <= Term l /\ ci < Index l.
Proof.
  intros (Hr & _ & Hfresh). exists (fst (persisted s)), (snd (persisted s)).
  unfold stale in Hfresh. split; [| lia].
  unfold getDBTermAndIndex, GetCurrentRaftIndex, persisted. rewrite Hr.
  by destruct (raft_index (localDB s)).
Qed.

(** The state an applied entry leaves: the local database holds the row of
    the entry; the sub-stores are those of [s] unless the entry is a command
    that decodes. *)
Lemma Apply_applied (s : store) (l : Log) :
  applied s l ->
  localDB (fst (Apply s l))
  = {| raft_index := Some {| RowTerm := int64 (Term l); LogIndex := int64 (Index l) |};
       read_fault := None; write_fault := None |}
  /\ (Type_ l <> LogCommand -> Apply s l
        = (storeRaftIndex SubStores l
             (saveIndex SubStores (snd (persisted s)) l s),
           {| Time := elapsed; Error := "" |}))
  /\ (forall e, Type_ l = LogCommand -> decode (raftLogFormat s) (Data l) = inr e ->
        Apply s l
        = (storeRaftIndex SubStores l
             (saveIndex SubStores (snd (persisted s)) l s),
           {| Time := elapsed; Error := "unmarshal raft log entry: " +:+ e |})).
Proof.
  intros Happ. destruct (applied_read s l Happ) as (ct & ci & Hread & Ht & Hi).
  destruct Happ as (Hr & Hw & _).
  pose proof (FsmProofs.getDBTermAndIndex_persisted s ct ci Hread) as Hp.
  rewrite Hp. simpl. unfold Fsm.Apply. rewrite Hread.
  destruct (Z.ltb_spec (Term l) ct) as [? | _]; [lia |].
  destruct (Z.leb_spec (Index l) ci) as [? | _]; [lia |].
  assert (Hdb : forall s', localDB s' = localDB s ->
            localDB (storeRaftIndex SubStores l (saveIndex SubStores ci l s'))
            = {| raft_index := Some {| RowTerm := int64 (Term l);
                                       LogIndex := int64 (Index l) |};
                 read_fault := None; write_fault := None |}).
  { intros s' Hs'. rewrite localDB_after_save by (rewrite ?Hs'; done).
    by rewrite Hs', Hr. }
  case_bool_decide as Hty.
  - split; [by apply Hdb |]. split; [done |]. intros e Hcmd. done.
  - destruct (decode _ _) as [cmd | e'] eqn:Hdec.
    + destruct (apply l cmd (data s)) as [d resp]. split; [by apply Hdb |].
      split; [done |]. intros e _ [=].
    + split; [by apply Hdb |]. split; [done |]. by intros e _ [= ->].
Qed.

(** X1. An unreadable checkpoint is fatal for the entry: when the read of
    the raft_index row fails (other than with no rows), Apply answers with
    the error of the read and touches neither the sub-stores nor the local
    database — whatever the entry is. *)
Theorem Apply_unreadable_checkpoint (s : store) (l : Log) (e : string) :
  read_fault (localDB s) = Some e ->
  Error (snd (Apply s l)) = "check last applied index: get raft state: " +:+ e
  /\ data (fst (Apply s l)) = data s
  /\ localDB (fst (Apply s l)) = localDB s.
Proof.
  intros Hr. unfold Fsm.Apply, getDBTermAndIndex, GetCurrentRaftIndex. by rewrite Hr.
Qed.

(** X2. Idempotent replay: an entry that was applied (checkpoint readable
    and writable, entry not stale) is, when delivered again, answered with
    success and changes nothing: neither the sub-stores nor the checkpoint
    row. *)
Theorem Apply_replay_is_noop (s : store) (l : Log) :
  wf_log l -> applied s l ->
  let s1 := fst (Apply s l) in
  Apply s1 l = (storeRaftIndex SubStores l s1, {| Time := elapsed; Error := "" |})
  /\ data (fst (Apply s1 l)) = data s1
  /\ localDB (fst (Apply s1 l)) = localDB s1.
Proof.
  intros [Hi Ht] Happ s1.
  destruct (Apply_applied s l Happ) as [Hdb _]. fold s1 in Hdb.
  assert (Hread : getDBTermAndIndex s1 = inl (Term l, Index l)).
  { unfold getDBTermAndIndex, GetCurrentRaftIndex. rewrite Hdb. simpl.
    by rewrite !FsmProofs.uint64_int64. }
  assert (Hgo : Apply s1 l
                = (storeRaftIndex SubStores l s1, {| Time := elapsed; Error := "" |})).
  { unfold Fsm.Apply. rewrite Hread. rewrite Z.ltb_irrefl, Z.leb_refl. done. }
  rewrite Hgo. done.
Qed.

(** X3. An entry that is not a command (a heartbeat, a configuration
    change) and that the guard lets through on a checkpoint that reads as
    [(ct, ci)] is answered with success and leaves the sub-stores alone. Its
    position becomes the checkpoint when the write of the checkpoint
    succeeds; when that write fails, the answer is a success all the same
    and the checkpoint stays at [(ct, ci)]. *)
Theorem Apply_non_command_advances (s : store) (l : Log) (ct ci : Z) :
  wf_log l -> getDBTermAndIndex s = inl (ct, ci) -> ct <= Term l -> ci < Index l ->
  Type_ l <> LogCommand ->
  Error (snd (Apply s l)) = ""
  /\ data (fst (Apply s l)) = data s
  /\ persisted (fst (Apply s l))
     = match write_fault (localDB s) with
       | None => (Term l, Index l)
       | Some _ => (ct, ci)
       end.
Proof.
  intros Hwf Hread Ht Hi Hty.
  destruct (FsmProofs.Apply_past_guard protojson_Unmarshal proto_Unmarshal snappy_Decode
              apply elapsed s l ct ci Hwf Hread Ht Hi) as (_ & Hok & Hfail & Hnc & _).
  destruct (Hnc Hty) as [Herr Hdata]. split; [done |]. split; [done |].
  destruct (write_fault (localDB s)) as [e |] eqn:Hw.
  - rewrite <- (FsmProofs.getDBTermAndIndex_persisted s ct ci Hread).
    unfold persisted. by rewrite Hfail.
  - by destruct (Hok eq_refl).
Qed.

(** X4. The guard compares the index on its own: an entry of a newer term
    whose index is not above the checkpoint index is treated as already
    applied — success, no mutation, and the newer term is not recorded. *)
Theorem Apply_newer_term_old_index_is_skipped (s : store) (l : Log) (ct ci : Z) :
  getDBTermAndIndex s = inl (ct, ci) ->
  ct < Term l -> Index l <= ci ->
  Apply s l = (storeRaftIndex SubStores l s, {| Time := elapsed; Error := "" |})
  /\ persisted (fst (Apply s l)) = (ct, ci).
Proof.
  intros Hread Ht Hi.
  pose proof (FsmProofs.getDBTermAndIndex_persisted s ct ci Hread) as Hp.
  unfold Fsm.Apply. rewrite Hread.
  destruct (Z.ltb_spec (Term l) ct) as [? | _]; [lia |].
  destruct (Z.leb_spec (Index l) ci) as [_ | ?]; [| lia]. done.
Qed.

(** Apply changes the row of the local database only: what makes its
    queries fail is not in its hands. *)
Lemma Apply_faults (s : store) (l : Log) :
  read_fault (localDB (fst (Apply s l))) = read_fault (localDB s)
  /\ write_fault (localDB (fst (Apply s l))) = write_fault (localDB s).
Proof.
  assert (Hsave : forall ci s',
            read_fault (localDB (storeRaftIndex SubStores l (saveIndex SubStores ci l s')))
            = read_fault (localDB s')
            /\ write_fault (localDB (storeRaftIndex SubStores l
                                       (saveIndex SubStores ci l s')))
               = write_fault (localDB s')).
  { intros ci s'. unfold saveIndex, storeRaftIndex, SetCurrentRaftIndex.
    destruct (bool_decide _); [| done].
    by destruct (write_fault (localDB s')) eqn:Hw. }
  unfold Fsm.Apply. destruct (getDBTermAndIndex s) as [[ct ci] | e]; [| done].
  destruct (Term l <? ct); [done |]. destruct (Index l <=? ci); [done |].
  destruct (bool_decide _); [apply Hsave |].
  destruct (decode _ _) as [cmd | e]; [| apply Hsave].
  destruct (apply l cmd (data s)) as [d resp]. apply (Hsave ci (with_data SubStores s d)).
Qed.

(** What the guard does with an entry that is stale. *)
Lemma Apply_stale (s : store) (l : Log) :
  read_fault (localDB s) = None -> stale (persisted s) l ->
  Apply s l = (storeRaftIndex SubStores l s, {| Time := elapsed; Error := "" |}).
Proof.
  intros Hr Hstale. unfold Fsm.Apply. rewrite (FsmProofs.read_persisted s Hr).
  unfold stale in Hstale. destruct (persisted s) as [ct ci]. simpl in Hstale.
  destruct (Z.ltb_spec (Term l) ct) as [? | ?]; [done |].
  destruct (Z.leb_spec (Index l) ci) as [? | ?]; [done | lia].
Qed.

(** Once Apply has returned, on a local database that can be read and
    written, the entry is stale: skipped, it was stale before; let through,
    its own position is the checkpoint. *)
Lemma Apply_leaves_stale (s : store) (l : Log) :
  wf_log l -> read_fault (localDB s) = None -> write_fault (localDB s) = None ->
  stale (persisted (fst (Apply s l))) l.
Proof.
  intros Hwf Hr Hw.
  destruct (decide (stale (persisted s) l)) as [Hstale | Hfresh].
  - by rewrite (Apply_stale s l Hr Hstale).
  - unfold stale in Hfresh. destruct (persisted s) as [ct ci] eqn:Hp. simpl in Hfresh.
    pose proof (FsmProofs.read_persisted s Hr) as Hread. rewrite Hp in Hread.
    destruct (FsmProofs.Apply_past_guard protojson_Unmarshal proto_Unmarshal
                snappy_Decode apply elapsed s l ct ci Hwf Hread)
      as (_ & Hok & _); [lia.. |].
    destruct (Hok Hw) as [-> _]. unfold stale. simpl. lia.
Qed.

Lemma stale_mono (a b : Z * Z) (l : Log) : ckpt_le a b -> stale a l -> stale b l.
Proof. unfold ckpt_le, stale. lia. Qed.

Lemma ApplyBatch_faults (s : store) (logs : list Log) :
  read_fault (localDB (fst (ApplyBatch s logs))) = read_fault (localDB s)
  /\ write_fault (localDB (fst (ApplyBatch s logs))) = write_fault (localDB s).
Proof.
  revert s. induction logs as [| l logs IH]; intros s; [done |].
  rewrite FsmProofs.ApplyBatch_cons.
  destruct (IH (fst (Apply s l))) as [-> ->]. apply Apply_faults.
Qed.

(** After a batch, every entry of the batch is stale. *)
Lemma ApplyBatch_leaves_stale (s : store) (logs : list Log) :
  Forall wf_log logs ->
  read_fault (localDB s) = None -> write_fault (localDB s) = None ->
  Forall (stale (persisted (fst (ApplyBatch s logs)))) logs.
Proof.
  intros Hwf. revert s. induction Hwf as [| l logs Hl Hlogs IH]; intros s Hr Hw; [done |].
  rewrite FsmProofs.ApplyBatch_cons.
  destruct (Apply_faults s l) as [Hr1 Hw1]. rewrite Hr in Hr1. rewrite Hw in Hw1.
  constructor; [| by apply IH].
  apply (stale_mono (persisted (fst (Apply s l)))); [| by apply Apply_leaves_stale].
  by apply FsmProofs.ApplyBatch_checkpoint_le.
Qed.

(** A batch of stale entries: every answer is a success, and neither the
    sub-stores nor the local database change. *)
Lemma ApplyBatch_stale (s : store) (logs : list Log) :
  read_fault (localDB s) = None -> Forall (stale (persisted s)) logs ->
  snd (ApplyBatch s logs) = (fun _ => {| Time := elapsed; Error := "" |}) <$> logs
  /\ data (fst (ApplyBatch s logs)) = data s
  /\ localDB (fst (ApplyBatch s logs)) = localDB s.
Proof.
  intros Hr Hall. revert s Hr Hall.
  induction logs as [| l logs IH]; intros s Hr Hall; [done |].
  apply Forall_cons in Hall as [Hl Hlogs]. simpl.
  rewrite (Apply_stale s l Hr Hl).
  destruct (IH (storeRaftIndex SubStores l s) Hr Hlogs) as (Hresp & Hdata & Hdb).
  destruct (Fsm.ApplyBatch _ _ _ _ _ _ _ _ logs) as [s2 rs]. simpl in *.
  by rewrite Hresp.
Qed.

(** X5. Replaying a batch is a no-op: on a local database that can be read
    and written, when the entries of a batch that ApplyBatch has gone
    through are delivered again, in the same order, every one of them is
    answered with success and neither the sub-stores nor the local database
    change — whatever the entries were: stale, commands that were applied,
    commands that did not decode, or entries that are no commands. *)
Theorem ApplyBatch_replay_is_noop (s : store) (logs : list Log) :
  Forall wf_log logs ->
  read_fault (localDB s) = None -> write_fault (localDB s) = None ->
  let s1 := fst (ApplyBatch s logs) in
  snd (ApplyBatch s1 logs) = (fun _ => {| Time := elapsed; Error := "" |}) <$> logs
  /\ data (fst (ApplyBatch s1 logs)) = data s1
  /\ localDB (fst (ApplyBatch s1 logs)) = localDB s1.
Proof.
  intros Hwf Hr Hw s1. apply ApplyBatch_stale.
  - unfold s1. by rewrite (proj1 (ApplyBatch_faults s logs)).
  - by apply ApplyBatch_leaves_stale.
Qed.

(** X6. A command that does not decode, delivered twice. The guard having
    let it through on a checkpoint that reads as [(ct, ci)], the first
    delivery is answered with the decode error and leaves the sub-stores
    alone. If the write of the checkpoint succeeds, the position of the
    command is persisted all the same, and the second delivery is answered
    with success: the failure is reported once and not retried. If that
    write fails, the checkpoint stays, and the second delivery is decoded
    and refused again. The sub-stores never see the command. *)
Theorem Apply_undecodable_redelivered (s : store) (l : Log) (ct ci : Z) (e : string) :
  wf_log l -> getDBTermAndIndex s = inl (ct, ci) -> ct <= Term l -> ci < Index l ->
  Type_ l = LogCommand -> decode (raftLogFormat s) (Data l) = inr e ->
  let s1 := fst (Apply s l) in
  Error (snd (Apply s l)) = "unmarshal raft log entry: " +:+ e
  /\ data s1 = data s
  /\ (write_fault (localDB s) = None ->
      persisted s1 = (Term l, Index l)
      /\ Error (snd (Apply s1 l)) = ""
      /\ data (fst (Apply s1 l)) = data s)
  /\ (write_fault (localDB s) <> None ->
      persisted s1 = (ct, ci)
      /\ Error (snd (Apply s1 l)) = "unmarshal raft log entry: " +:+ e
      /\ data (fst (Apply s1 l)) = data s).
Proof.
  intros Hwf Hread Ht Hi Hty Hdec s1.
  destruct (FsmProofs.Apply_past_guard protojson_Unmarshal proto_Unmarshal snappy_Decode
              apply elapsed s l ct ci Hwf Hread Ht Hi) as (Hfmt & Hok & Hfail & _ & Hbad).
  destruct (Hbad e Hty Hdec) as [Herr Hdata]. fold s1 in Hfmt, Hok, Hfail, Hdata.
  split; [done |]. split; [done |]. split.
  - intros Hw. destruct (Hok Hw) as [Hp Hread1]. split; [done |].
    unfold Fsm.Apply. rewrite Hread1, Z.ltb_irrefl, Z.leb_refl. by simpl.
  - intros Hw. specialize (Hfail Hw).
    assert (Hread1 : getDBTermAndIndex s1 = inl (ct, ci)).
    { by rewrite (FsmProofs.getDBTermAndIndex_localDB s s1 Hfail). }
    split.
    { rewrite <- (FsmProofs.getDBTermAndIndex_persisted s ct ci Hread).
      unfold persisted. by rewrite Hfail. }
    destruct (FsmProofs.Apply_past_guard protojson_Unmarshal proto_Unmarshal
                snappy_Decode apply elapsed s1 l ct ci Hwf Hread1 Ht Hi)
      as (_ & _ & _ & _ & Hbad1).
    rewrite <- Hfmt in Hdec. destruct (Hbad1 e Hty Hdec) as [Herr1 Hdata1].
    split; [done | congruence].
Qed.

(** X7. A store that never persisted a checkpoint reads it as (0, 0): an
    entry of index 0 is skipped as already applied, and every entry of index
    1 or more goes through, its position being persisted when the write
    succeeds. *)
Theorem Apply_on_fresh_store (s : store) (l : Log) :
  wf_log l ->
  raft_index (localDB s) = None -> read_fault (localDB s) = None ->
  write_fault (localDB s) = None ->
  (Index l = 0 ->
     Apply s l = (storeRaftIndex SubStores l s, {| Time := elapsed; Error := "" |}))
  /\ (1 <= Index l -> persisted (fst (Apply s l)) = (Term l, Index l)).
Proof.
  intros [Hi Ht] Hrow Hr Hw.
  assert (Hread : getDBTermAndIndex s = inl (0, 0)).
  { unfold getDBTermAndIndex, GetCurrentRaftIndex. by rewrite Hr, Hrow. }
  split.
  - intros H0. unfold Fsm.Apply. rewrite Hread, H0.
    destruct (Z.ltb_spec (Term l) 0) as [? | _]; [unfold is_uint64 in Ht; lia | done].
  - intros H1.
    assert (Happ : applied s l).
    { split; [done |]. split; [done |]. unfold stale, persisted. rewrite Hrow. simpl.
      unfold is_uint64 in Ht. lia. }
    destruct (Apply_applied s l Happ) as [Hdb _].
    unfold persisted. rewrite Hdb. simpl. by rewrite !FsmProofs.uint64_int64.
Qed.

End Proofs.

Lemma example_applied (l : Log) :
  5 <= Term l -> 10 < Index l -> applied FsmExample.store0 l.
Proof.
  intros Ht Hi. split; [reflexivity |]. split; [reflexivity |].
  unfold stale. change (persisted FsmExample.store0) with (5, 10). simpl. lia.
Defined.

Lemma example_wf (i t : Z) (ty : LogType) (d : list Byte.byte) :
  0 <= i < 2 ^ 64 -> 0 <= t < 2 ^ 64 ->
  wf_log {| Index := i; Term := t; Type_ := ty; Data := d |}.
Proof. by split. Defined.

(** X1, on the store whose local database cannot be read. *)
Lemma Apply_unreadable_checkpoint_witness :
  read_fault (localDB FsmExample.brokenStore) = Some "disk I/O error"
  /\ Error (snd (FsmExample.Apply FsmExample.brokenStore FsmExample.goodLog))
     = "check last applied index: get raft state: disk I/O error"
  /\ data (fst (FsmExample.Apply FsmExample.brokenStore FsmExample.goodLog))
     = data FsmExample.brokenStore
  /\ localDB (fst (FsmExample.Apply FsmExample.brokenStore FsmExample.goodLog))
     = localDB FsmExample.brokenStore.
Proof.
  split; [reflexivity |].
  exact (Apply_unreadable_checkpoint FsmExample.unmarshal FsmExample.unmarshal
           FsmExample.snappy FsmExample.dispatch "1ms" FsmExample.brokenStore
           FsmExample.goodLog "disk I/O error" eq_refl).
Defined.

(** X2, replaying the command (term 5, index 11) on checkpoint (5, 10). *)
Lemma Apply_replay_is_noop_witness :
  wf_log FsmExample.goodLog /\ applied FsmExample.store0 FsmExample.goodLog
  /\ (let s1 := fst (FsmExample.Apply FsmExample.store0 FsmExample.goodLog) in
      data s1 = [Byte.x78]
      /\ FsmExample.Apply s1 FsmExample.goodLog
         = (storeRaftIndex FsmExample.SubStores FsmExample.goodLog s1,
            {| Time := "1ms"; Error := "" |})).
Proof.
  assert (Hwf : wf_log FsmExample.goodLog) by (apply example_wf; simpl; lia).
  assert (Happ : applied FsmExample.store0 FsmExample.goodLog)
    by (apply example_applied; simpl; lia).
  split; [exact Hwf |]. split; [exact Happ |]. split; [reflexivity |].
  exact (proj1 (Apply_replay_is_noop FsmExample.unmarshal FsmExample.unmarshal
                  FsmExample.snappy FsmExample.dispatch "1ms" FsmExample.store0
                  FsmExample.goodLog Hwf Happ)).
Defined.

(** X3, a heartbeat at (term 5, index 11) on checkpoint (5, 10): where the
    checkpoint can be written, and where it cannot. *)
Lemma Apply_non_command_advances_witness :
  (Error (snd (FsmExample.Apply FsmExample.store0 FsmExample.heartbeat)) = ""
   /\ data (fst (FsmExample.Apply FsmExample.store0 FsmExample.heartbeat))
      = data FsmExample.store0
   /\ persisted (fst (FsmExample.Apply FsmExample.store0 FsmExample.heartbeat)) = (5, 11))
  /\ (Error (snd (FsmExample.Apply FsmExample.fullDiskStore FsmExample.heartbeat)) = ""
      /\ data (fst (FsmExample.Apply FsmExample.fullDiskStore FsmExample.heartbeat))
         = data FsmExample.fullDiskStore
      /\ persisted (fst (FsmExample.Apply FsmExample.fullDiskStore FsmExample.heartbeat))
         = (5, 10)).
Proof.
  assert (Hwf : wf_log FsmExample.heartbeat) by (apply example_wf; simpl; lia).
  assert (Hty : Type_ FsmExample.heartbeat <> LogCommand) by discriminate.
  assert (Ht : 5 <= Term FsmExample.heartbeat) by (simpl; lia).
  assert (Hi : 10 < Index FsmExample.heartbeat) by (simpl; lia).
  split.
  - exact (Apply_non_command_advances FsmExample.unmarshal FsmExample.unmarshal
             FsmExample.snappy FsmExample.dispatch "1ms" FsmExample.store0
             FsmExample.heartbeat 5 10 Hwf eq_refl Ht Hi Hty).
  - exact (Apply_non_command_advances FsmExample.unmarshal FsmExample.unmarshal
             FsmExample.snappy FsmExample.dispatch "1ms" FsmExample.fullDiskStore
             FsmExample.heartbeat 5 10 Hwf eq_refl Ht Hi Hty).
Defined.

(** X4, an entry of term 7 at index 9 on checkpoint (5, 10). *)
Lemma Apply_newer_term_old_index_is_skipped_witness :
  getDBTermAndIndex FsmExample.store0 = inl (5, 10)
  /\ 5 < Term FsmExample.newTermOldIndex /\ Index FsmExample.newTermOldIndex <= 10
  /\ FsmExample.Apply FsmExample.store0 FsmExample.newTermOldIndex
     = (storeRaftIndex FsmExample.SubStores FsmExample.newTermOldIndex FsmExample.store0,
        {| Time := "1ms"; Error := "" |})
  /\ persisted (fst (FsmExample.Apply FsmExample.store0 FsmExample.newTermOldIndex))
     = (5, 10).
Proof.
  assert (Ht : 5 < Term FsmExample.newTermOldIndex) by (simpl; lia).
  assert (Hi : Index FsmExample.newTermOldIndex <= 10) by (simpl; lia).
  split; [reflexivity |]. split; [exact Ht |]. split; [exact Hi |].
  exact (Apply_newer_term_old_index_is_skipped FsmExample.unmarshal FsmExample.unmarshal
           FsmExample.snappy FsmExample.dispatch "1ms" FsmExample.store0
           FsmExample.newTermOldIndex 5 10 eq_refl Ht Hi).
Defined.

(** X5, the batch (stale, fresh, undecodable) on checkpoint (5, 10),
    delivered twice. *)
Lemma ApplyBatch_replay_is_noop_witness :
  let logs := [FsmExample.staleLog; FsmExample.goodLog; FsmExample.badLog] in
  let s1 := fst (FsmExample.ApplyBatch FsmExample.store0 logs) in
  data s1 = [Byte.x78] /\ persisted s1 = (6, 12)
  /\ Error <$> snd (FsmExample.ApplyBatch FsmExample.store0 logs)
     = [""; ""; "unmarshal raft log entry: unexpected end of input"]
  /\ snd (FsmExample.ApplyBatch s1 logs)
     = (fun _ => {| Time := "1ms"; Error := "" |}) <$> logs
  /\ data (fst (FsmExample.ApplyBatch s1 logs)) = data s1
  /\ localDB (fst (FsmExample.ApplyBatch s1 logs)) = localDB s1.
Proof.
  intros logs s1.
  assert (Hwf : Forall wf_log logs).
  { repeat constructor; unfold is_uint64; simpl; lia. }
  split; [reflexivity |]. split; [reflexivity |]. split; [reflexivity |].
  exact (ApplyBatch_replay_is_noop FsmExample.unmarshal FsmExample.unmarshal
           FsmExample.snappy FsmExample.dispatch "1ms" FsmExample.store0 logs
           Hwf eq_refl eq_refl).
Defined.

(** X6, the undecodable command (term 6, index 12), delivered twice on
    checkpoint (5, 10): where the checkpoint can be written, and where it
    cannot. *)
Lemma Apply_undecodable_redelivered_witness :
  (let s1 := fst (FsmExample.Apply FsmExample.store0 FsmExample.badLog) in
   Error (snd (FsmExample.Apply FsmExample.store0 FsmExample.badLog))
   = "unmarshal raft log entry: unexpected end of input"
   /\ persisted s1 = (6, 12)
   /\ Error (snd (FsmExample.Apply s1 FsmExample.badLog)) = "")
  /\ (let s1 := fst (FsmExample.Apply FsmExample.fullDiskStore FsmExample.badLog) in
      persisted s1 = (5, 10)
      /\ Error (snd (FsmExample.Apply s1 FsmExample.badLog))
         = "unmarshal raft log entry: unexpected end of input").
Proof.
  assert (Hwf : wf_log FsmExample.badLog) by (apply example_wf; simpl; lia).
  assert (Ht : 5 <= Term FsmExample.badLog) by (simpl; lia).
  assert (Hi : 10 < Index FsmExample.badLog) by (simpl; lia).
  split.
  - destruct (Apply_undecodable_redelivered FsmExample.unmarshal FsmExample.unmarshal
                FsmExample.snappy FsmExample.dispatch "1ms" FsmExample.store0
                FsmExample.badLog 5 10 "unexpected end of input"
                Hwf eq_refl Ht Hi eq_refl eq_refl) as (Herr & _ & Hok & _).
    destruct (Hok eq_refl) as (Hp & Hagain & _).
    split; [exact Herr |]. split; [exact Hp | exact Hagain].
  - destruct (Apply_undecodable_redelivered FsmExample.unmarshal FsmExample.unmarshal
                FsmExample.snappy FsmExample.dispatch "1ms" FsmExample.fullDiskStore
                FsmExample.badLog 5 10 "unexpected end of input"
                Hwf eq_refl Ht Hi eq_refl eq_refl) as (_ & _ & _ & Hfail).
    destruct (Hfail ltac:(discriminate)) as (Hp & Hagain & _).
    split; [exact Hp | exact Hagain].
Defined.

(** X7, the first command on a store without a checkpoint row. *)
Lemma Apply_on_fresh_store_witness :
  wf_log FsmExample.goodLog
  /\ raft_index (localDB FsmExample.freshStore) = None
  /\ persisted (fst (FsmExample.Apply FsmExample.freshStore FsmExample.goodLog)) = (5, 11).
Proof.
  assert (Hwf : wf_log FsmExample.goodLog) by (apply example_wf; simpl; lia).
  split; [exact Hwf |]. split; [reflexivity |].
  apply (Apply_on_fresh_store FsmExample.unmarshal FsmExample.unmarshal
           FsmExample.snappy FsmExample.dispatch "1ms" FsmExample.freshStore
           FsmExample.goodLog Hwf eq_refl eq_refl eq_refl).
  simpl. lia.
Defined.

End FsmMore.

(** ** More on network ACLs and routes: what is written is what is read *)
Module NetworkingMore.
Import Networking.

Lemma Join_cons (e : string) (l : list string) (sep : ascii) :
  l <> [] -> Join (e :: l) sep = e +:+ String sep (Join l sep).
Proof. by destruct l. Qed.

(** Joining what was split gives the text back. *)
Lemma Join_Split (s : string) (sep : ascii) : Join (Split s sep) sep = s.
Proof.
  induction s as [| c s IH]; [done |]. simpl.
  case_bool_decide as Hc.
  - rewrite Join_cons by apply NetworkingProofs.Split_nonempty.
    rewrite IH. by subst.
  - pose proof (NetworkingProofs.Split_nonempty s sep) as Hne.
    destruct (Split s sep) as [| first others]; [done |].
    destruct others as [| o others].
    + simpl in *. by rewrite IH.
    + rewrite Join_cons by done. rewrite Join_cons in IH by done.
      rewrite NetworkingProofs.append_cons. by rewrite IH.
Qed.

(** Splitting what was joined gives the list back, for a list that is not
    empty and whose elements do not hold the separator. *)
Lemma Split_Join (l : list string) (sep : ascii) :
  l <> [] -> Forall (fun e => ContainsRune e sep = false) l ->
  Split (Join l sep) sep = l.
Proof.
  intros Hne Hall. induction Hall as [| e l He Hl IH]; [done |].
  destruct l as [| e' l].
  - simpl. by apply NetworkingProofs.Split_no_sep.
  - rewrite Join_cons by done. rewrite NetworkingProofs.Split_app.
    rewrite NetworkingProofs.Split_no_sep by done. by rewrite IH.
Qed.

(** A list column: written NULL when empty, joined otherwise; read back it
    is the list. *)
Lemma splitNull_nullJoin (l : list string) :
  Forall commaFree l -> splitNull (nullJoin l) = l.
Proof.
  intros Hall. unfold splitNull, nullJoin. destruct l as [| e l].
  - by rewrite bool_decide_false by (simpl; lia).
  - rewrite bool_decide_true by (simpl; lia). by apply Split_Join.
Qed.

(** *** Decimal ports *)

Lemma digitValue_pretty (d : N) :
  (d < 10)%N -> digitValue (pretty_N_char d) = Some d.
Proof.
  intros Hd.
  assert (d = 0 \/ d = 1 \/ d = 2 \/ d = 3 \/ d = 4 \/ d = 5 \/ d = 6
          \/ d = 7 \/ d = 8 \/ d = 9)%N as Hcases by lia.
  repeat (destruct Hcases as [-> | Hcases]; [reflexivity |]). by subst.
Qed.

Lemma parseDigits_pretty_go (x : N) (s : string) :
  parseDigits (pretty_N_go x s) 0 = parseDigits s x.
Proof.
  revert s. induction (N.lt_wf_0 x) as [x _ IH]; intros s.
  assert (x = 0 \/ 0 < x)%N as [-> | Hpos] by lia.
  - by rewrite pretty_N_go_0.
  - rewrite pretty_N_go_step by done. rewrite IH by (by apply N.div_lt).
    simpl. rewrite digitValue_pretty by (by apply N.mod_lt).
    f_equal. rewrite (N.div_mod x 10) at 3 by done. lia.
Qed.

Lemma parseDigits_pretty (z : Z) :
  0 <= z -> parseDigits (pretty z) 0 = Some (Z.to_N z).
Proof.
  destruct z as [| p | p]; [done | | lia]. intros _.
  unfold pretty, pretty_Z, pretty, pretty_positive, pretty, pretty_N.
  rewrite decide_False by done. by rewrite parseDigits_pretty_go.
Qed.

(** A text of digits holds no comma. *)
Lemma parseDigits_commaFree (s : string) (acc n : N) :
  parseDigits s acc = Some n -> commaFree s.
Proof.
  unfold commaFree. revert acc. induction s as [| c s IH]; intros acc; simpl; [done |].
  destruct (digitValue c) as [d |] eqn:Hd; [| done].
  intros Hrest. case_bool_decide as Hc; [| by eapply IH].
  subst. by vm_compute in Hd.
Qed.

Lemma pretty_commaFree (z : Z) : 0 <= z -> commaFree (pretty z).
Proof. intros Hz. eapply parseDigits_commaFree. by apply parseDigits_pretty. Qed.

(** [strconv.ParseUint] reads back what [strconv.Itoa] printed. *)
Lemma ParseUint_pretty (z : Z) : is_uint32 z -> ParseUint (pretty z) 32 = Some z.
Proof.
  intros [Hlo Hhi]. unfold ParseUint.
  pose proof (parseDigits_pretty z Hlo) as Hparse.
  destruct (pretty z) as [| c rest] eqn:Hs.
  - simpl in Hparse. injection Hparse as Hz.
    assert (z = 0) as -> by lia. done.
  - rewrite Hparse, Z2N.id by done.
    destruct (Z.ltb_spec z (2 ^ 32)); [done | lia].
Qed.

Lemma ports_parse_back (ports : list Z) :
  Forall is_uint32 ports ->
  omap (fun port => ParseUint port 32) (pretty <$> ports) = ports.
Proof.
  induction 1 as [| q qs Hq _ IH]; [done |].
  simpl. rewrite ParseUint_pretty by done. simpl. f_equal. exact IH.
Qed.

Lemma ports_read_back (ports : list Z) :
  Forall is_uint32 ports ->
  match nullJoin (pretty <$> ports) with
  | Some s => omap (fun port => ParseUint port 32) (Split s comma)
  | None => []
  end = ports.
Proof.
  intros Hall. unfold nullJoin. destruct ports as [| p ports].
  - by rewrite bool_decide_false by (simpl; lia).
  - rewrite bool_decide_true by (simpl; lia).
    rewrite Split_Join.
    + by apply ports_parse_back.
    + done.
    + apply Forall_fmap. eapply Forall_impl; [exact Hall |].
      intros q [Hq _]. by apply pretty_commaFree.
Qed.

Lemma int32_id (z : Z) : is_int32 z -> int32 z = z.
Proof.
  unfold is_int32, int32. intros Hz. rewrite Z.mod_small by lia. lia.
Qed.

(** X8. What PutNetworkACL writes, GetNetworkACL reads: for an ACL that is
    not the system ACL, whose selectors hold no comma and whose numbers are
    in the range of their Go types, on a database without faults, reading
    the name back returns the ACL that was put — empty selector lists
    included, which travel as NULL columns. *)
Theorem PutNetworkACL_then_GetNetworkACL (now : Z) (db : DB) (acl : NetworkACL) :
  Name acl <> BootstrapNodesNetworkACLName ->
  read_fault db = None -> write_fault db = None ->
  storable acl ->
  snd (PutNetworkACL now db acl) = None
  /\ GetNetworkACL (fst (PutNetworkACL now db acl)) (Name acl) = inl acl.
Proof.
  intros Hname Hr Hw (Hp & Ha & Hsn & Hdn & Hsc & Hdc & Hpr & Hpo).
  unfold PutNetworkACL, IsSystemNetworkACL, raftdb_PutNetworkACL.
  rewrite bool_decide_false by done. rewrite Hw. simpl. split; [done |].
  unfold GetNetworkACL, raftdb_GetNetworkACL. simpl.
  rewrite Hr, lookup_insert_eq. simpl. unfold dbACLToAPIACL. simpl.
  rewrite !splitNull_nullJoin, ports_read_back, !int32_id by done.
  by destruct acl.
Qed.

(** X9. After DeleteNetworkACL of a name other than the system ACL, on a
    database without faults, GetNetworkACL of that name reports
    ErrACLNotFound — whether or not the ACL existed; the other ACLs are
    untouched. *)
Theorem DeleteNetworkACL_then_GetNetworkACL (db : DB) (name other : string) :
  name <> BootstrapNodesNetworkACLName ->
  read_fault db = None -> write_fault db = None ->
  snd (DeleteNetworkACL db name) = None
  /\ GetNetworkACL (fst (DeleteNetworkACL db name)) name = inr ErrACLNotFound
  /\ (other <> name ->
      GetNetworkACL (fst (DeleteNetworkACL db name)) other = GetNetworkACL db other).
Proof.
  intros Hname Hr Hw.
  unfold DeleteNetworkACL, IsSystemNetworkACL, raftdb_DeleteNetworkACL.
  rewrite bool_decide_false by done. rewrite Hw. simpl. split; [done |].
  unfold GetNetworkACL, raftdb_GetNetworkACL. simpl. rewrite Hr. split.
  - by rewrite lookup_delete_eq.
  - intros Hne. by rewrite lookup_delete_ne.
Qed.

Lemma Split_Join_readBack (l : list string) :
  Forall commaFree l -> Split (Join l comma) comma = readBack l.
Proof. intros Hall. destruct l as [| e l]; [done |]. by apply Split_Join. Qed.

(** X10. What PutRoute writes, GetRoute reads, up to the empty lists: on a
    database without faults and for names without commas, the route read
    back has the next hops that were put, and the nodes and destination
    CIDRs that were put — except that an empty node list or CIDR list, which
    is stored as the empty text and not as NULL, comes back as the list
    holding one empty name. *)
Theorem PutRoute_then_GetRoute (now : Z) (db : DB) (route : Route) :
  read_fault db = None -> write_fault db = None ->
  Forall commaFree (Nodes route) -> Forall commaFree (RouteDestinationCidrs route) ->
  Forall commaFree (NextHopNodes route) ->
  snd (PutRoute now db route) = None
  /\ GetRoute (fst (PutRoute now db route)) (RouteName route)
     = inl {| RouteName := RouteName route;
              Nodes := readBack (Nodes route);
              RouteDestinationCidrs := readBack (RouteDestinationCidrs route);
              NextHopNodes := NextHopNodes route |}.
Proof.
  intros Hr Hw Hn Hd Hh. unfold PutRoute, raftdb_PutNetworkRoute. rewrite Hw. simpl.
  split; [done |]. unfold GetRoute, raftdb_GetNetworkRoute. simpl.
  rewrite Hr, lookup_insert_eq. simpl. unfold dbRouteToAPIRoute. simpl.
  rewrite !Split_Join_readBack by done.
  pose proof (splitNull_nullJoin (NextHopNodes route) Hh) as Hhops.
  unfold splitNull in Hhops. by rewrite Hhops.
Qed.

(** X11. AppendNodeToRoute on a route that does not exist returns an error
    that wraps "route not found", and writes nothing. *)
Theorem AppendNodeToRoute_missing_route (now : Z) (db : DB) (routeName nodeName : string) :
  read_fault db = None -> network_routes db !! routeName = None ->
  AppendNodeToRoute now db routeName nodeName
  = (db, Some (Errorf "get route: route not found")).
Proof.
  intros Hr Hnone. unfold AppendNodeToRoute, GetRoute, raftdb_GetNetworkRoute.
  by rewrite Hr, Hnone.
Qed.

(** X12. AppendNodeToRoute appends: when the route exists, the node name
    holds no comma and is not in its node list, and the database has no
    fault, the call returns nil and the route read back afterwards has the
    old nodes followed by the new one, with the destination CIDRs and next
    hops it had before. *)
Theorem AppendNodeToRoute_appends (now : Z) (db : DB) (routeName nodeName : string)
    (route : Route) :
  GetRoute db routeName = inl route -> write_fault db = None ->
  commaFree nodeName -> ~ In nodeName (Nodes route) ->
  snd (AppendNodeToRoute now db routeName nodeName) = None
  /\ GetRoute (fst (AppendNodeToRoute now db routeName nodeName)) routeName
     = inl {| RouteName := RouteName route;
              Nodes := Nodes route ++ [nodeName];
              RouteDestinationCidrs := RouteDestinationCidrs route;
              NextHopNodes := NextHopNodes route |}.
Proof.
  intros Hget Hw Hn Hnotin. unfold AppendNodeToRoute. rewrite Hget.
  assert (Hhas : hasNode (Nodes route) nodeName = false).
  { destruct (hasNode (Nodes route) nodeName) eqn:Hh; [| done].
    by apply NetworkingProofs.hasNode_In in Hh. }
  rewrite Hhas. unfold GetRoute, raftdb_GetNetworkRoute in Hget.
  destruct (read_fault db) eqn:Hr; [done |].
  destruct (network_routes db !! routeName) as [row |] eqn:Hrow; [| done].
  injection Hget as <-. simpl.
  unfold PutRoute, raftdb_PutNetworkRoute. rewrite Hw. simpl. split; [done |].
  unfold GetRoute, raftdb_GetNetworkRoute. simpl.
  rewrite Hr, lookup_insert_eq. simpl. unfold dbRouteToAPIRoute. simpl.
  rewrite NetworkingProofs.Join_snoc by apply NetworkingProofs.Split_nonempty.
  rewrite NetworkingProofs.Split_app, !Join_Split.
  rewrite (NetworkingProofs.Split_no_sep nodeName) by done.
  destruct (NextHops row) as [hops |]; simpl; [| done].
  unfold nullJoin. pose proof (NetworkingProofs.Split_nonempty hops comma) as Hne.
  rewrite bool_decide_true by (destruct (Split hops comma); [done | simpl; lia]).
  by rewrite Join_Split.
Qed.

(** X8, putting and reading the ACL [deny-all] with two ports. *)
Lemma PutNetworkACL_then_GetNetworkACL_witness :
  Name NetworkingExample.userACL <> BootstrapNodesNetworkACLName
  /\ storable NetworkingExample.userACL
  /\ GetNetworkACL (fst (PutNetworkACL 200 NetworkingExample.db0 NetworkingExample.userACL))
       "deny-all" = inl NetworkingExample.userACL.
Proof.
  assert (Hname : Name NetworkingExample.userACL <> BootstrapNodesNetworkACLName)
    by discriminate.
  assert (Hst : storable NetworkingExample.userACL).
  { unfold storable, is_int32. simpl.
    repeat split; try lia; repeat constructor; unfold is_uint32; simpl; lia. }
  split; [exact Hname |]. split; [exact Hst |].
  exact (proj2 (PutNetworkACL_then_GetNetworkACL 200 NetworkingExample.db0
                  NetworkingExample.userACL Hname eq_refl eq_refl Hst)).
Defined.

(** X9, deleting the ACL [allow-all]. *)
Lemma DeleteNetworkACL_then_GetNetworkACL_witness :
  "allow-all" <> BootstrapNodesNetworkACLName
  /\ GetNetworkACL (fst (DeleteNetworkACL NetworkingExample.db0 "allow-all")) "allow-all"
     = inr ErrACLNotFound.
Proof.
  assert (Hname : "allow-all" <> BootstrapNodesNetworkACLName) by discriminate.
  split; [exact Hname |].
  exact (proj1 (proj2 (DeleteNetworkACL_then_GetNetworkACL NetworkingExample.db0
                         "allow-all" "deny-all" Hname eq_refl eq_refl))).
Defined.

(** X10, a route put without nodes is read back with one empty node name. *)
Lemma PutRoute_then_GetRoute_witness :
  GetRoute (fst (PutRoute 200 NetworkingExample.db0 NetworkingExample.emptyRoute)) "site-b"
  = inl {| RouteName := "site-b"; Nodes := [EmptyString];
           RouteDestinationCidrs := ["10.0.1.0/24"]; NextHopNodes := [] |}.
Proof.
  apply (PutRoute_then_GetRoute 200 NetworkingExample.db0 NetworkingExample.emptyRoute
           eq_refl eq_refl).
  - constructor.
  - repeat constructor.
  - constructor.
Defined.

(** X11, appending to a route that was never put. *)
Lemma AppendNodeToRoute_missing_route_witness :
  network_routes NetworkingExample.db0 !! "site-z" = None
  /\ AppendNodeToRoute 200 NetworkingExample.db0 "site-z" "a"
     = (NetworkingExample.db0, Some (Errorf "get route: route not found")).
Proof.
  assert (Hnone : network_routes NetworkingExample.db0 !! "site-z" = None)
    by (vm_compute; reflexivity).
  split; [exact Hnone |].
  exact (AppendNodeToRoute_missing_route 200 NetworkingExample.db0 "site-z" "a"
           eq_refl Hnone).
Defined.

(** X12, appending node [b] to the route [site-a] through [a]. *)
Lemma AppendNodeToRoute_appends_witness :
  let route := {| RouteName := "site-a"; Nodes := ["a"];
                  RouteDestinationCidrs := ["10.0.0.0/24"]; NextHopNodes := [] |} in
  GetRoute NetworkingExample.db0 "site-a" = inl route
  /\ GetRoute (fst (AppendNodeToRoute 200 NetworkingExample.db0 "site-a" "b")) "site-a"
     = inl {| RouteName := "site-a"; Nodes := ["a"; "b"];
              RouteDestinationCidrs := ["10.0.0.0/24"]; NextHopNodes := [] |}.
Proof.
  intros route.
  assert (Hget : GetRoute NetworkingExample.db0 "site-a" = inl route)
    by (vm_compute; reflexivity).
  assert (Hnotin : ~ In "b" (Nodes route)).
  { simpl. intros [H | []]. discriminate H. }
  split; [exact Hget |].
  exact (proj2 (AppendNodeToRoute_appends 200 NetworkingExample.db0 "site-a" "b" route
                  Hget eq_refl eq_refl Hnotin)).
Defined.

End NetworkingMore.

(** ** Role bindings: subjects written and read *)
Module RbacProofs.
Import Rbac.
Import Networking (commaFree, nullJoin, splitNull).

Lemma namesFor_cons (ty sty : SubjectType) (name : string) (rest : list Subject) :
  namesFor ty ({| SubjectName := name; Type_ := sty |} :: rest)
  = if bool_decide (sty = ty \/ sty = SUBJECT_ALL)
    then name :: namesFor ty rest else namesFor ty rest.
Proof.
  unfold namesFor. rewrite filter_cons. simpl.
  case_decide as Hd; [by rewrite bool_decide_true | by rewrite bool_decide_false].
Qed.

(** The three lists the loop of PutRoleBinding builds. *)
Lemma collected_subjects (subjects : list Subject) (users groups nodes : list string) :
  foldl addSubject (users, groups, nodes) subjects
  = (users ++ namesFor SUBJECT_USER subjects,
     groups ++ namesFor SUBJECT_GROUP subjects,
     nodes ++ namesFor SUBJECT_NODE subjects).
Proof.
  revert users groups nodes.
  induction subjects as [| [name ty] subjects IH]; intros users groups nodes.
  - simpl. unfold namesFor. simpl. by rewrite !app_nil_r.
  - rewrite !namesFor_cons.
    destruct ty; simpl; rewrite IH; by rewrite <- ?app_assoc.
Qed.

Lemma namesFor_commaFree (ty : SubjectType) (subjects : list Subject) :
  Forall (fun subject => commaFree (SubjectName subject)) subjects ->
  Forall commaFree (namesFor ty subjects).
Proof.
  intros Hall. unfold namesFor. apply Forall_fmap.
  apply Forall_forall. intros subject [_ Hin]%list_elem_of_filter.
  rewrite Forall_forall in Hall. by apply Hall.
Qed.

(** X13. What PutRoleBinding writes, GetRoleBinding reads, flattened: on a
    database without faults and for subject names without commas, the
    binding read back has the name and role that were put, and as subjects
    first the users, then the groups, then the nodes — a subject for all
    kinds coming back as three subjects, one of each kind, and a subject of
    an unknown kind not at all. *)
Theorem PutRoleBinding_then_GetRoleBinding (now : Z) (db : DB) (rb : RoleBinding) :
  read_fault db = None -> write_fault db = None ->
  Forall (fun subject => commaFree (SubjectName subject)) (Subjects rb) ->
  snd (PutRoleBinding now db rb) = None
  /\ GetRoleBinding (fst (PutRoleBinding now db rb)) (Name rb)
     = inl {| Name := Name rb; Role := Role rb; Subjects := flattened (Subjects rb) |}.
Proof.
  intros Hr Hw Hall. unfold PutRoleBinding. rewrite collected_subjects. simpl.
  unfold raftdb_PutRoleBinding. rewrite Hw. simpl. split; [done |].
  unfold GetRoleBinding, raftdb_GetRoleBinding. simpl.
  rewrite Hr, lookup_insert_eq. simpl.
  unfold dbRoleBindingToAPIRoleBinding, subjectsOf, flattened. simpl.
  by rewrite !NetworkingMore.splitNull_nullJoin by by apply namesFor_commaFree.
Qed.

(** X13, a binding with a subject for all kinds and one of an unknown kind. *)
Lemma PutRoleBinding_then_GetRoleBinding_witness :
  Forall (fun subject => commaFree (SubjectName subject)) (Subjects RbacExample.binding)
  /\ GetRoleBinding (fst (PutRoleBinding 100 RbacExample.db0 RbacExample.binding)) "viewers"
     = inl {| Name := "viewers"; Role := "viewer";
              Subjects := [ {| SubjectName := "*"; Type_ := SUBJECT_USER |};
                            {| SubjectName := "alice"; Type_ := SUBJECT_USER |};
                            {| SubjectName := "*"; Type_ := SUBJECT_GROUP |};
                            {| SubjectName := "n1"; Type_ := SUBJECT_NODE |};
                            {| SubjectName := "*"; Type_ := SUBJECT_NODE |} ] |}.
Proof.
  assert (Hall : Forall (fun subject => commaFree (SubjectName subject))
                   (Subjects RbacExample.binding)) by (repeat constructor).
  split; [exact Hall |].
  exact (proj2 (PutRoleBinding_then_GetRoleBinding 100 RbacExample.db0
                  RbacExample.binding eq_refl eq_refl Hall)).
Defined.

End RbacProofs.

(** ** Profile keys and peer-store keys *)
Module KeyProofs.

Lemma prefix_append (s rest : string) : String.prefix s (s +:+ rest) = true.
Proof.
  induction s as [| c s IH]; simpl; [by destruct rest |].
  destruct (ascii_dec c c); [exact IH | done].
Qed.

Lemma length_append (a b : string) :
  String.length (a +:+ b) = (String.length a + String.length b)%nat.
Proof. induction a as [| c a IH]; simpl; [done | by rewrite IH]. Qed.

Lemma dropBytes_append (a b : string) :
  Daemoncmd.dropBytes (String.length a) (a +:+ b) = b.
Proof. induction a as [| c a IH]; simpl; [done | exact IH]. Qed.

Lemma dropBytes_append_slash (a b : string) (c : ascii) :
  Daemoncmd.dropBytes (S (String.length a)) (a +:+ String c b) = b.
Proof. induction a as [| x a IH]; simpl; [done | exact IH]. Qed.

(** X14. The storage key of a profile ID gives the ID back:
    [ProfileIDFromKey] undoes [StorageKey], so two profile IDs never share a
    storage key. *)
Theorem ProfileIDFromKey_StorageKey (id id' : string) :
  Daemoncmd.ProfileIDFromKey (Daemoncmd.StorageKey id) = id
  /\ (Daemoncmd.StorageKey id = Daemoncmd.StorageKey id' -> id = id').
Proof.
  assert (Hback : forall x,
            Daemoncmd.ProfileIDFromKey (Daemoncmd.StorageKey x) = x).
  { intros x. unfold Daemoncmd.ProfileIDFromKey, Daemoncmd.StorageKey,
      Daemoncmd.TrimPrefix. simpl Daemoncmd.bytesJoin.
    change (Daemoncmd.profilesPrefix +:+ "/" +:+ x)
      with ((Daemoncmd.profilesPrefix +:+ "/") +:+ x).
    by rewrite prefix_append, dropBytes_append. }
  split; [apply Hback |].
  intros Heq. by rewrite <- (Hback id), <- (Hback id'), Heq.
Qed.

Import Peerstore.

Lemma Contains_unfold (s substr : string) :
  Contains s substr
  = if String.prefix substr s then true
    else match s with
         | EmptyString => false
         | String _ rest => Contains rest substr
         end.
Proof. by destruct s. Qed.

Lemma Contains_in_the_middle (before substr after : string) :
  Contains (before +:+ substr +:+ after) substr = true.
Proof.
  induction before as [| c before IH].
  - change (EmptyString +:+ substr +:+ after) with (substr +:+ after).
    by rewrite Contains_unfold, prefix_append.
  - rewrite Contains_unfold.
    destruct (String.prefix substr _); [done |].
    rewrite NetworkingProofs.append_cons. exact IH.
Qed.

Lemma Contains_PathFor (p peer : string) : Contains (PathFor p peer) p = true.
Proof.
  unfold PathFor.
  change ("/" +:+ peer +:+ p) with (String "/" (peer +:+ p)).
  rewrite Contains_unfold. destruct (String.prefix p _); [done |].
  pose proof (Contains_in_the_middle peer p EmptyString) as H.
  assert (Hnil : forall x : string, x +:+ EmptyString = x).
  { induction x as [| c x IHx]; [done |].
    by rewrite NetworkingProofs.append_cons, IHx. }
  by rewrite Hnil in H.
Qed.

(** X15. [Trim] undoes [KeyFor] for the paths of multiaddrs and protocols,
    and only for those: trimming a key made from a prefix and a value gives
    the value when the prefix holds "/multiaddrs" or "/protocols" — as the
    path of either under any peer does — and the value with a slash in front
    for every other prefix. *)
Theorem Trim_KeyFor (p peer value : string) :
  Trim p (KeyFor p value)
  = Some (if Contains p Multiaddrs || Contains p Protocols
          then value else "/" +:+ value)
  /\ Trim (PathFor Multiaddrs peer) (KeyFor (PathFor Multiaddrs peer) value) = Some value
  /\ Trim (PathFor Protocols peer) (KeyFor (PathFor Protocols peer) value) = Some value.
Proof.
  assert (Hgen : forall q,
            Trim q (KeyFor q value)
            = Some (if Contains q Multiaddrs || Contains q Protocols
                    then value else "/" +:+ value)).
  { intros q. unfold Trim, KeyFor, cut.
    destruct (Contains q Multiaddrs || Contains q Protocols).
    - rewrite length_append.
      change ("/" +:+ value) with (String "/" value). simpl String.length.
      destruct (Nat.leb_spec (S (String.length q))
                  (String.length q + S (String.length value))); [| lia].
      f_equal. apply dropBytes_append_slash.
    - rewrite length_append.
      destruct (Nat.leb_spec (String.length q)
                  (String.length q + String.length ("/" +:+ value))); [| lia].
      f_equal. apply dropBytes_append. }
  split; [apply Hgen |]. split.
  - rewrite Hgen, Contains_PathFor. done.
  - rewrite Hgen, Contains_PathFor. by rewrite orb_true_r.
Qed.

(** X16. Trimming a key that is the bare prefix: for a prefix that holds
    "/multiaddrs" or "/protocols" the cut is one past the end of the key and
    the slice panics; for any other prefix the result is empty. In general
    [Trim] panics exactly on the keys shorter than its cut. *)
Theorem Trim_bare_prefix (p key : string) :
  Trim p p = (if Contains p Multiaddrs || Contains p Protocols
              then None else Some EmptyString)
  /\ (Trim p key = None <-> (String.length key < cut p)%nat).
Proof.
  split.
  - unfold Trim, cut. destruct (Contains p Multiaddrs || Contains p Protocols).
    + destruct (Nat.leb_spec (S (String.length p)) (String.length p)); [lia | done].
    + rewrite Nat.leb_refl. f_equal.
      induction p as [| c p IH]; simpl; [done | exact IH].
  - unfold Trim. destruct (Nat.leb_spec (cut p) (String.length key)).
    + split; [done | lia].
    + done.
Qed.

End KeyProofs.

(** ** More on Bootstrap: failures and what a success leaves *)
Module StorageMore.
Import Storage.

Lemma write_meshState (db db' : MeshDB) (op : Op) :
  meshStateOf db' = meshStateOf db ->
  meshStateOf (fst (write db op db')) = meshStateOf db.
Proof. intros H. unfold write. by destruct (fault db op). Qed.

Lemma andThen_meshState (step : MeshDB * option error) (ctx : string)
    (k : MeshDB -> MeshDB * option error)
    (m : option string * option Svcutil.Prefix * option Svcutil.Prefix
         * (Op -> option string)) :
  meshStateOf (fst step) = m ->
  (forall db, meshStateOf db = m -> meshStateOf (fst (k db)) = m) ->
  meshStateOf (fst (andThen step ctx k)) = m.
Proof. intros Hstep Hk. destruct step as [db [e |]]; simpl in *; auto. Qed.

(** The steps of the seeding after the mesh state: none of them touches the
    mesh state, whether they succeed or fail. *)
Lemma rbac_and_acl_steps_keep_meshState (db : MeshDB) :
  (forall r, meshStateOf (fst (PutRole db r)) = meshStateOf db)
  /\ (forall rb, meshStateOf (fst (PutRoleBinding db rb)) = meshStateOf db)
  /\ (forall g, meshStateOf (fst (PutGroup db g)) = meshStateOf db)
  /\ (forall b, meshStateOf (fst (SetEnabled db b)) = meshStateOf db)
  /\ (forall acl, meshStateOf (fst (PutNetworkACL db acl)) = meshStateOf db).
Proof. repeat split; intros; by apply write_meshState. Qed.

(** Once the three writes of the mesh state went through, the mesh state
    holds the prefixes and the domain, however the seeding ends. *)
Lemma seed_meshState (names : SystemNames) (db : MeshDB) (opts : BootstrapOptions)
    (results : BootstrapResults) :
  fault db OpSetIPv6Prefix = None -> fault db OpSetIPv4Prefix = None ->
  fault db OpSetMeshDomain = None ->
  meshStateOf (fst (seed names db opts results))
  = (Some (MeshDomain opts), Some (NetworkV4 results), Some (NetworkV6 results), fault db).
Proof.
  intros H6 H4 Hd. unfold seed.
  unfold SetIPv6Prefix at 1, write at 1. rewrite H6. cbn [andThen].
  unfold SetIPv4Prefix at 1, write at 1. cbn [fault]. rewrite H4. cbn [andThen].
  unfold SetMeshDomain at 1, write at 1. cbn [fault]. rewrite Hd. cbn [andThen].
  cbn [meshDomain ipv4Prefix ipv6Prefix roles rolebindings groups rbacDisabled
       networkACLs fault].
  repeat (apply andThen_meshState;
          [first [ by rewrite (proj1 (rbac_and_acl_steps_keep_meshState _))
                 | by rewrite (proj1 (proj2 (rbac_and_acl_steps_keep_meshState _)))
                 | by rewrite (proj1 (proj2 (proj2 (rbac_and_acl_steps_keep_meshState _))))
                 | idtac ]
          | intros ? ?]).
  all: try done.
  all: try (destruct (DisableRBAC opts); [| done]).
  all: try (destruct (bool_decide (OptDefaultNetworkPolicy opts = "accept")); [| done]).
  all: (etrans; [apply write_meshState; reflexivity | done]).
Qed.

Section WithEnvironment.

Context (names : SystemNames).
Context (ParsePrefix ParsePrefix' : string -> Svcutil.Prefix + string).
Context (GenerateULA GenerateULA' : Svcutil.Prefix + string).

(** X17. Bootstrap checks before it writes: when the existence check fails
    with a storage error, or the IPv4 network does not parse, or no ULA can
    be generated, the call returns an error and the database is the one it
    was given. *)
Theorem Bootstrap_checks_before_writing (db : MeshDB) (opts : BootstrapOptions) :
  (exists e, GetMeshDomain db = inr (Errorf e))
  \/ (exists e, ParsePrefix (IPv4Network (withDefaults opts)) = inr e)
  \/ (exists e, GenerateULA = inr e) ->
  fst (fst (Bootstrap names ParsePrefix GenerateULA db opts)) = db
  /\ snd (Bootstrap names ParsePrefix GenerateULA db opts) <> None.
Proof.
  intros Hfail. unfold Bootstrap.
  destruct (GetMeshDomain db) as [d | err] eqn:Hd.
  - destruct (GetIPv4Prefix db); [| done]. by destruct (GetIPv6Prefix db).
  - destruct (IsKeyNotFound err) eqn:Hnf; [| done]. simpl.
    destruct (ParsePrefix _) as [v4 | e4] eqn:H4; [| done].
    destruct GenerateULA as [v6 | e6] eqn:H6; [| done].
    destruct err; try discriminate.
    destruct Hfail as [[e He] | [[e He] | [e He]]]; discriminate.
Qed.

(** X18. The seeding is not resumed. Once a Bootstrap got as far as writing
    the two prefixes and the mesh domain, every later Bootstrap reports
    ErrAlreadyBootstrapped with those values and writes nothing — also when
    the first call failed right after, creating the admin role: then it
    returned that error and left roles, bindings, groups and ACLs as they
    were, and they stay that way. *)
Theorem Bootstrap_is_not_resumed (db : MeshDB) (opts opts' : BootstrapOptions)
    (v4 v6 : Svcutil.Prefix) :
  GetMeshDomain db = inr ErrKeyNotFound ->
  ParsePrefix (IPv4Network (withDefaults opts)) = inl v4 ->
  GenerateULA = inl v6 ->
  fault db OpSetIPv6Prefix = None -> fault db OpSetIPv4Prefix = None ->
  fault db OpSetMeshDomain = None ->
  fault db OpGetIPv4Prefix = None -> fault db OpGetIPv6Prefix = None ->
  let first := Bootstrap names ParsePrefix GenerateULA db opts in
  let db1 := fst (fst first) in
  Bootstrap names ParsePrefix' GenerateULA' db1 opts'
  = (db1, {| NetworkV4 := v4; NetworkV6 := v6;
             ResMeshDomain := MeshDomain (withDefaults opts) |},
     Some ErrAlreadyBootstrapped)
  /\ (forall e, fault db OpPutRole = Some e ->
        snd first = Some (Errorf ("create admin role: " +:+ e))
        /\ roles db1 = roles db /\ rolebindings db1 = rolebindings db
        /\ groups db1 = groups db /\ networkACLs db1 = networkACLs db).
Proof.
  intros Hd H4 H6 Hs6 Hs4 Hsd Hg4 Hg6 first db1.
  assert (Hfd : fault db OpGetMeshDomain = None).
  { unfold GetMeshDomain, readKey in Hd.
    by destruct (fault db OpGetMeshDomain). }
  set (results := {| NetworkV4 := v4; NetworkV6 := v6;
                     ResMeshDomain := MeshDomain (withDefaults opts) |}).
  assert (Hfirst : first
                   = (fst (seed names db (withDefaults opts) results), results,
                      snd (seed names db (withDefaults opts) results))).
  { unfold first, Bootstrap. rewrite Hd. cbn [IsKeyNotFound negb]. rewrite H4, H6.
    by destruct (seed _ _ _ _). }
  assert (Hdb1 : db1 = fst (seed names db (withDefaults opts) results))
    by (unfold db1; by rewrite Hfirst).
  split.
  - pose proof (seed_meshState names db (withDefaults opts) results Hs6 Hs4 Hsd) as Hm.
    rewrite <- Hdb1 in Hm. unfold meshStateOf in Hm. injection Hm as Hmd Hm4 Hm6 Hmf.
    unfold Bootstrap, GetMeshDomain, GetIPv4Prefix, GetIPv6Prefix, readKey.
    by rewrite Hmf, Hfd, Hg4, Hg6, Hmd, Hm4, Hm6.
  - intros e He. rewrite Hfirst, Hdb1. clear Hfirst Hdb1 first db1. cbn [fst snd].
    assert (seed names db (withDefaults opts) results
            = (mkMeshDB (Some (MeshDomain (withDefaults opts))) (Some v4) (Some v6)
                 (roles db) (rolebindings db) (groups db) (rbacDisabled db)
                 (networkACLs db) (fault db),
               Some (Errorf ("create admin role: " +:+ e)))) as ->; [| done].
    unfold seed.
    unfold SetIPv6Prefix, write. rewrite Hs6. cbn [andThen].
    unfold SetIPv4Prefix, write. cbn [fault]. rewrite Hs4. cbn [andThen].
    unfold SetMeshDomain, write. cbn [fault]. rewrite Hsd. cbn [andThen].
    unfold PutRole at 1, write. cbn [fault]. rewrite He. cbn [andThen]. done.
Qed.

(** X19. What a successful Bootstrap leaves in the database: the prefixes
    and the mesh domain it returns; the voters role, the voters group with
    the admin, the bootstrap nodes and the additional voters in that order,
    and the binding of the group to the role; RBAC disabled if asked for;
    and the default-accept ACL of lowest priority under the accept policy,
    the system ACL of highest priority being readable under its name unless
    the default-accept ACL took that name. *)
Theorem Bootstrap_success_state (db db1 : MeshDB) (opts : BootstrapOptions)
    (results : BootstrapResults) :
  Bootstrap names ParsePrefix GenerateULA db opts = (db1, results, None) ->
  let o := withDefaults opts in
  (meshDomain db1 = Some (ResMeshDomain results)
   /\ ipv4Prefix db1 = Some (NetworkV4 results)
   /\ ipv6Prefix db1 = Some (NetworkV6 results)
   /\ ResMeshDomain results = MeshDomain o)
  /\ roles db1 !! VotersRole names
     = Some {| RoleName := VotersRole names;
               Rules := [ {| Resources := [RESOURCE_VOTES]; Verbs := [VERB_PUT] |} ] |}
  /\ groups db1 !! VotersGroup names
     = Some {| GroupName := VotersGroup names;
               GroupSubjects :=
                 (fun id => {| SubjectName := id; Type_ := SUBJECT_NODE |})
                   <$> (Admin o :: BootstrapNodes opts ++ Voters opts) |}
  /\ rolebindings db1 !! BootstrapVotersRoleBinding names
     = Some {| BindingName := BootstrapVotersRoleBinding names;
               RoleRef := VotersRole names;
               Subjects := [ {| SubjectName := VotersGroup names;
                                Type_ := SUBJECT_GROUP |} ] |}
  /\ rbacDisabled db1 = (if DisableRBAC opts then true else rbacDisabled db)
  /\ (OptDefaultNetworkPolicy o = "accept" ->
      networkACLs db1 !! "default-accept"
      = Some {| Name := "default-accept"; Priority := MinInt32;
                SourceNodes := ["*"]; DestinationNodes := ["*"];
                SourceCIDRs := ["*"]; DestinationCIDRs := ["*"];
                Action := ACTION_ACCEPT |})
  /\ (OptDefaultNetworkPolicy o <> "accept"
      \/ BootstrapNodesNetworkACLName names <> "default-accept" ->
      networkACLs db1 !! BootstrapNodesNetworkACLName names
      = Some {| Name := BootstrapNodesNetworkACLName names; Priority := MaxInt32;
                SourceNodes := ["group:" +:+ VotersGroup names];
                DestinationNodes := ["group:" +:+ VotersGroup names];
                SourceCIDRs := []; DestinationCIDRs := [];
                Action := ACTION_ACCEPT |}).
Proof.
  intros Hfirst o. unfold Bootstrap in Hfirst. fold o in Hfirst.
  destruct (GetMeshDomain db) as [d | err] eqn:Hd.
  { destruct (GetIPv4Prefix db); [| discriminate].
    destruct (GetIPv6Prefix db); discriminate. }
  destruct (IsKeyNotFound err); [| discriminate]. simpl in Hfirst.
  destruct (ParsePrefix _) as [v4 | e4]; [| discriminate].
  destruct GenerateULA as [v6 | e6]; [| discriminate].
  destruct (seed _ _ _ _) as [db2 err2] eqn:Hseed.
  injection Hfirst as -> <- ->. simpl.
  unfold seed, SetIPv6Prefix, SetIPv4Prefix, SetMeshDomain, PutRole, PutRoleBinding,
    PutGroup, SetEnabled, PutNetworkACL in Hseed.
  repeat (apply StorageProofs.andThen_ok in Hseed as (? & Hstep & Hseed);
          lazymatch type of Hstep with
          | (if ?c then _ else _) = _ =>
              destruct c eqn:?;
              [apply StorageProofs.write_ok in Hstep as [_ ->] | injection Hstep as <-]
          | _ => apply StorageProofs.write_ok in Hstep as [_ ->]
          end;
          cbn [meshDomain ipv4Prefix ipv6Prefix roles rolebindings groups
               rbacDisabled networkACLs fault] in Hseed).
  all: injection Hseed as <-; simpl.
  all: split; [done |].
  all: split; [by rewrite lookup_insert_eq |].
  all: split;
    [rewrite lookup_insert_eq; unfold votersSubjects, nodeSubject; simpl;
     by rewrite fmap_app |].
  all: split; [by rewrite lookup_insert_eq |].
  all: match goal with H : DisableRBAC _ = _ |- _ => simpl in H; rewrite H end.
  all: split; [done |].
  all: match goal with
       | H : bool_decide _ = true |- _ => apply bool_decide_eq_true in H
       | H : bool_decide _ = false |- _ => apply bool_decide_eq_false in H
       end.
  all: split;
    [ intros Hpol; first [ by rewrite lookup_insert_eq | done ]
    | intros [Hpol | Hne];
      first [ done
            | by rewrite lookup_insert_eq
            | by rewrite lookup_insert_ne, lookup_insert_eq ] ].
Qed.

End WithEnvironment.

Lemma Bootstrap_checks_before_writing_witness :
  fst (fst (Bootstrap StorageExample.names StorageExample.ParsePrefix
              (inl StorageExample.ula6) StorageExample.emptyDB StorageExample.opts1))
  = StorageExample.emptyDB
  /\ snd (Bootstrap StorageExample.names StorageExample.ParsePrefix
            (inl StorageExample.ula6) StorageExample.emptyDB StorageExample.opts1)
     <> None.
Proof.
  apply (Bootstrap_checks_before_writing StorageExample.names StorageExample.ParsePrefix
           (inl StorageExample.ula6) StorageExample.emptyDB StorageExample.opts1).
  right; left. exists "netip.ParsePrefix: no '/'". vm_compute; reflexivity.
Defined.

Lemma Bootstrap_is_not_resumed_witness :
  let first := Bootstrap StorageExample.names StorageExample.ParsePrefix
                 (inl StorageExample.ula6) StorageExample.aclFaultDB
                 StorageExample.opts0 in
  snd first = Some (Errorf "create bootstrap nodes network acl: disk full")
  /\ Bootstrap StorageExample.names StorageExample.ParsePrefix
       (inl StorageExample.otherUla6) (fst (fst first)) StorageExample.opts1
     = (fst (fst first),
        {| NetworkV4 := StorageExample.net4; NetworkV6 := StorageExample.ula6;
           ResMeshDomain := "webmesh.internal" |},
        Some ErrAlreadyBootstrapped).
Proof.
  intros first. split; [vm_compute; reflexivity |].
  refine (proj1 (Bootstrap_is_not_resumed StorageExample.names
                   StorageExample.ParsePrefix StorageExample.ParsePrefix
                   (inl StorageExample.ula6) (inl StorageExample.otherUla6)
                   StorageExample.aclFaultDB StorageExample.opts0 StorageExample.opts1
                   StorageExample.net4 StorageExample.ula6 _ _ _ _ _ _ _ _));
    vm_compute; reflexivity.
Defined.

Lemma Bootstrap_success_state_witness :
  let first := Bootstrap StorageExample.names StorageExample.ParsePrefix
                 (inl StorageExample.ula6) StorageExample.emptyDB
                 StorageExample.opts0 in
  snd first = None
  /\ groups (fst (fst first)) !! "voters"
     = Some {| GroupName := "voters";
               GroupSubjects := [ {| SubjectName := "admin"; Type_ := SUBJECT_NODE |};
                                  {| SubjectName := "node-1"; Type_ := SUBJECT_NODE |};
                                  {| SubjectName := "node-2"; Type_ := SUBJECT_NODE |} ] |}.
Proof.
  intros first.
  assert (Hfirst : first = (fst (fst first), snd (fst first), None))
    by (vm_compute; reflexivity).
  split; [vm_compute; reflexivity |].
  exact (proj1 (proj2 (proj2 (Bootstrap_success_state StorageExample.names
                                StorageExample.ParsePrefix (inl StorageExample.ula6)
                                StorageExample.emptyDB (fst (fst first))
                                StorageExample.opts0 (snd (fst first)) Hfirst)))).
Defined.

End StorageMore.

(** ** Peer resolution: what a peer entry holds *)
Module SvcutilMore.
Import Svcutil.

#[local] Arguments Svcutil.recurseEdges : simpl never.

Section WithPrefixText.

Context (ParsePrefix : string -> Result Prefix).

Section Traversal.

Context (nw : Networking) (graph : Graph) (adj : AdjacencyMap).
Context (thisPeer : string) (thisRoutes : list Prefix).

(** A node's own step: its addresses, then its routes. *)
Lemma nodeStep_exact (n : Node) (ips rts ips1 rts1 : list Prefix) :
  Svcutil.routeStep ParsePrefix nw thisRoutes (ID n) (appendAddresses ips n) rts
  = Ok (ips1, rts1) ->
  (forall q, q ∈ ips1 <-> q ∈ ips \/ contributes ParsePrefix nw thisRoutes n q)
  /\ (forall q, q ∈ rts1 <-> q ∈ rts \/ (lacksRoutes nw n /\ q ∈ thisRoutes)).
Proof.
  intros (routes & Hget & Hsome & Hnone & _)%SvcutilProofs.routeStep_spec.
  unfold contributes, lacksRoutes. rewrite Hget.
  destruct routes as [| r routes].
  - destruct (Hnone eq_refl) as [-> ->]. split; intros q.
    + rewrite SvcutilProofs.appendAddresses_elem_of. split; [naive_solver |].
      intros [? | [? | (_ & routes' & [= <-] & (? & ? & []%elem_of_nil & _))]]; auto.
    + rewrite SvcutilProofs.mergeMissing_elem_of. naive_solver.
  - destruct Hsome as [-> Hmem]; [done |]. split; intros q.
    + rewrite Hmem, SvcutilProofs.appendAddresses_elem_of. split.
      * intros [[? | ?] | [? ?]]; [by left | right; by left |].
        right; right. split; [done |]. by exists (r :: routes).
      * intros [? | [? | (? & routes' & [= <-] & ?)]]; auto.
    + naive_solver.
Qed.

Lemma eachTarget_explores
    (recurse : Node -> gset string -> Res (gset string * list Prefix * list Prefix))
    (targets : list string) (visited : gset string) (ips0 rts0 : list Prefix)
    (r : gset string * list Prefix * list Prefix) :
  (forall n v, explored ParsePrefix nw graph adj thisPeer thisRoutes n v (recurse n v)) ->
  Svcutil.eachTarget ParsePrefix recurse nw graph thisPeer thisRoutes
    (adjacents adj thisPeer) targets visited ips0 rts0 = Ok r ->
  loopExplored ParsePrefix nw graph adj thisPeer thisRoutes targets visited ips0 rts0 r.
Proof.
  intros Hrec. revert visited ips0 rts0.
  induction targets as [| t targets IH]; intros visited ips0 rts0; simpl.
  - intros [= <-]. unfold loopExplored, accounted.
    repeat split; try done; try (intros; by left); try set_solver.
  - assert (Hskip : forall r',
              (t = thisPeer \/ t ∈ adjacents adj thisPeer \/ t ∈ visited) ->
              loopExplored ParsePrefix nw graph adj thisPeer thisRoutes
                targets visited ips0 rts0 r' ->
              loopExplored ParsePrefix nw graph adj thisPeer thisRoutes
                (t :: targets) visited ips0 rts0 r').
    { intros [[v' ips] rts] Hwhy (La & Lb & Lc & Ld & Lei & Ler & Lacc).
      repeat split; try done.
      - intros x [-> | Hx]%elem_of_cons Hn1 Hn2; [| by apply Lb].
        destruct Hwhy as [? | [? | ?]]; [done | done | set_solver].
      - intros x Hx1 Hx2. destruct (Lc x Hx1 Hx2) as (t0 & ? & ? & ? & ?).
        exists t0. split; [by right | done].
      - apply Lacc.
      - apply Lacc.
      - apply Lacc. }
    case_bool_decide as Hpeer; [intros H; apply Hskip; [by left | by apply IH] |].
    case_bool_decide as Hda;
      [intros H; apply Hskip; [right; by left | by apply IH] |].
    case_bool_decide as Hvis;
      [intros H; apply Hskip; [right; by right | by apply IH] |].
    clear Hskip.
    destruct (Vertex graph t) as [n | e] eqn:Hv; simpl; [| done].
    destruct (SvcutilProofs.Vertex_ID _ _ _ Hv) as [Hid _].
    destruct (Svcutil.routeStep _ _ _ _ _ _) as [[ips1 rts1] | e |] eqn:Hstep; simpl;
      [| done | done].
    apply nodeStep_exact in Hstep as [Hi1 Hr1].
    pose proof (Hrec n ({[t]} ∪ visited)) as Hex.
    destruct (recurse n _) as [[[v1 eips] erts] | e |] eqn:Hcall; simpl; [| done | done].
    simpl in Hex. rewrite Hid in Hex.
    destruct Hex as (Ha & Hb & Hc & Hcov & Hji & Hjr).
    intros Hrest. apply IH in Hrest. destruct r as [[v' ips] rts].
    destruct Hrest as (La & Lb & Lc & Ld & Lei & Ler & Lcov & Lji & Ljr).
    assert (Hips1 : forall q, q ∈ ips1 -> q ∈ ips).
    { intros q Hq. apply Lei, SvcutilProofs.mergeMissing_elem_of. by left. }
    assert (Hrts1 : forall q, q ∈ rts1 -> q ∈ rts).
    { intros q Hq. apply Ler, SvcutilProofs.mergeMissing_elem_of. by left. }
    assert (Heips : forall q, q ∈ eips -> q ∈ ips).
    { intros q Hq. apply Lei, SvcutilProofs.mergeMissing_elem_of. by right. }
    assert (Herts : forall q, q ∈ erts -> q ∈ rts).
    { intros q Hq. apply Ler, SvcutilProofs.mergeMissing_elem_of. by right. }
    assert (Htv1 : t ∈ v1) by set_solver.
    assert (Hvv1 : visited ⊆ v1) by set_solver.
    split; [set_solver |]. split; [| split; [| split; [| split; [| split]]]].
    + intros x [-> | Hx]%elem_of_cons Hn1 Hn2; [set_solver | by apply Lb].
    + intros x Hx1 Hx2. destruct (decide (x ∈ v1)) as [Hin | Hout].
      * exists t. split; [by left |]. split; [done |]. split; [done |].
        destruct (decide (x = t)) as [-> | Hne]; [done |].
        apply Hb; [done | set_solver].
      * destruct (Lc x Hx1 Hout) as (t0 & ? & ? & ? & ?).
        exists t0. split; [by right | done].
    + intros x u Hx1 Hx2 Hxu. destruct (decide (x ∈ v1)) as [Hin | Hout].
      * apply La. apply (Hc x u); [| done].
        destruct (decide (x = t)) as [-> | Hne]; [by left | right; set_solver].
      * by apply (Ld x u).
    + intros q Hq. apply Hips1, Hi1. by left.
    + intros q Hq. apply Hrts1, Hr1. by left.
    + split; [| split].
      * intros x [Hx1 Hx2]. destruct (decide (x ∈ v1)) as [Hin | Hout].
        -- destruct (decide (x = t)) as [-> | Hne].
           ++ exists n. split; [done |]. split.
              ** intros q Hq. apply Hips1, Hi1. by right.
              ** intros Hl q Hq. apply Hrts1, Hr1. by right.
           ++ destruct (Hcov x) as (tn & Hx & Hxi & Hxr); [set_solver |].
              exists tn. split; [done |]. split.
              ** intros q Hq. by apply Heips, Hxi.
              ** intros Hl q Hq. by apply Herts, Hxr.
        -- by apply Lcov.
      * intros q Hq. apply Lji in Hq as [Hq | (x & tn & [Hx1 Hx2] & Hx & Hq)].
        -- apply SvcutilProofs.mergeMissing_elem_of in Hq as [Hq | Hq].
           ++ apply Hi1 in Hq as [Hq | Hq]; [by left |].
              right. exists t, n. split; [set_solver | done].
           ++ apply Hji in Hq as [[]%elem_of_nil | (x & tn & [Hx1 Hx2] & Hx & Hq)].
              right. exists x, tn. split; [set_solver | done].
        -- right. exists x, tn. split; [set_solver | done].
      * intros q Hq. apply Ljr in Hq as [Hq | (Hq & x & tn & [Hx1 Hx2] & Hx & Hl)].
        -- apply SvcutilProofs.mergeMissing_elem_of in Hq as [Hq | Hq].
           ++ apply Hr1 in Hq as [Hq | [Hl Hq]]; [by left |].
              right. split; [done |]. exists t, n. split; [set_solver | done].
           ++ apply Hjr in Hq
                as [[]%elem_of_nil | (Hq & x & tn & [Hx1 Hx2] & Hx & Hl)].
              right. split; [done |]. exists x, tn. split; [set_solver | done].
        -- right. split; [done |]. exists x, tn. split; [set_solver | done].
Qed.

Lemma recurseEdges_explores (fuel : nat) (node : Node) (visited : gset string) :
  explored ParsePrefix nw graph adj thisPeer thisRoutes node visited
    (Svcutil.recurseEdges ParsePrefix fuel nw graph adj thisPeer thisRoutes node visited).
Proof.
  revert node visited. induction fuel as [| fuel IH]; intros node visited; [done |].
  rewrite SvcutilProofs.recurseEdges_S.
  destruct (Svcutil.eachTarget _ _ _ _ _ _ _ _ _ _ _) as [[[v' ips] rts] | e |] eqn:Hloop;
    [| done | done].
  apply eachTarget_explores in Hloop; [| exact IH].
  destruct Hloop as (La & Lb & Lc & Ld & _ & _ & Lacc).
  split; [done |]. split; [| split; [| done]].
  - intros t Ht1 Ht2. destruct (Lc t Ht1 Ht2) as (t0 & H0 & H1 & H2 & Hrtc).
    by apply rtc_l with t0.
  - intros t u [-> | [Ht1 Ht2]] (Hu1 & Hu2 & Hu3).
    + by apply Lb.
    + destruct (decide (t = ID node)) as [-> | Hne]; [by apply Lb |].
      apply (Ld t u); [done | set_solver | done].
Qed.

(** The entry of a peer, exactly: the allowed addresses are the
    contributions of the nodes that relay steps reach from the peer, and
    the allowed routes are the routes of the requesting node if one of
    those nodes exposes no route, and none otherwise. Each of those nodes
    is a vertex of the graph. *)
Lemma recursePeers_exact (node : Node) (ips rts : list Prefix) :
  Vertex graph (ID node) = ROk node ->
  Svcutil.recursePeers ParsePrefix nw graph adj thisPeer thisRoutes node = Ok (ips, rts) ->
  (forall t, rtc (relayStep adj thisPeer) (ID node) t -> exists tn, Vertex graph t = ROk tn)
  /\ (forall q, q ∈ ips <->
        exists t tn, rtc (relayStep adj thisPeer) (ID node) t
                     /\ Vertex graph t = ROk tn
                     /\ contributes ParsePrefix nw thisRoutes tn q)
  /\ (forall q, q ∈ rts <->
        q ∈ thisRoutes
        /\ exists t tn, rtc (relayStep adj thisPeer) (ID node) t
                        /\ Vertex graph t = ROk tn /\ lacksRoutes nw tn).
Proof.
  intros Hself (ips0 & rts0 & v & eips & erts & Hstep & Hrec & -> & ->)
    %SvcutilProofs.recursePeers_inv.
  apply nodeStep_exact in Hstep as [Hi0 Hr0].
  pose proof (recurseEdges_explores (traversalFuel adj) node ∅) as Hex.
  rewrite Hrec in Hex. destruct Hex as (Ha & Hb & Hc & Hcov & Hji & Hjr).
  assert (Hclosed : forall t, rtc (relayStep adj thisPeer) (ID node) t -> t ∈ v).
  { apply (rtc_ind_r (fun t => t ∈ v)); [set_solver |].
    intros y z _ Hyz IHy. apply (Hc y z); [| done].
    right. split; [done | set_solver]. }
  assert (Hnew : forall t, t ∈ v ->
                   t = ID node \/ (t ∈ v /\ t ∉ {[ID node]} ∪ (∅ : gset string))).
  { intros t Ht. destruct (decide (t = ID node)); [by left | right; set_solver]. }
  split; [| split].
  - intros t Ht%Hclosed. destruct (Hnew t Ht) as [-> | Hn]; [by exists node |].
    destruct (Hcov t Hn) as (tn & ? & _). by exists tn.
  - intros q. rewrite SvcutilProofs.mergeMissing_elem_of, Hi0. split.
    + intros [[[]%elem_of_nil | Hq] | Hq].
      * exists (ID node), node. split; [done | done].
      * apply Hji in Hq as [[]%elem_of_nil | (t & tn & [Ht1 Ht2] & Ht & Hq)].
        exists t, tn. split; [by apply Hb | done].
    + intros (t & tn & Ht%Hclosed & Hv & Hq).
      destruct (Hnew t Ht) as [-> | Hn].
      * left; right. rewrite Hself in Hv. by injection Hv as <-.
      * right. destruct (Hcov t Hn) as (tn' & Hv' & Hall & _).
        rewrite Hv in Hv'. injection Hv' as <-. by apply Hall.
  - intros q. rewrite SvcutilProofs.mergeMissing_elem_of, Hr0. split.
    + intros [[[]%elem_of_nil | [Hl Hq]] | Hq].
      * split; [done |]. by exists (ID node), node.
      * apply Hjr in Hq as [[]%elem_of_nil | (Hq & t & tn & [Ht1 Ht2] & Ht & Hl)].
        split; [done |]. exists t, tn. split; [by apply Hb | done].
    + intros (Hq & t & tn & Ht%Hclosed & Hv & Hl).
      destruct (Hnew t Ht) as [-> | Hn].
      * left; right. rewrite Hself in Hv. by injection Hv as <-.
      * right. destruct (Hcov t Hn) as (tn' & Hv' & _ & Hall).
        rewrite Hv in Hv'. injection Hv' as <-. by apply Hall.
Qed.

End Traversal.

Section PeerList.

Context (PrefixString : Prefix -> string).
Context (nw : Networking) (graph : Graph).

(** Every entry of the peer list was made from the vertex of a direct
    adjacent and from the lists [recursePeers] returned for it. *)
Lemma eachAdjacent_entries (adj : AdjacencyMap) (peerID : string)
    (ourRoutes : list Prefix) (das : list string) (out0 out : list WireGuardPeer) :
  Svcutil.eachAdjacent ParsePrefix PrefixString nw graph adj peerID ourRoutes das out0
  = Ok out ->
  forall p, p ∈ out ->
    p ∈ out0
    \/ exists node ips rts,
         Id p = ID node /\ ID node ∈ das /\ Vertex graph (ID node) = ROk node
         /\ Svcutil.recursePeers ParsePrefix nw graph adj peerID ourRoutes node
            = Ok (ips, rts)
         /\ WireguardEndpoints p = WireGuardEndpoints node
         /\ PeerPrimaryEndpoint p = preferredEndpoint node
         /\ AllowedIps p = PrefixString <$> ips
         /\ AllowedRoutes p = PrefixString <$> rts.
Proof.
  revert out0. induction das as [| a das IH]; intros out0; simpl.
  - intros [= <-] p Hp. by left.
  - destruct (Vertex graph a) as [n | e] eqn:Hv; simpl; [| done].
    destruct (SvcutilProofs.Vertex_ID _ _ _ Hv) as [Hid _].
    destruct (Svcutil.recursePeers _ _ _ _ _ _ _) as [[ips rts] | e |] eqn:Hrec; simpl;
      [| done | done].
    intros Hrest p Hp.
    destruct (IH _ Hrest p Hp)
      as [[Hp0 | ->%list_elem_of_singleton]%elem_of_app
         | (node & ips' & rts' & ? & ? & ?)].
    + by left.
    + right. exists n, ips, rts. simpl. rewrite Hid.
      split; [done |]. split; [by left |]. done.
    + right. exists node, ips', rts'. split; [done |]. split; [by right | done].
Qed.

(** The routes of the requesting node, parsed. *)
Lemma parseCidrs_elem_of (cidrs : list string) (acc out : list Prefix) :
  Svcutil.parseCidrs ParsePrefix cidrs acc = Ok out ->
  forall q, q ∈ out <-> q ∈ acc \/ exists cidr, cidr ∈ cidrs /\ ParsePrefix cidr = ROk q.
Proof.
  revert acc. induction cidrs as [| c cidrs IH]; intros acc; simpl.
  - intros [= <-] q. split; [by left |]. by intros [? | (? & []%elem_of_nil & _)].
  - destruct (ParsePrefix c) as [prefix | e] eqn:Hc; simpl; [| done].
    intros Hrest q. rewrite (IH _ Hrest), elem_of_app, list_elem_of_singleton. split.
    + intros [[? | ->] | (c' & ? & ?)]; [by left | |].
      * right. exists c. split; [by left | done].
      * right. exists c'. split; [by right | done].
    + intros [? | (c' & [-> | ?]%elem_of_cons & Hq)].
      * left. by left.
      * left. right. congruence.
      * right. by exists c'.
Qed.

Lemma parseRoutes_elem_of (routes : list Route) (acc out : list Prefix) :
  Svcutil.parseRoutes ParsePrefix routes acc = Ok out ->
  forall q, q ∈ out <-> q ∈ acc \/ advertised ParsePrefix routes q.
Proof.
  revert acc. induction routes as [| r routes IH]; intros acc; simpl.
  - intros [= <-] q. split; [by left |].
    by intros [? | (? & ? & []%elem_of_nil & _)].
  - destruct (Svcutil.parseCidrs _ _ _) as [mid | e |] eqn:Hc; simpl; [| done | done].
    intros Hrest q. rewrite (IH _ Hrest), (parseCidrs_elem_of _ _ _ Hc).
    unfold advertised. split.
    + intros [[? | (c & ? & ?)] | (r' & c & ? & ? & ?)]; [by left | |].
      * right. exists r, c. split; [by left | done].
      * right. exists r', c. split; [by right | done].
    + intros [? | (r' & c & [-> | ?]%elem_of_cons & ? & ?)].
      * left. by left.
      * left. right. by exists c.
      * right. by exists r', c.
Qed.

(** A successful call, taken apart. *)
Lemma WireGuardPeersFor_inv (peerID : string) (adj : AdjacencyMap)
    (routes : list Route) (out : list WireGuardPeer) :
  FilterGraph nw graph peerID = ROk adj ->
  GetRoutesByNode nw peerID = ROk routes ->
  Svcutil.WireGuardPeersFor ParsePrefix PrefixString nw graph peerID = Ok out ->
  exists ourRoutes,
    (forall q, q ∈ ourRoutes <-> advertised ParsePrefix routes q)
    /\ Svcutil.eachAdjacent ParsePrefix PrefixString nw graph adj peerID ourRoutes
         (adjacents adj peerID) [] = Ok out.
Proof.
  intros Hfilter Hroutes. unfold Svcutil.WireGuardPeersFor.
  rewrite Hfilter, Hroutes. simpl.
  destruct (Svcutil.parseRoutes _ _ _) as [ourRoutes | e |] eqn:Hparse; simpl;
    [| done | done].
  intros Hout. exists ourRoutes. split; [| done].
  intros q. rewrite (parseRoutes_elem_of _ _ _ Hparse). split; [| by right].
  by intros [[]%elem_of_nil | ?].
Qed.


(** X20. The allowed addresses of a peer entry, exactly: with [ourRoutes]
    the prefixes the requesting node advertises, a text is among the
    AllowedIps of the entry of peer P if and only if it is the text of a
    valid private address, or of an advertised prefix outside [ourRoutes],
    of a node that relay steps reach from P — steps along the filtered
    adjacency map that do not enter the requesting node or one of its
    direct adjacents. *)
Theorem WireGuardPeersFor_allowed_ips (peerID : string) (adj : AdjacencyMap)
    (routes : list Route) (out : list WireGuardPeer) :
  FilterGraph nw graph peerID = ROk adj ->
  GetRoutesByNode nw peerID = ROk routes ->
  Svcutil.WireGuardPeersFor ParsePrefix PrefixString nw graph peerID = Ok out ->
  exists ourRoutes,
    (forall q, q ∈ ourRoutes <-> advertised ParsePrefix routes q)
    /\ forall p, p ∈ out -> forall text,
         text ∈ AllowedIps p <->
         exists t tn q, rtc (relayStep adj peerID) (Id p) t
                        /\ Vertex graph t = ROk tn
                        /\ contributes ParsePrefix nw ourRoutes tn q
                        /\ text = PrefixString q.
Proof.
  intros Hfilter Hroutes Hout.
  destruct (WireGuardPeersFor_inv _ _ _ _ Hfilter Hroutes Hout) as (ourRoutes & Hour & Hloop).
  exists ourRoutes. split; [done |]. intros p Hp text.
  destruct (eachAdjacent_entries _ _ _ _ _ _ Hloop p Hp)
    as [[]%elem_of_nil | (node & ips & rts & -> & _ & Hv & Hrec & _ & _ & -> & _)].
  destruct (recursePeers_exact _ _ _ _ _ _ _ _ Hv Hrec) as (_ & Hips & _).
  rewrite list_elem_of_fmap. split.
  - intros (q & -> & (t & tn & ? & ? & ?)%Hips). by exists t, tn, q.
  - intros (t & tn & q & ? & ? & ? & ->). exists q. split; [done |].
    apply Hips. by exists t, tn.
Qed.

(** X21. The allowed routes of a peer entry, exactly: the routes of the
    requesting node are offered to peer P when P, or a node that relay
    steps reach from P, exposes no route of its own, and then all of them
    are; otherwise the entry has no allowed route. *)
Theorem WireGuardPeersFor_allowed_routes (peerID : string) (adj : AdjacencyMap)
    (routes : list Route) (out : list WireGuardPeer) :
  FilterGraph nw graph peerID = ROk adj ->
  GetRoutesByNode nw peerID = ROk routes ->
  Svcutil.WireGuardPeersFor ParsePrefix PrefixString nw graph peerID = Ok out ->
  forall p, p ∈ out -> forall text,
    text ∈ AllowedRoutes p <->
    (exists q, advertised ParsePrefix routes q /\ text = PrefixString q)
    /\ exists t tn, rtc (relayStep adj peerID) (Id p) t
                    /\ Vertex graph t = ROk tn /\ lacksRoutes nw tn.
Proof.
  intros Hfilter Hroutes Hout p Hp text.
  destruct (WireGuardPeersFor_inv _ _ _ _ Hfilter Hroutes Hout) as (ourRoutes & Hour & Hloop).
  destruct (eachAdjacent_entries _ _ _ _ _ _ Hloop p Hp)
    as [[]%elem_of_nil | (node & ips & rts & -> & _ & Hv & Hrec & _ & _ & _ & ->)].
  destruct (recursePeers_exact _ _ _ _ _ _ _ _ Hv Hrec) as (_ & _ & Hrts).
  rewrite list_elem_of_fmap. split.
  - intros (q & -> & [Hq Hrelay]%Hrts). split; [| done].
    exists q. split; [by apply Hour | done].
  - intros [(q & Hq & ->) Hrelay]. exists q. split; [done |].
    apply Hrts. split; [by apply Hour | done].
Qed.

(** X22. All or nothing: if relay steps from a direct adjacent of the
    requesting node reach an identifier the graph has no vertex for, the
    call returns an error, not a shorter list. *)
Theorem WireGuardPeersFor_dangling_edge (peerID : string) (adj : AdjacencyMap)
    (a t e : string) :
  FilterGraph nw graph peerID = ROk adj ->
  a ∈ adjacents adj peerID ->
  rtc (relayStep adj peerID) a t ->
  Vertex graph t = RErr e ->
  exists msg, Svcutil.WireGuardPeersFor ParsePrefix PrefixString nw graph peerID = Err msg.
Proof.
  intros Hfilter Ha Hrelay Hmissing.
  destruct (Svcutil.WireGuardPeersFor _ _ _ _ _) as [out | msg |] eqn:Hout;
    [| by exists msg | by apply SvcutilProofs.WireGuardPeersFor_returns in Hout].
  exfalso.
  destruct (GetRoutesByNode nw peerID) as [routes | e'] eqn:Hroutes.
  2:{ unfold Svcutil.WireGuardPeersFor in Hout. by rewrite Hfilter, Hroutes in Hout. }
  destruct (WireGuardPeersFor_inv _ _ _ _ Hfilter Hroutes Hout) as (ourRoutes & _ & Hloop).
  pose proof (SvcutilProofs.eachAdjacent_ids _ _ _ _ _ _ _ _ _ _ Hloop) as Hids.
  simpl in Hids. rewrite <- Hids in Ha.
  apply list_elem_of_fmap in Ha as (p & -> & Hp).
  destruct (eachAdjacent_entries _ _ _ _ _ _ Hloop p Hp)
    as [[]%elem_of_nil | (node & ips & rts & Hid & _ & Hv & Hrec & _)].
  destruct (recursePeers_exact _ _ _ _ _ _ _ _ Hv Hrec) as (Hvertices & _).
  rewrite Hid in Hrelay. destruct (Hvertices t Hrelay) as [tn Htn]. congruence.
Qed.

Lemma prefix_nonempty (p e : string) :
  String.prefix p e = true -> p <> "" -> e <> "".
Proof. destruct p, e; done. Qed.

Lemma preferredEndpoint_spec (node : Node) :
  (preferredEndpoint node ∈ WireGuardEndpoints node
   \/ (WireGuardEndpoints node = [] /\ preferredEndpoint node = ""))
  /\ (PrimaryEndpoint node <> "" ->
      forall e, e ∈ WireGuardEndpoints node ->
                String.prefix (PrimaryEndpoint node) e = true ->
                find (String.prefix (PrimaryEndpoint node)) (WireGuardEndpoints node)
                = Some (preferredEndpoint node))
  /\ (PrimaryEndpoint node = ""
      \/ find (String.prefix (PrimaryEndpoint node)) (WireGuardEndpoints node) = None ->
      preferredEndpoint node = default "" (head (WireGuardEndpoints node))).
Proof.
  unfold preferredEndpoint. cbv zeta.
  destruct (bool_decide (PrimaryEndpoint node <> "")) eqn:Hprimary.
  - apply bool_decide_eq_true in Hprimary.
    destruct (find _ _) as [found |] eqn:Hfind; cbn [default from_option].
    + apply find_some in Hfind as [Hin Hpre].
      rewrite bool_decide_false by (by eapply prefix_nonempty).
      split; [left; by apply list_elem_of_In |]. split; [done |].
      by intros [? | ?].
    + rewrite bool_decide_true by done. split; [| split].
      * destruct (WireGuardEndpoints node); [by right | left; by left].
      * intros _ e He%list_elem_of_In Hpre.
        by rewrite (find_none _ _ Hfind e He) in Hpre.
      * intros _. by destruct (WireGuardEndpoints node).
  - apply bool_decide_eq_false in Hprimary.
    rewrite bool_decide_true by done. split; [| split].
    + destruct (WireGuardEndpoints node); [by right | left; by left].
    + done.
    + intros _. by destruct (WireGuardEndpoints node).
Qed.

(** X23. The endpoint a peer entry prefers. The entry lists the endpoints
    of the vertex of its ID, and the preferred endpoint is one of them
    whenever there is any, and the empty text when there is none: it is the
    first endpoint that begins with the primary endpoint the node names, if
    the node names one and an endpoint begins with it, and the first
    endpoint listed otherwise. (An endpoint list can hold the empty text,
    which is then preferred like any other.) *)
Theorem WireGuardPeersFor_primary_endpoint (peerID : string)
    (out : list WireGuardPeer) (p : WireGuardPeer) :
  Svcutil.WireGuardPeersFor ParsePrefix PrefixString nw graph peerID = Ok out ->
  p ∈ out ->
  exists node,
    Vertex graph (Id p) = ROk node
    /\ WireguardEndpoints p = WireGuardEndpoints node
    /\ (PeerPrimaryEndpoint p ∈ WireguardEndpoints p
        \/ (WireguardEndpoints p = [] /\ PeerPrimaryEndpoint p = ""))
    /\ (PrimaryEndpoint node <> "" ->
        forall e, e ∈ WireguardEndpoints p ->
                  String.prefix (PrimaryEndpoint node) e = true ->
                  find (String.prefix (PrimaryEndpoint node)) (WireguardEndpoints p)
                  = Some (PeerPrimaryEndpoint p))
    /\ (PrimaryEndpoint node = ""
        \/ find (String.prefix (PrimaryEndpoint node)) (WireguardEndpoints p) = None ->
        PeerPrimaryEndpoint p = default "" (head (WireguardEndpoints p))).
Proof.
  intros Hout Hp.
  destruct (FilterGraph nw graph peerID) as [adj | e] eqn:Hfilter.
  2:{ unfold Svcutil.WireGuardPeersFor in Hout. by rewrite Hfilter in Hout. }
  destruct (GetRoutesByNode nw peerID) as [routes | e] eqn:Hroutes.
  2:{ unfold Svcutil.WireGuardPeersFor in Hout. by rewrite Hfilter, Hroutes in Hout. }
  destruct (WireGuardPeersFor_inv _ _ _ _ Hfilter Hroutes Hout) as (ourRoutes & _ & Hloop).
  destruct (eachAdjacent_entries _ _ _ _ _ _ Hloop p Hp)
    as [[]%elem_of_nil | (node & ips & rts & -> & _ & Hv & _ & -> & -> & _)].
  exists node. split; [done |]. split; [done |]. apply preferredEndpoint_spec.
Qed.

End PeerList.

End WithPrefixText.


(** X20, seen from Y on the edge X — Y, X advertising 10.0.0.0/24. *)
Lemma WireGuardPeersFor_allowed_ips_witness :
  let call := Svcutil.WireGuardPeersFor SvcutilExample.ParsePrefix
                SvcutilExample.PrefixString SvcutilExample.siteRoutes
                SvcutilExample.siteGraph "Y" in
  call = Ok (SvcutilExample.peersOf call)
  /\ exists ourRoutes,
       (forall q, q ∈ ourRoutes <-> advertised SvcutilExample.ParsePrefix [] q)
       /\ forall p, p ∈ SvcutilExample.peersOf call -> forall text,
            text ∈ AllowedIps p <->
            exists t tn q,
              rtc (relayStep (adjacencyOf SvcutilExample.siteGraph) "Y") (Id p) t
              /\ Vertex SvcutilExample.siteGraph t = ROk tn
              /\ contributes SvcutilExample.ParsePrefix SvcutilExample.siteRoutes
                   ourRoutes tn q
              /\ text = SvcutilExample.PrefixString q.
Proof.
  intros call.
  assert (Hcall : call = Ok (SvcutilExample.peersOf call)) by (vm_compute; reflexivity).
  split; [exact Hcall |].
  exact (WireGuardPeersFor_allowed_ips SvcutilExample.ParsePrefix
           SvcutilExample.PrefixString SvcutilExample.siteRoutes SvcutilExample.siteGraph
           "Y" (adjacencyOf SvcutilExample.siteGraph) [] (SvcutilExample.peersOf call)
           eq_refl eq_refl Hcall).
Defined.

(** X21, seen from X: Y exposes no route and is offered 10.0.0.0/24. *)
Lemma WireGuardPeersFor_allowed_routes_witness :
  let call := Svcutil.WireGuardPeersFor SvcutilExample.ParsePrefix
                SvcutilExample.PrefixString SvcutilExample.siteRoutes
                SvcutilExample.siteGraph "X" in
  let routes := [ {| RouteName := "x-lan"; DestinationCidrs := ["10.0.0.0/24"] |} ] in
  call = Ok (SvcutilExample.peersOf call)
  /\ forall p, p ∈ SvcutilExample.peersOf call -> forall text,
       text ∈ AllowedRoutes p <->
       (exists q, advertised SvcutilExample.ParsePrefix routes q
                  /\ text = SvcutilExample.PrefixString q)
       /\ exists t tn,
            rtc (relayStep (adjacencyOf SvcutilExample.siteGraph) "X") (Id p) t
            /\ Vertex SvcutilExample.siteGraph t = ROk tn
            /\ lacksRoutes SvcutilExample.siteRoutes tn.
Proof.
  intros call routes.
  assert (Hcall : call = Ok (SvcutilExample.peersOf call)) by (vm_compute; reflexivity).
  split; [exact Hcall |].
  exact (WireGuardPeersFor_allowed_routes SvcutilExample.ParsePrefix
           SvcutilExample.PrefixString SvcutilExample.siteRoutes SvcutilExample.siteGraph
           "X" (adjacencyOf SvcutilExample.siteGraph) routes (SvcutilExample.peersOf call)
           eq_refl eq_refl Hcall).
Defined.

(** X22: A — B, and B keeps an edge to a node that is no vertex any more. *)
Lemma WireGuardPeersFor_dangling_edge_witness :
  exists msg,
    Svcutil.WireGuardPeersFor SvcutilExample.ParsePrefix SvcutilExample.PrefixString
      SvcutilExample.allowAll SvcutilExample.danglingGraph "A" = Err msg.
Proof.
  apply (WireGuardPeersFor_dangling_edge SvcutilExample.ParsePrefix
           SvcutilExample.PrefixString SvcutilExample.allowAll
           SvcutilExample.danglingGraph "A" (adjacencyOf SvcutilExample.danglingGraph)
           "B" "ghost" "vertex not found").
  - reflexivity.
  - apply (bool_decide_eq_true_1 _). vm_compute. reflexivity.
  - apply rtc_once. split; [| split].
    + apply (bool_decide_eq_true_1 _). vm_compute. reflexivity.
    + discriminate.
    + apply (bool_decide_eq_false_1 _). vm_compute. reflexivity.
  - vm_compute. reflexivity.
Defined.

(** X23: the gateway's endpoint on its public address is preferred to the
    first one listed. *)
Lemma WireGuardPeersFor_primary_endpoint_witness :
  let peers :=
    SvcutilExample.peersOf
      (Svcutil.WireGuardPeersFor SvcutilExample.ParsePrefix SvcutilExample.PrefixString
         SvcutilExample.allowAll SvcutilExample.gatewayGraph "n1") in
  Id <$> peers = ["gw"]
  /\ forall p, p ∈ peers ->
       find (String.prefix "203.0.113.7") (WireguardEndpoints p)
       = Some (PeerPrimaryEndpoint p)
       /\ PeerPrimaryEndpoint p = "203.0.113.7:51820".
Proof.
  intros peers.
  assert (Hcall : Svcutil.WireGuardPeersFor SvcutilExample.ParsePrefix
                    SvcutilExample.PrefixString SvcutilExample.allowAll
                    SvcutilExample.gatewayGraph "n1" = Ok peers)
    by (vm_compute; reflexivity).
  split; [vm_compute; reflexivity |]. intros p Hp.
  destruct (WireGuardPeersFor_primary_endpoint SvcutilExample.ParsePrefix
              SvcutilExample.PrefixString SvcutilExample.allowAll
              SvcutilExample.gatewayGraph "n1" peers p Hcall Hp)
    as (node & Hv & Heps & _ & Hfirst & _).
  apply list_elem_of_In in Hp. vm_compute in Hp. destruct Hp as [<- | []].
  vm_compute in Hv. injection Hv as <-. split; [| reflexivity].
  apply (Hfirst ltac:(discriminate) "203.0.113.7:51820"); [by right; left | reflexivity].
Defined.

End SvcutilMore.

(** ** Identifiers and the stored lists *)
Module TypesProofs.
Import Types Networking.

Section WithUTF8.

Context (ToValidUTF8 : string -> string -> string).

Lemma IsValidID_commaFree (id : string) :
  IsValidID ToValidUTF8 id = true -> commaFree id.
Proof.
  unfold IsValidID, commaFree. case_bool_decide; [done |].
  destruct (negb _); [done |]. intros Hall.
  rewrite forallb_forall in Hall.
  specialize (Hall comma). rewrite negb_true_iff in Hall. apply Hall.
  unfold InvalidIDChars, comma. simpl. do 10 right. by left.
Qed.

(** X24. Identifiers that IsValidID accepts are safe in the stored node
    list of a route: on a database without faults, a route put with a
    non-empty list of valid node identifiers is read back with exactly that
    list, whatever its other fields hold. *)
Theorem valid_ids_survive_route_storage (now : Z) (db : DB) (route : Route) :
  read_fault db = None -> write_fault db = None ->
  Nodes route <> [] ->
  Forall (fun id => IsValidID ToValidUTF8 id = true) (Nodes route) ->
  snd (PutRoute now db route) = None
  /\ exists stored,
       GetRoute (fst (PutRoute now db route)) (RouteName route) = inl stored
       /\ Nodes stored = Nodes route.
Proof.
  intros Hr Hw Hne Hvalid. unfold PutRoute, raftdb_PutNetworkRoute. rewrite Hw. simpl.
  split; [done |]. unfold GetRoute, raftdb_GetNetworkRoute. simpl.
  rewrite Hr, lookup_insert_eq. simpl. eexists. split; [done |]. simpl.
  rewrite NetworkingMore.Split_Join_readBack.
  - by destruct (Nodes route).
  - eapply Forall_impl; [exact Hvalid |]. apply IsValidID_commaFree.
Qed.

End WithUTF8.

Lemma valid_ids_survive_route_storage_witness :
  let route := {| RouteName := "lan"; Nodes := ["site1-router"; "site1-follower"];
                  RouteDestinationCidrs := []; NextHopNodes := [] |} in
  exists stored,
    GetRoute (fst (PutRoute 0 NetworkingExample.db0 route)) "lan" = inl stored
    /\ Nodes stored = ["site1-router"; "site1-follower"].
Proof.
  intros route.
  refine (proj2 (valid_ids_survive_route_storage TypesExample.ToValidUTF8 0
                   NetworkingExample.db0 route _ _ _ _)).
  - reflexivity.
  - reflexivity.
  - discriminate.
  - repeat constructor.
Defined.

End TypesProofs.

(** ** The admin service *)
Module AdminProofs.
Import Admin.

Section WithServer.

Context (IsLeader : bool) (Evaluate : string -> bool * option string).

(** X25. The handler deletes nothing it should not: asked on a node that is
    not the leader, or without a name, or by a caller whose evaluation is
    not a clean yes, DeleteRoleBinding returns an error status and leaves
    the database as it was. The checks are made in that order: Unavailable
    before InvalidArgument before PermissionDenied, and a verdict of no is
    PermissionDenied also when the evaluation itself failed. *)
Theorem DeleteRoleBinding_refuses (db : Rbac.DB) (rbName : string) :
  IsLeader = false \/ rbName = "" \/ Evaluate rbName <> (true, None) ->
  fst (DeleteRoleBinding IsLeader Evaluate db rbName) = db
  /\ exists status,
       snd (DeleteRoleBinding IsLeader Evaluate db rbName) = Some status
       /\ StatusCode status
          = if negb IsLeader then Unavailable
            else if bool_decide (rbName = "") then InvalidArgument
            else if negb (fst (Evaluate rbName)) then PermissionDenied
            else Internal.
Proof.
  intros Hwhy. unfold DeleteRoleBinding.
  destruct IsLeader; simpl; [| by eauto].
  case_bool_decide as Hname; [by eauto |].
  destruct (Evaluate rbName) as [[|] [err |]]; simpl; [by eauto | | by eauto | by eauto].
  by destruct Hwhy as [? | [? | ?]].
Qed.

(** X26. Asked on the leader, with a name, by a caller who is allowed, and
    on a database that takes the write, DeleteRoleBinding returns no error
    and removes the role binding of that name and no other. *)
Theorem DeleteRoleBinding_deletes (db : Rbac.DB) (rbName : string) :
  IsLeader = true -> rbName <> "" -> Evaluate rbName = (true, None) ->
  Rbac.write_fault db = None ->
  snd (DeleteRoleBinding IsLeader Evaluate db rbName) = None
  /\ (Rbac.read_fault db = None ->
      Rbac.GetRoleBinding (fst (DeleteRoleBinding IsLeader Evaluate db rbName)) rbName
      = inr Rbac.ErrRoleBindingNotFound)
  /\ forall other, other <> rbName ->
       Rbac.GetRoleBinding (fst (DeleteRoleBinding IsLeader Evaluate db rbName)) other
       = Rbac.GetRoleBinding db other.
Proof.
  intros -> Hname Hyes Hw. unfold DeleteRoleBinding. simpl.
  rewrite bool_decide_false by done. rewrite Hyes.
  unfold Rbac.DeleteRoleBinding, Rbac.raftdb_DeleteRoleBinding. rewrite Hw. simpl.
  split; [done |]. split.
  - intros Hr. unfold Rbac.GetRoleBinding, Rbac.raftdb_GetRoleBinding. simpl.
    by rewrite Hr, lookup_delete_eq.
  - intros other Hother. unfold Rbac.GetRoleBinding, Rbac.raftdb_GetRoleBinding. simpl.
    by rewrite lookup_delete_ne.
Qed.

End WithServer.

Lemma DeleteRoleBinding_refuses_witness :
  fst (DeleteRoleBinding true AdminExample.Evaluate AdminExample.db0 "locked")
  = AdminExample.db0
  /\ exists status,
       snd (DeleteRoleBinding true AdminExample.Evaluate AdminExample.db0 "locked")
       = Some status
       /\ StatusCode status = PermissionDenied.
Proof.
  apply (DeleteRoleBinding_refuses true AdminExample.Evaluate AdminExample.db0 "locked").
  right; right. discriminate.
Defined.

Lemma DeleteRoleBinding_deletes_witness :
  let db := fst (DeleteRoleBinding true AdminExample.Evaluate AdminExample.db0
                   "viewers") in
  snd (DeleteRoleBinding true AdminExample.Evaluate AdminExample.db0 "viewers") = None
  /\ Rbac.GetRoleBinding db "viewers" = inr Rbac.ErrRoleBindingNotFound
  /\ Rbac.GetRoleBinding db "locked" = Rbac.GetRoleBinding AdminExample.db0 "locked".
Proof.
  intros db.
  destruct (DeleteRoleBinding_deletes true AdminExample.Evaluate AdminExample.db0
              "viewers" eq_refl ltac:(discriminate) eq_refl eq_refl)
    as (Hnone & Hgone & Hothers).
  split; [exact Hnone |]. split; [exact (Hgone eq_refl) |].
  apply Hothers. discriminate.
Defined.

End AdminProofs.

(** ** The first edges of the mesh *)
Module MeshnodeProofs.
Import Meshnode.

Section Writes.

Context (sources targets : list string).

Lemma writes_nothing (p : Peers) (err : option string) :
  writes sources targets p (p, err).
Proof.
  exists []. simpl. split; [by rewrite app_nil_r |]. by intros ? ? ?%elem_of_nil.
Qed.

Lemma writes_trans (p : Peers) (r1 r2 : Peers * option string) :
  writes sources targets p r1 -> writes sources targets (fst r1) r2 ->
  writes sources targets p r2.
Proof.
  intros (new1 & H1 & Hall1) (new2 & H2 & Hall2). exists (new1 ++ new2).
  split; [by rewrite H2, H1, app_assoc |].
  intros a b [? | ?]%elem_of_app; auto.
Qed.

Lemma Put_writes (p : Peers) (id : string) : writes sources targets p (Put p id).
Proof.
  unfold Put. destruct (node_fault p id); [apply writes_nothing |].
  exists []. simpl. split; [by rewrite app_nil_r |]. by intros ? ? ?%elem_of_nil.
Qed.

Lemma PutEdge_writes (p : Peers) (source target : string) :
  source <> target -> source ∈ sources -> target ∈ targets ->
  writes sources targets p (PutEdge p source target).
Proof.
  intros Hne Hs Ht. unfold PutEdge.
  destruct (edge_fault p (source, target)); [apply writes_nothing |].
  exists [(source, target)]. simpl. split; [done |].
  by intros a b [= -> ->]%list_elem_of_singleton.
Qed.

Lemma andThen_writes (p : Peers) (step : Peers * option string) (ctx : string)
    (k : Peers -> Peers * option string) :
  writes sources targets p step ->
  (forall p', writes sources targets p' (k p')) ->
  writes sources targets p (andThen step ctx k).
Proof.
  intros Hstep Hk. destruct step as [p1 [e |]]; simpl.
  - exact Hstep.
  - eapply writes_trans; [exact Hstep | apply Hk].
Qed.

Lemma createNodes_writes (nodeID : string) (servers : list string) (p : Peers) :
  writes sources targets p (createNodes nodeID servers p).
Proof.
  revert p. induction servers as [| id servers IH]; intros p; simpl.
  - apply writes_nothing.
  - case_bool_decide; [apply IH |]. apply andThen_writes; [apply Put_writes | apply IH].
Qed.

Lemma createEdgesFor_writes (id : string) (servers : list string) (p : Peers) :
  id ∈ sources -> (forall peer, peer ∈ servers -> peer ∈ targets) ->
  writes sources targets p (createEdgesFor id servers p).
Proof.
  intros Hid. revert p. induction servers as [| peer servers IH]; intros p Hsub; simpl.
  - apply writes_nothing.
  - assert (Hrest : forall x, x ∈ servers -> x ∈ targets)
      by (intros x Hx; apply Hsub; by right).
    case_bool_decide as Hne; [by apply IH |].
    assert (Hpeer : peer ∈ targets) by (apply Hsub; by left).
    apply andThen_writes; [by apply PutEdge_writes |]. intros p1.
    apply andThen_writes; [by apply PutEdge_writes |]. intros p2. by apply IH.
Qed.

Lemma createEdges_writes (ids servers : list string) (p : Peers) :
  (forall id, id ∈ ids -> id ∈ sources) ->
  (forall peer, peer ∈ servers -> peer ∈ targets) ->
  writes sources targets p (createEdges ids servers p).
Proof.
  intros Hids Hsub. revert p Hids. induction ids as [| id ids IH]; intros p Hids; simpl.
  - apply writes_nothing.
  - assert (Hfor : writes sources targets p (createEdgesFor id servers p)).
    { apply createEdgesFor_writes; [apply Hids; by left | done]. }
    destruct (createEdgesFor id servers p) as [p1 [e |]]; [done |].
    eapply writes_trans; [exact Hfor |]. apply IH. intros x Hx. apply Hids. by right.
Qed.

Lemma createDirectPeers_writes (nodeID : string) (directPeers : list string) (p : Peers) :
  nodeID ∈ sources -> (forall peer, peer ∈ directPeers -> peer ∈ targets) ->
  writes sources targets p (createDirectPeers nodeID directPeers p).
Proof.
  intros Hid. revert p.
  induction directPeers as [| peer directPeers IH]; intros p Hsub; simpl.
  - apply writes_nothing.
  - assert (Hrest : forall x, x ∈ directPeers -> x ∈ targets)
      by (intros x Hx; apply Hsub; by right).
    case_bool_decide as Hne; [by apply IH |].
    apply andThen_writes; [apply Put_writes |]. intros p1.
    apply andThen_writes.
    + apply PutEdge_writes; [by intros -> | done | apply Hsub; by left].
    + intros p2. by apply IH.
Qed.

End Writes.

(** X27. The first leader never writes an edge from a node to itself: the
    loops of its bootstrap only add edges, each from the leader or a
    bootstrap server to a bootstrap server or a direct peer, the two ends
    being different — also when a failing write cuts the loops short. *)
Theorem createTopology_no_self_edge (nodeID : string) (servers directPeers : list string)
    (p : Peers) :
  writes (nodeID :: servers) (servers ++ directPeers) p
    (createTopology nodeID servers directPeers p).
Proof.
  unfold createTopology.
  pose proof (createNodes_writes (nodeID :: servers) (servers ++ directPeers)
                nodeID servers p) as Hnodes.
  destruct (createNodes nodeID servers p) as [p1 [e |]]; [done |].
  eapply writes_trans; [exact Hnodes |]. simpl.
  assert (Hedges : writes (nodeID :: servers) (servers ++ directPeers) p1
                     (createEdges (servers ++ [nodeID]) servers p1)).
  { apply createEdges_writes.
    - intros id [? | ->%list_elem_of_singleton]%elem_of_app; [by right | by left].
    - intros peer Hpeer. apply elem_of_app. by left. }
  destruct (createEdges (servers ++ [nodeID]) servers p1) as [p2 [e |]]; [done |].
  eapply writes_trans; [exact Hedges |]. simpl.
  apply createDirectPeers_writes; [by left |].
  intros peer Hpeer. apply elem_of_app. by right.
Qed.

Lemma writes_keeps (sources targets : list string) (p : Peers)
    (r : Peers * option string) (e : string * string) :
  writes sources targets p r -> e ∈ edges p -> e ∈ edges (fst r).
Proof. intros (new & -> & _) He. apply elem_of_app. by left. Qed.

Lemma createEdgesFor_done (id : string) (servers : list string) (p p' : Peers) :
  createEdgesFor id servers p = (p', None) ->
  (forall e, e ∈ edges p -> e ∈ edges p')
  /\ forall peer, peer ∈ servers -> id <> peer -> (id, peer) ∈ edges p'.
Proof.
  revert p. induction servers as [| peer servers IH]; intros p; simpl.
  - intros [= <-]. split; [done |]. by intros ? ?%elem_of_nil.
  - case_bool_decide as Hne.
    + intros [Hkeep Hall]%IH. split; [done |].
      intros x [-> | Hx]%elem_of_cons Hx'; [done | by apply Hall].
    + unfold PutEdge at 1.
      destruct (edge_fault p (id, peer)) eqn:Hf1; simpl; [done |].
      unfold PutEdge at 1. simpl. rewrite Hf1. simpl.
      intros [Hkeep Hall]%IH. simpl in Hkeep. split.
      * intros e He. apply Hkeep. rewrite !elem_of_app. by left; left.
      * intros x [-> | Hx]%elem_of_cons Hx'; [| by apply Hall].
        apply Hkeep. rewrite !elem_of_app, list_elem_of_singleton. by right.
Qed.

Lemma createEdges_done (ids servers : list string) (p p' : Peers) :
  createEdges ids servers p = (p', None) ->
  (forall e, e ∈ edges p -> e ∈ edges p')
  /\ forall id peer, id ∈ ids -> peer ∈ servers -> id <> peer -> (id, peer) ∈ edges p'.
Proof.
  revert p. induction ids as [| id ids IH]; intros p; simpl.
  - intros [= <-]. split; [done |]. by intros ? ? ?%elem_of_nil.
  - destruct (createEdgesFor id servers p) as [p1 [e |]] eqn:Hfor; [done |].
    apply createEdgesFor_done in Hfor as [Hkeep1 Hall1].
    intros [Hkeep Hall]%IH. split; [by auto |].
    intros x peer [-> | Hx]%elem_of_cons Hpeer Hne; [by auto | by apply Hall].
Qed.

Lemma createDirectPeers_done (nodeID : string) (directPeers : list string)
    (p p' : Peers) :
  createDirectPeers nodeID directPeers p = (p', None) ->
  (forall e, e ∈ edges p -> e ∈ edges p')
  /\ forall peer, peer ∈ directPeers -> peer <> nodeID -> (nodeID, peer) ∈ edges p'.
Proof.
  revert p. induction directPeers as [| peer directPeers IH]; intros p; simpl.
  - intros [= <-]. split; [done |]. by intros ? ?%elem_of_nil.
  - case_bool_decide as Hne.
    + intros [Hkeep Hall]%IH. split; [done |].
      intros x [-> | Hx]%elem_of_cons Hx'; [done | by apply Hall].
    + unfold Put at 1. destruct (node_fault p peer); simpl; [done |].
      unfold PutEdge at 1. simpl.
      destruct (edge_fault p (nodeID, peer)); simpl; [done |].
      intros [Hkeep Hall]%IH. simpl in Hkeep. split.
      * intros e He. apply Hkeep. rewrite elem_of_app. by left.
      * intros x [-> | Hx]%elem_of_cons Hx'; [| by apply Hall].
        apply Hkeep. rewrite elem_of_app, list_elem_of_singleton. by right.
Qed.

(** X28. A bootstrap of the first leader that returns no error leaves a
    full mesh: every bootstrap server, and the leader, has an edge to every
    other bootstrap server, and the leader has an edge to every direct peer
    other than itself; the edges that were there before are kept. *)
Theorem createTopology_full_mesh (nodeID : string) (servers directPeers : list string)
    (p p' : Peers) :
  createTopology nodeID servers directPeers p = (p', None) ->
  (forall e, e ∈ edges p -> e ∈ edges p')
  /\ (forall id peer, id ∈ servers \/ id = nodeID -> peer ∈ servers -> id <> peer ->
        (id, peer) ∈ edges p')
  /\ (forall peer, peer ∈ directPeers -> peer <> nodeID -> (nodeID, peer) ∈ edges p').
Proof.
  unfold createTopology. intros Hrun.
  pose proof (createNodes_writes [] [] nodeID servers p) as Hnodes.
  destruct (createNodes nodeID servers p) as [p1 [e |]]; [done |].
  destruct (createEdges (servers ++ [nodeID]) servers p1) as [p2 [e |]] eqn:Hedges;
    [done |].
  apply createEdges_done in Hedges as [Hkeep2 Hall2].
  apply createDirectPeers_done in Hrun as [Hkeep3 Hall3].
  split; [| split; [| done]].
  - intros e He. apply Hkeep3, Hkeep2. by apply (writes_keeps _ _ _ _ _ Hnodes).
  - intros id peer Hid Hpeer Hne. apply Hkeep3, Hall2; [| done | done].
    apply elem_of_app. destruct Hid as [? | ->]; [by left | right; by left].
Qed.

(** X28, for the first leader [n1] of the servers [n1], [n2], [n3] with the
    direct peer [laptop]. *)
Lemma createTopology_full_mesh_witness :
  let p0 := {| nodes := ["n1"]; edges := [];
               node_fault := fun _ => None; edge_fault := fun _ => None |} in
  let run := createTopology "n1" ["n1"; "n2"; "n3"] ["laptop"] p0 in
  snd run = None
  /\ ("n3", "n2") ∈ edges (fst run)
  /\ ("n1", "laptop") ∈ edges (fst run).
Proof.
  intros p0 run.
  assert (Hrun : run = (fst run, None)) by (vm_compute; reflexivity).
  destruct (createTopology_full_mesh "n1" ["n1"; "n2"; "n3"] ["laptop"] p0 (fst run) Hrun)
    as (_ & Hmesh & Hdirect).
  split; [reflexivity |]. split.
  - apply Hmesh; [left | | discriminate]; rewrite !elem_of_cons.
    + by right; right; left.
    + by right; left.
  - apply Hdirect; [by left | discriminate].
Defined.

End MeshnodeProofs.
